(** * glabra: overlap edges, reachable step sets, path search and
      sequence assembly

    A shallow embedding of [glabra/dedge.py], [glabra/graph.py] and
    [glabra/create.py], of the part of [glabra/text.py] that builds and
    uses the sequence creators, and of the bucket filters of
    [glabra/buckets.py].

    - Python [str] values are [string]s, Python [int]s are [Z] where the
      code can see a negative value and [nat] for list positions.
    - Python [set]s are [gset]s, [dict]s are [gmap]s; the iteration order of
      a set is the order of [elements].
    - A raised exception is the [Raise] branch of [result].
    - [random.randint] and [random.choice] are nodes of a decision tree
      ([rand]); a random source is a sequence of draws [nat -> nat].
    - A generator is the list of the values it yields together with the way
      it ends ([trace]). *)

From stdpp Require Import gmap strings list fin_maps fin_sets sorting.
From Stdlib Require Import ZArith Lia.

Open Scope string_scope.
Open Scope Z_scope.
Open Scope list_scope.

Set Default Proof Using "All".

(** ** Exceptions and results *)

Inductive exn : Type :=
| ValueError
| AssertionError
| IndexError
| TypeError
| AttributeError.

(** [OutOfFuel] is the model's own: a [while] loop is unrolled [fuel]
    times, and the theorems show that the fuel given is enough. *)
Inductive result (A : Type) : Type :=
| Ok (a : A)
| Raise (e : exn)
| OutOfFuel.
Arguments Ok {A} a.
Arguments Raise {A} e.
Arguments OutOfFuel {A}.

#[global] Instance result_ret : MRet result := λ A a, Ok a.
#[global] Instance result_bind : MBind result := λ A B f r,
  match r with
  | Ok a => f a
  | Raise e => Raise e
  | OutOfFuel => OutOfFuel
  end.

(** [l[i]] for [0 <= i] *)
Definition getitem {A : Type} (l : list A) (i : nat) : result A :=
  match l !! i with
  | Some x => Ok x
  | None => Raise IndexError
  end.

(** [[f(x) for x in l]], stopping at the first exception. *)
Fixpoint mapM {A B : Type} (f : A → result B) (l : list A) : result (list B) :=
  match l with
  | [] => Ok []
  | x :: l' => y ← f x; ys ← mapM f l'; Ok (y :: ys)
  end.

(** ** Python string slices *)

Definition len (s : string) : Z := Z.of_nat (String.length s).

(** A slice bound: negative bounds count from the end, and the bound is
    clamped to the string. *)
Definition slice_bound (n i : Z) : Z :=
  if i <? 0 then Z.max (i + n) 0 else Z.min i n.

(** [s[i:]] *)
Definition slice_from (s : string) (i : Z) : string :=
  let a := slice_bound (len s) i in
  String.substring (Z.to_nat a) (Z.to_nat (len s - a)) s.

(** [s[:j]] *)
Definition slice_to (s : string) (j : Z) : string :=
  String.substring 0 (Z.to_nat (slice_bound (len s) j)) s.

(** [s[i:j]] *)
Definition slice (s : string) (i j : Z) : string :=
  let a := slice_bound (len s) i in
  let b := slice_bound (len s) j in
  String.substring (Z.to_nat a) (Z.to_nat (b - a)) s.

(** ** dedge.py *)

Module dedge.

(** [d.setdefault(key, set()).add(ng)] *)
Definition setdefault_add (d : gmap string (gset string))
    (key ng : string) : gmap string (gset string) :=
  <[key := default ∅ (d !! key) ∪ {[ng]}]> d.

(** The loop of [_get_end_overlap_dict]; the [assert] fires before the
    [raise] behind it can. *)
Fixpoint _get_end_overlap_dict_from (d : gmap string (gset string))
    (end_ngs : list string) (len_overlap len_end : Z)
    : result (gmap string (gset string)) :=
  match end_ngs with
  | [] => Ok d
  | ng :: rest =>
      if bool_decide (len ng = len_end)
      then _get_end_overlap_dict_from
             (setdefault_add d (slice_to ng len_overlap) ng)
             rest len_overlap len_end
      else Raise AssertionError
  end.

Definition _get_end_overlap_dict (end_ngs : list string)
    (len_overlap len_end : Z) : result (gmap string (gset string)) :=
  _get_end_overlap_dict_from ∅ end_ngs len_overlap len_end.

Fixpoint _get_start_overlap_dict_from (d : gmap string (gset string))
    (start_ngs : list string) (len_overlap len_start : Z)
    : result (gmap string (gset string)) :=
  match start_ngs with
  | [] => Ok d
  | ng :: rest =>
      if bool_decide (len ng ≠ len_start)
      then Raise ValueError
      else _get_start_overlap_dict_from
             (setdefault_add d (slice_from ng (- len_overlap)) ng)
             rest len_overlap len_start
  end.

Definition _get_start_overlap_dict (start_ngs : list string)
    (len_overlap len_start : Z) : result (gmap string (gset string)) :=
  _get_start_overlap_dict_from ∅ start_ngs len_overlap len_start.

Record DirectedEdgeGetter : Type := {
  _len_start : Z;
  _len_end : Z;
  _len_overlap : Z;
  _start_overlap_dict : gmap string (gset string);
  _end_overlap_dict : gmap string (gset string)
}.

(** [DirectedEdgeGetter.__init__] *)
Definition __init__ (start_ngs end_ngs : list string)
    : result DirectedEdgeGetter :=
  match start_ngs, end_ngs with
  | s0 :: _, e0 :: _ =>
      let len_start := len s0 in
      let len_end := len e0 in
      if bool_decide (len_start < 2 ∨ len_end < 2) then Raise ValueError
      else
        let len_overlap := Z.min len_start len_end - 1 in
        sd ← _get_start_overlap_dict start_ngs len_overlap len_start;
        ed ← _get_end_overlap_dict end_ngs len_overlap len_end;
        Ok {| _len_start := len_start; _len_end := len_end;
              _len_overlap := len_overlap;
              _start_overlap_dict := sd; _end_overlap_dict := ed |}
  | _, _ => Raise ValueError
  end.

Definition get_end_vertices (self : DirectedEdgeGetter) (start_ng : string)
    : result (gset string) :=
  if bool_decide (len start_ng ≠ _len_start self) then Raise ValueError
  else Ok (default ∅ (_end_overlap_dict self
                        !! slice_from start_ng (- _len_overlap self))).

Definition get_start_vertices (self : DirectedEdgeGetter) (end_ng : string)
    : result (gset string) :=
  if bool_decide (len end_ng ≠ _len_end self) then Raise ValueError
  else Ok (default ∅ (_start_overlap_dict self
                        !! slice_to end_ng (_len_overlap self))).

End dedge.

(** ** Random choices

    A computation that draws random numbers is a decision tree: [RBelow n k]
    asks the random source for a number below [n] and continues with [k]. *)

Inductive rand (A : Type) : Type :=
| RDone (r : result A)
| RBelow (n : nat) (k : nat → rand A).
Arguments RDone {A} r.
Arguments RBelow {A} n k.

Fixpoint rand_bind {A B : Type} (f : A → rand B) (t : rand A) : rand B :=
  match t with
  | RDone (Ok a) => f a
  | RDone (Raise e) => RDone (Raise e)
  | RDone OutOfFuel => RDone OutOfFuel
  | RBelow n k => RBelow n (λ i, rand_bind f (k i))
  end.

#[global] Instance rand_ret : MRet rand := λ A a, RDone (Ok a).
#[global] Instance rand_mbind : MBind rand := λ A B f t, rand_bind f t.

(** A step that draws nothing. *)
Definition lift {A : Type} (r : result A) : rand A := RDone r.

(** [random.randint(a, b)]: [ValueError] on an empty range. *)
Definition randint (a b : Z) : rand Z :=
  if bool_decide (b < a) then RDone (Raise ValueError)
  else RBelow (Z.to_nat (b - a + 1)) (λ i, RDone (Ok (a + Z.of_nat i))).

(** [random.choice(seq)]: [IndexError] on an empty sequence. *)
Definition choice {A : Type} (l : list A) : rand A :=
  match l with
  | [] => RDone (Raise IndexError)
  | _ => RBelow (length l) (λ i, lift (getitem l i))
  end.

(** Running a tree against a random source: the source is the sequence of
    its raw draws, and the draw at a node with bound [n] is reduced below
    [n]. *)
Fixpoint run {A : Type} (t : rand A) (draws : nat → nat) (pos : nat)
    : result A :=
  match t with
  | RDone r => r
  | RBelow n k =>
      if bool_decide (n = 0%nat) then Raise ValueError
      else run (k (draws pos mod n)%nat) draws (S pos)
  end.

(** Every result some random source can produce. *)
Fixpoint outcomes {A : Type} (t : rand A) : list (result A) :=
  match t with
  | RDone r => [r]
  | RBelow n k =>
      if bool_decide (n = 0%nat) then [Raise ValueError]
      else flat_map (λ i, outcomes (k i)) (seq 0 n)
  end.

(** ** Generators

    A generator is observed through the values it yields and the way it
    ends. *)

Inductive ending : Type :=
| StopIteration
| Raised (e : exn)
| Unfinished.

Definition trace (A : Type) : Type := (list A * ending)%type.

Definition yield_first {A : Type} (x : A) (t : trace A) : trace A :=
  (x :: t.1, t.2).

(** A generator that stops where a plain computation fails. *)
Definition trace_of_result {A B : Type} (r : result A) (k : A → trace B)
    : trace B :=
  match r with
  | Ok a => k a
  | Raise e => ([], Raised e)
  | OutOfFuel => ([], Unfinished)
  end.

(** [for x in xs: body], where [body] may yield; [after] is how the loop
    ends once [xs] is used up. *)
Fixpoint for_each {A B : Type} (xs : list A) (body : A → trace B)
    (after : ending) : trace B :=
  match xs with
  | [] => ([], after)
  | x :: rest =>
      match body x with
      | (ys, StopIteration) =>
          let t := for_each rest body after in ((ys ++ t.1)%list, t.2)
      | (ys, e) => (ys, e)
      end
  end.

(** ** graph.py *)

Module graph.

Section graph.
Context {V : Type} `{Countable V}.

(** The interface of the [directed_edge_getter] argument. *)
Record edge_getter : Type := {
  get_end_vertices : V → result (gset V);
  get_start_vertices : V → result (gset V)
}.

Definition _expand (the_set : list V) (expand_fn : V → result (gset V))
    : result (gset V) :=
  sets ← mapM expand_fn the_set; Ok (⋃ sets).

(** [the_set] is updated in place and returned: the caller stores the
    result where [the_set] was. *)
Definition expand_update (the_set : gset V) (other_set : list V)
    (expand_fn : V → result (gset V)) : result (gset V) :=
  e ← _expand other_set expand_fn; Ok (the_set ∩ e).

Record GraphPathFinder : Type := {
  _start_vertices : gset V;
  _end_vertices : gset V;
  _num_vertices : Z;
  _dedge : edge_getter;
  _step_sets : list (gset V);
  _is_disconnected : bool
}.

(** The [while earlier_index < later_index - 1] loop of [_build_step_sets].
    The boolean is [_is_disconnected]; when it is set the method has
    returned. *)
Fixpoint _build_intermediate (fuel : nat) (dg : edge_getter)
    (step_sets : list (gset V)) (earlier_index later_index : nat)
    : result (list (gset V) * nat * nat * bool) :=
  match fuel with
  | O => OutOfFuel
  | S fuel' =>
      if bool_decide (earlier_index < later_index - 1)%nat then
        earlier_set ← getitem step_sets earlier_index;
        later_set ← getitem step_sets later_index;
        if bool_decide (size earlier_set < size later_set)%nat then
          new_set ← _expand (elements earlier_set) (get_end_vertices dg);
          let step_sets := <[(earlier_index + 1)%nat := new_set]> step_sets in
          if bool_decide (size new_set = 0%nat)
          then Ok (step_sets, earlier_index, later_index, true)
          else _build_intermediate fuel' dg step_sets
                 (earlier_index + 1) later_index
        else
          new_set ← _expand (elements later_set) (get_start_vertices dg);
          let step_sets := <[(later_index - 1)%nat := new_set]> step_sets in
          if bool_decide (size new_set = 0%nat)
          then Ok (step_sets, earlier_index, later_index, true)
          else _build_intermediate fuel' dg step_sets
                 earlier_index (later_index - 1)
      else Ok (step_sets, earlier_index, later_index, false)
  end.

(** [for i in range(earlier_index, num_vertices - 1)] *)
Fixpoint _filter_later (dg : edge_getter) (indices : list nat)
    (step_sets : list (gset V)) : result (list (gset V) * bool) :=
  match indices with
  | [] => Ok (step_sets, false)
  | i :: rest =>
      the_set ← getitem step_sets (i + 1);
      other_set ← getitem step_sets i;
      new_set ← expand_update the_set (elements other_set)
                  (get_end_vertices dg);
      let step_sets := <[(i + 1)%nat := new_set]> step_sets in
      if bool_decide (size new_set = 0%nat) then Ok (step_sets, true)
      else _filter_later dg rest step_sets
  end.

(** [for i in reversed(range(1, later_index + 1))] *)
Fixpoint _filter_early (dg : edge_getter) (indices : list nat)
    (step_sets : list (gset V)) : result (list (gset V) * bool) :=
  match indices with
  | [] => Ok (step_sets, false)
  | i :: rest =>
      the_set ← getitem step_sets (i - 1);
      other_set ← getitem step_sets i;
      new_set ← expand_update the_set (elements other_set)
                  (get_start_vertices dg);
      let step_sets := <[(i - 1)%nat := new_set]> step_sets in
      if bool_decide (size new_set = 0%nat) then Ok (step_sets, true)
      else _filter_early dg rest step_sets
  end.

(** [_build_step_sets]: the step sets and [_is_disconnected]. *)
Definition _build_step_sets (start_vertices end_vertices : gset V)
    (num_vertices : nat) (dg : edge_getter)
    : result (list (gset V) * bool) :=
  let step_sets := replicate num_vertices (∅ : gset V) in
  let step_sets := <[0%nat := start_vertices]> step_sets in
  let step_sets := <[(num_vertices - 1)%nat := end_vertices]> step_sets in
  '(step_sets, earlier_index, later_index, disconnected) ←
    _build_intermediate num_vertices dg step_sets 0 (num_vertices - 1);
  if disconnected : bool then Ok (step_sets, true)
  else
    '(step_sets, disconnected) ←
      _filter_later dg
        (seq earlier_index (num_vertices - 1 - earlier_index)) step_sets;
    if disconnected : bool then Ok (step_sets, true)
    else _filter_early dg (reverse (seq 1 later_index)) step_sets.

Definition __init__ (start_vertices end_vertices : gset V)
    (num_vertices : Z) (directed_edge_getter : edge_getter)
    : result GraphPathFinder :=
  if bool_decide (size start_vertices < 1)%nat then Raise ValueError
  else if bool_decide (size end_vertices < 1)%nat then Raise ValueError
  else if bool_decide (num_vertices < 2) then Raise ValueError
  else
    '(step_sets, disconnected) ←
      _build_step_sets start_vertices end_vertices (Z.to_nat num_vertices)
        directed_edge_getter;
    Ok {| _start_vertices := start_vertices;
          _end_vertices := end_vertices;
          _num_vertices := num_vertices;
          _dedge := directed_edge_getter;
          _step_sets := step_sets;
          _is_disconnected := disconnected |}.

Definition is_disconnected (self : GraphPathFinder) : bool :=
  _is_disconnected self.

(** [path[i]] handed to the edge getter; an unset position holds [None]. *)
Definition vertex_at (path : list (option V)) (i : nat) : result V :=
  o ← getitem path i;
  match o with
  | Some v => Ok v
  | None => Raise TypeError
  end.

(** [for i in reversed(range(1, start_step_index + 1))] *)
Fixpoint _fill_earlier (self : GraphPathFinder) (indices : list nat)
    (path : list (option V)) : rand (list (option V)) :=
  match indices with
  | [] => mret path
  | i :: rest =>
      v ← lift (vertex_at path i);
      starts ← lift (get_start_vertices (_dedge self) v);
      step_set ← lift (getitem (_step_sets self) (i - 1));
      u ← choice (elements (starts ∩ step_set));
      _fill_earlier self rest (<[(i - 1)%nat := Some u]> path)
  end.

(** [for i in range(start_step_index, num_vertices - 1)] *)
Fixpoint _fill_later (self : GraphPathFinder) (indices : list nat)
    (path : list (option V)) : rand (list (option V)) :=
  match indices with
  | [] => mret path
  | i :: rest =>
      v ← lift (vertex_at path i);
      ends ← lift (get_end_vertices (_dedge self) v);
      step_set ← lift (getitem (_step_sets self) (i + 1));
      w ← choice (elements (ends ∩ step_set));
      _fill_later self rest (<[(i + 1)%nat := Some w]> path)
  end.

Definition get_random_path (self : GraphPathFinder)
    : rand (list (option V)) :=
  if is_disconnected self then lift (Raise ValueError)
  else
    let n := Z.to_nat (_num_vertices self) in
    let path := replicate n (None : option V) in
    start_step_index ← randint 0 (_num_vertices self - 1);
    let k := Z.to_nat start_step_index in
    start_step_set ← lift (getitem (_step_sets self) k);
    v ← choice (elements start_step_set);
    let path := <[k := Some v]> path in
    path ← _fill_earlier self (reverse (seq 1 k)) path;
    _fill_later self (seq k (n - 1 - k)) path.

(** The local state of [_get_all_paths_generator]. *)
Record gen_state : Type := {
  path : list (option V);
  step_index : Z;
  steps_vertices : list (option (list V))
}.

(** [vertices.pop()]: the last element of a list; for a set, the elements
    are taken in the same way from the list of its elements. *)
Definition pop (vertices : list V) : result (V * list V) :=
  match reverse vertices with
  | [] => Raise IndexError
  | v :: rest => Ok (v, reverse rest)
  end.

(** The statements of [_get_all_paths_generator] before its loop. *)
Definition gen_init (self : GraphPathFinder) : result gen_state :=
  let n := Z.to_nat (_num_vertices self) in
  step_set ← getitem (_step_sets self) 0;
  Ok {| path := replicate n None;
        step_index := 0;
        steps_vertices :=
          <[0%nat := Some (elements step_set)]> (replicate n None) |}.

(** One turn of the [while step_index > -1] loop: [None] when the loop is
    left, else the tuple yielded in this turn, if any, and the next state. *)
Definition gen_step (self : GraphPathFinder) (st : gen_state)
    : result (option (option (list (option V)) * gen_state)) :=
  if bool_decide (step_index st > -1) then
    let i := Z.to_nat (step_index st) in
    o ← getitem (steps_vertices st) i;
    match o with
    | None => Raise TypeError
    | Some vertices =>
        if bool_decide (length vertices = 0%nat) then
          Ok (Some (None, {| path := path st;
                             step_index := step_index st - 1;
                             steps_vertices := steps_vertices st |}))
        else
          '(vertex, vertices) ← pop vertices;
          let steps_vertices := <[i := Some vertices]> (steps_vertices st) in
          let path := <[i := Some vertex]> (path st) in
          if bool_decide (step_index st = _num_vertices self - 1) then
            Ok (Some (Some path,
                      {| path := path; step_index := step_index st;
                         steps_vertices := steps_vertices |}))
          else
            ends ← get_end_vertices (_dedge self) vertex;
            step_set ← getitem (_step_sets self) (i + 1);
            Ok (Some (None,
                      {| path := path;
                         step_index := step_index st + 1;
                         steps_vertices :=
                           <[(i + 1)%nat := Some (elements (ends ∩ step_set))]>
                             steps_vertices |}))
    end
  else Ok None.

(** Pulling a generator until it ends, at most [fuel] loop turns. *)
Fixpoint gen_run (self : GraphPathFinder) (fuel : nat) (st : gen_state)
    : trace (list (option V)) :=
  match fuel with
  | O => ([], Unfinished)
  | S fuel' =>
      match gen_step self st with
      | Ok None => ([], StopIteration)
      | Ok (Some (Some tuple, st')) =>
          yield_first tuple (gen_run self fuel' st')
      | Ok (Some (None, st')) => gen_run self fuel' st'
      | Raise e => ([], Raised e)
      | OutOfFuel => ([], Unfinished)
      end
  end.

(** The generator, pulled until it ends or [fuel] turns of its loop have
    run. *)
Definition _get_all_paths_generator (self : GraphPathFinder) (fuel : nat)
    : trace (list (option V)) :=
  trace_of_result (gen_init self) (gen_run self fuel).

(** [get_all_paths]: the generator, or [ValueError] at the call. *)
Definition get_all_paths (self : GraphPathFinder) (fuel : nat)
    : result (trace (list (option V))) :=
  if is_disconnected self then Raise ValueError
  else Ok (_get_all_paths_generator self fuel).

End graph.

Arguments edge_getter V {_ _}.
Arguments GraphPathFinder V {_ _}.
Arguments gen_state V : clear implicits.

End graph.

(** A [dedge.DirectedEdgeGetter] handed to a [GraphPathFinder]. *)
Definition as_edge_getter (d : dedge.DirectedEdgeGetter)
    : graph.edge_getter string :=
  {| graph.get_end_vertices := dedge.get_end_vertices d;
     graph.get_start_vertices := dedge.get_start_vertices d |}.

(** ** create.py *)

Module create.

Definition get_len_single_middle_vertex
    (len_leading len_middle len_trailing : Z) : Z :=
  (Z.max len_leading len_middle + 1)
  + (Z.max len_trailing len_middle + 1) - len_middle.

Definition _get_num_middle_vertices
    (len_seq len_leading len_middle len_trailing : Z) : Z :=
  let len_single_middle_vertex :=
    get_len_single_middle_vertex len_leading len_middle len_trailing in
  len_seq - len_single_middle_vertex + 1.

(** [for i in range(1, len(ngram_list))] of [_concat_ngram_list] *)
Fixpoint _concat_loop (ngram_list : list string) (indices : list nat)
    (res : string) : result string :=
  match indices with
  | [] => Ok res
  | i :: rest =>
      prev_ngram ← getitem ngram_list (i - 1);
      ngram ← getitem ngram_list i;
      let len_overlap := Z.min (len prev_ngram) (len ngram) - 1 in
      _concat_loop ngram_list rest (res +:+ slice_from ngram len_overlap)
  end.

Definition _concat_ngram_list (ngram_list : list string) : result string :=
  res ← getitem ngram_list 0;
  _concat_loop ngram_list (seq 1 (length ngram_list - 1)) res.

(** The vertices of a path; a position still holding [None] cannot be
    concatenated. *)
Definition path_vertices (path : list (option string))
    : result (list string) :=
  mapM (λ o, match o with Some v => Ok v | None => Raise TypeError end) path.

(** [path[-1]] handed to an edge getter *)
Definition last_vertex (path : list (option string)) : result string :=
  match last path with
  | Some (Some v) => Ok v
  | Some None => Raise TypeError
  | None => Raise IndexError
  end.

(** The attributes [_get_random_path_fn] and [_get_all_paths_fn] hold
    closures; they stay unset ([None] here) when [__init__] or
    [_single_middle_vertex_init] returns early. *)
Record SequenceCreator : Type := {
  _leading_to_middle_dedge : dedge.DirectedEdgeGetter;
  _middle_to_trailing_dedge : dedge.DirectedEdgeGetter;
  _start_vertices : gset string;
  _end_vertices : gset string;
  _is_disconnected : bool;
  _get_random_path_fn : option (rand (list (option string)));
  _get_all_paths_fn :
    option (nat → result (trace (list (option string))))
}.

Definition _single_middle_vertex_init (l2m m2t : dedge.DirectedEdgeGetter)
    (start_vertices end_vertices : gset string) : SequenceCreator :=
  let middle := start_vertices ∩ end_vertices in
  if bool_decide (size middle = 0%nat) then
    {| _leading_to_middle_dedge := l2m; _middle_to_trailing_dedge := m2t;
       _start_vertices := start_vertices; _end_vertices := end_vertices;
       _is_disconnected := true;
       _get_random_path_fn := None; _get_all_paths_fn := None |}
  else
    {| _leading_to_middle_dedge := l2m; _middle_to_trailing_dedge := m2t;
       _start_vertices := start_vertices; _end_vertices := end_vertices;
       _is_disconnected := false;
       _get_random_path_fn :=
         Some (v ← choice (elements middle); mret [Some v]);
       _get_all_paths_fn :=
         Some (λ _, Ok ((λ x, [Some x]) <$> elements middle,
                        StopIteration)) |}.

Definition _multi_middle_vertex_init (l2m m2t : dedge.DirectedEdgeGetter)
    (start_vertices end_vertices : gset string)
    (ngs_middle : list string) (num_middle_vertices : Z)
    : result SequenceCreator :=
  middle_to_middle_dedge ← dedge.__init__ ngs_middle ngs_middle;
  gpf ← graph.__init__ start_vertices end_vertices num_middle_vertices
           (as_edge_getter middle_to_middle_dedge);
  Ok {| _leading_to_middle_dedge := l2m; _middle_to_trailing_dedge := m2t;
        _start_vertices := start_vertices; _end_vertices := end_vertices;
        _is_disconnected := graph.is_disconnected gpf;
        _get_random_path_fn := Some (graph.get_random_path gpf);
        _get_all_paths_fn := Some (graph.get_all_paths gpf) |}.

(** The two [expand_update] calls of [__init__]. *)
Definition middle_start_vertices (l2m : dedge.DirectedEdgeGetter)
    (ngrams_leading ngrams_middle : list string) : result (gset string) :=
  graph.expand_update (list_to_set ngrams_middle) ngrams_leading
    (dedge.get_end_vertices l2m).

Definition middle_end_vertices (m2t : dedge.DirectedEdgeGetter)
    (ngrams_middle ngrams_trailing : list string) : result (gset string) :=
  graph.expand_update (list_to_set ngrams_middle) ngrams_trailing
    (dedge.get_start_vertices m2t).

Definition __init__ (sequence_length : Z)
    (ngrams_leading ngrams_middle ngrams_trailing : list string)
    : result SequenceCreator :=
  l2m ← dedge.__init__ ngrams_leading ngrams_middle;
  m2t ← dedge.__init__ ngrams_middle ngrams_trailing;
  start_vertices ← middle_start_vertices l2m ngrams_leading ngrams_middle;
  end_vertices ← middle_end_vertices m2t ngrams_middle ngrams_trailing;
  if bool_decide (size start_vertices = 0%nat ∨ size end_vertices = 0%nat)
  then
    Ok {| _leading_to_middle_dedge := l2m; _middle_to_trailing_dedge := m2t;
          _start_vertices := start_vertices; _end_vertices := end_vertices;
          _is_disconnected := true;
          _get_random_path_fn := None; _get_all_paths_fn := None |}
  else
    leading0 ← getitem ngrams_leading 0;
    let len_leading := len leading0 in
    middle0 ← getitem ngrams_middle 0;
    let len_middle := len middle0 in
    trailing0 ← getitem ngrams_trailing 0;
    let len_trailing := len trailing0 in
    let num_middle_vertices :=
      _get_num_middle_vertices sequence_length
        len_leading len_middle len_trailing in
    if bool_decide (num_middle_vertices = 1)
    then Ok (_single_middle_vertex_init l2m m2t start_vertices end_vertices)
    else _multi_middle_vertex_init l2m m2t start_vertices end_vertices
           ngrams_middle num_middle_vertices.

Definition is_disconnected (self : SequenceCreator) : bool :=
  _is_disconnected self.

Definition get_random_sequence (self : SequenceCreator) : rand string :=
  if is_disconnected self then lift (Raise ValueError)
  else
    random_path ← match _get_random_path_fn self with
                   | Some fn => fn
                   | None => lift (Raise AttributeError)
                   end;
    first ← lift (graph.vertex_at random_path 0);
    leading ← lift (dedge.get_start_vertices
                      (_leading_to_middle_dedge self) first);
    ngram_leading ← choice (elements leading);
    last ← lift (last_vertex random_path);
    trailing ← lift (dedge.get_end_vertices
                       (_middle_to_trailing_dedge self) last);
    ngram_trailing ← choice (elements trailing);
    middle ← lift (path_vertices random_path);
    lift (_concat_ngram_list
            ([ngram_leading] ++ middle ++ [ngram_trailing])%list).

(** The three nested loops of [get_all_sequences] for one path. *)
Definition sequences_of_path (self : SequenceCreator)
    (path : list (option string)) : trace string :=
  trace_of_result (graph.vertex_at path 0) (λ first,
  trace_of_result (dedge.get_start_vertices
                     (_leading_to_middle_dedge self) first) (λ leading,
  for_each (elements leading) (λ ngram_leading,
    trace_of_result (last_vertex path) (λ last,
    trace_of_result (dedge.get_end_vertices
                       (_middle_to_trailing_dedge self) last) (λ trailing,
    for_each (elements trailing) (λ ngram_trailing,
      trace_of_result (path_vertices path) (λ middle,
      trace_of_result
        (_concat_ngram_list
           ([ngram_leading] ++ middle ++ [ngram_trailing])%list)
        (λ sequence, ([sequence], StopIteration))))
      StopIteration)))
    StopIteration)).

(** [get_all_sequences] is a generator function: nothing runs, and nothing
    is raised, before the first value is asked for. *)
Definition get_all_sequences (self : SequenceCreator) (fuel : nat)
    : trace string :=
  if is_disconnected self then ([], Raised ValueError)
  else
    match _get_all_paths_fn self with
    | None => ([], Raised AttributeError)
    | Some fn =>
        trace_of_result (fn fuel) (λ paths,
          for_each paths.1 (sequences_of_path self) paths.2)
    end.

End create.

(** ** text.py: the sequence creators of a [TextGenerator]

    What [TextGenerator] takes from elsewhere is an argument here: the three
    n-gram pools ([buckets.get_ngrams] and its leading and trailing
    variants), the items of the analyzer's length-to-frequency dictionary
    and its training sequences. Frequencies are only stored, so their type
    [F] is left open. *)

Module text.
Section text.
Context {F : Type}.

Record TextGenerator : Type := {
  _sequences : list string;
  _seq_len_items : list (Z * F);
  _post_processing_fun : option (string → result string);
  _ngrams : list string;
  _ngrams_leading : list string;
  _ngrams_trailing : list string;
  _min_len : Z;
  _seq_creator_dict : gmap Z create.SequenceCreator;
  _seq_freq_dict : gmap Z F
}.

(** The loop of [_build_sequence_dicts] over the items left, with the two
    dictionaries built so far. *)
Fixpoint _build_sequence_dicts (min_len : Z)
    (ngrams_leading ngrams ngrams_trailing : list string)
    (items : list (Z * F))
    (seq_creator_dict : gmap Z create.SequenceCreator)
    (seq_freq_dict : gmap Z F)
    : result (gmap Z create.SequenceCreator * gmap Z F) :=
  match items with
  | [] => Ok (seq_creator_dict, seq_freq_dict)
  | (len_seq, seq_freq) :: rest =>
      if bool_decide (len_seq < min_len) then
        _build_sequence_dicts min_len ngrams_leading ngrams ngrams_trailing
          rest seq_creator_dict seq_freq_dict
      else
        seq_creator ← create.__init__ len_seq
                        ngrams_leading ngrams ngrams_trailing;
        if create.is_disconnected seq_creator then
          _build_sequence_dicts min_len ngrams_leading ngrams ngrams_trailing
            rest seq_creator_dict seq_freq_dict
        else
          _build_sequence_dicts min_len ngrams_leading ngrams ngrams_trailing
            rest (<[len_seq := seq_creator]> seq_creator_dict)
            (<[len_seq := seq_freq]> seq_freq_dict)
  end.

Definition __init__ (ngrams ngrams_leading ngrams_trailing : list string)
    (sequences : list string) (items : list (Z * F))
    (post_processing_fun : option (string → result string))
    : result TextGenerator :=
  leading0 ← getitem ngrams_leading 0;
  middle0 ← getitem ngrams 0;
  trailing0 ← getitem ngrams_trailing 0;
  let min_len :=
    create.get_len_single_middle_vertex
      (len leading0) (len middle0) (len trailing0) in
  '(seq_creator_dict, seq_freq_dict) ←
    _build_sequence_dicts min_len ngrams_leading ngrams ngrams_trailing
      items ∅ ∅;
  Ok {| _sequences := sequences;
        _seq_len_items := items;
        _post_processing_fun := post_processing_fun;
        _ngrams := ngrams;
        _ngrams_leading := ngrams_leading;
        _ngrams_trailing := ngrams_trailing;
        _min_len := min_len;
        _seq_creator_dict := seq_creator_dict;
        _seq_freq_dict := seq_freq_dict |}.

Definition is_empty (self : TextGenerator) : bool :=
  bool_decide (size (_seq_creator_dict self) = 0%nat).

Definition _post_process_text (self : TextGenerator) (text : string)
    : result string :=
  match _post_processing_fun self with
  | None => Ok text
  | Some f => f text
  end.

Definition _get_all_texts_of_length (self : TextGenerator)
    (text_length : Z) (unique : bool) (fuel : nat) : trace string :=
  match _seq_creator_dict self !! text_length with
  | None => ([], StopIteration)
  | Some seq_creator =>
      let filter_set : gset string :=
        if unique then list_to_set (_sequences self) else ∅ in
      let texts := create.get_all_sequences seq_creator fuel in
      for_each texts.1
        (λ text,
           if bool_decide (text ∈ filter_set) then ([], StopIteration)
           else trace_of_result (_post_process_text self text)
                  (λ post_processed, ([post_processed], StopIteration)))
        texts.2
  end.

(** [sorted(self._seq_creator_dict.keys())]: the keys are distinct
    integers, so the sorted list is the same for every sorting algorithm. *)
Definition sorted_keys (self : TextGenerator) : list Z :=
  merge_sort Z.le (elements (dom (_seq_creator_dict self))).

Definition get_all_texts (self : TextGenerator) (unique : bool)
    (fuel : nat) : trace string :=
  for_each (sorted_keys self)
    (λ len_seq, _get_all_texts_of_length self len_seq unique fuel)
    StopIteration.

End text.
Arguments TextGenerator : clear implicits.
End text.

(** ** buckets.py

    The analyzer is used through its three n-gram methods, which are an
    interface here; the type [B] of a bound is left open, bounds are only
    handed through. *)

Module analyze.

Record SequenceAnalyzer (B : Type) : Type := {
  get_ngrams : Z → B → B → result (list string);
  get_ngrams_leading : Z → B → B → result (list string);
  get_ngrams_trailing : Z → B → B → result (list string)
}.
Arguments get_ngrams {B} _ _ _ _.
Arguments get_ngrams_leading {B} _ _ _ _.
Arguments get_ngrams_trailing {B} _ _ _ _.

End analyze.

Module buckets.

(** The [for] loop of the filter function of [_get_bucket_filter]. *)
Fixpoint _contains_all (bucket_set : gset string) (seq : string)
    (len_ng : Z) (indices : list Z) : bool :=
  match indices with
  | [] => true
  | i :: rest =>
      if negb (bool_decide (slice seq i (i + len_ng) ∈ bucket_set))
      then false
      else _contains_all bucket_set seq len_ng rest
  end.

Definition _get_bucket_filter (bucket : list string) (len_seq : Z)
    : result (string → result bool) :=
  first ← getitem bucket 0;
  let len_ng := len first in
  if bool_decide (len_ng < len_seq) then
    let bucket_set : gset string := list_to_set bucket in
    Ok (λ seq,
          if bool_decide (len seq = len_seq) then
            Ok (_contains_all bucket_set seq len_ng
                  (seqZ 0 (len_seq - len_ng + 1)))
          else Raise AssertionError)
  else Raise AssertionError.

Definition _get_bucket_filter_leading (bucket : list string) (len_seq : Z)
    : result (string → result bool) :=
  first ← getitem bucket 0;
  let len_ng := len first in
  if bool_decide (len_ng < len_seq) then
    let bucket_set : gset string := list_to_set bucket in
    Ok (λ seq,
          if bool_decide (len seq = len_seq) then
            Ok (bool_decide (slice_to seq len_ng ∈ bucket_set))
          else Raise AssertionError)
  else Raise AssertionError.

Definition _get_bucket_filter_trailing (bucket : list string) (len_seq : Z)
    : result (string → result bool) :=
  first ← getitem bucket 0;
  let len_ng := len first in
  if bool_decide (len_ng < len_seq) then
    let bucket_set : gset string := list_to_set bucket in
    Ok (λ seq,
          if bool_decide (len seq = len_seq) then
            Ok (bool_decide (slice_from seq (- len_ng) ∈ bucket_set))
          else Raise AssertionError)
  else Raise AssertionError.

(** [list(filter(filter_fn, ng_bucket))] *)
Fixpoint filter_list (filter_fn : string → result bool)
    (ng_bucket : list string) : result (list string) :=
  match ng_bucket with
  | [] => Ok []
  | ng :: rest =>
      keep ← filter_fn ng;
      kept ← filter_list filter_fn rest;
      Ok (if keep : bool then ng :: kept else kept)
  end.

(** [for i in range(1, len(ng_buckets))], on the list as updated so far. *)
Fixpoint _filter_loop
    (get_filter_fn : list string → Z → result (string → result bool))
    (indices : list nat) (ng_buckets : list (list string))
    : result (list (list string)) :=
  match indices with
  | [] => Ok ng_buckets
  | i :: rest =>
      prev_ng_bucket ← getitem ng_buckets (i - 1);
      ng_bucket ← getitem ng_buckets i;
      if bool_decide (length prev_ng_bucket = 0%nat
                      ∨ length ng_bucket = 0%nat) then
        _filter_loop get_filter_fn rest (<[i := []]> ng_buckets)
      else
        prev0 ← getitem prev_ng_bucket 0;
        let len_prev_ng := len prev0 in
        ng0 ← getitem ng_bucket 0;
        let len_ng := len ng0 in
        if bool_decide (len_prev_ng < len_ng) then
          filter_fn ← get_filter_fn prev_ng_bucket len_ng;
          kept ← filter_list filter_fn ng_bucket;
          _filter_loop get_filter_fn rest (<[i := kept]> ng_buckets)
        else Raise AssertionError
  end.

(** The list is filtered in place; the model returns it. *)
Definition _filter_ng_buckets (ng_buckets : list (list string))
    (get_filter_fn : list string → Z → result (string → result bool))
    : result (list (list string)) :=
  _filter_loop get_filter_fn (seq 1 (length ng_buckets - 1)) ng_buckets.

Section bounds.
Context {B : Type}.

(** [sorted(bounds.items())]: the keys of a dictionary are distinct, so
    the items are ordered by their keys. *)
Definition item_le (a b : Z * (B * B)) : Prop := a.1 ≤ b.1.

#[global] Instance item_le_dec (a b : Z * (B * B)) : Decision (item_le a b) :=
  Z_le_dec a.1 b.1.

Definition sorted_items (bounds : gmap Z (B * B)) : list (Z * (B * B)) :=
  merge_sort item_le (map_to_list bounds).

Definition _get_ng_buckets (bounds : gmap Z (B * B))
    (get_ngs_fn : Z → B → B → result (list string))
    : result (list (list string)) :=
  mapM (λ item, get_ngs_fn item.1 item.2.1 item.2.2) (sorted_items bounds).

Definition _build_bucket (bounds : gmap Z (B * B))
    (get_ngs_fn : Z → B → B → result (list string))
    (get_filter_fn : list string → Z → result (string → result bool))
    : result (list string) :=
  ng_buckets ← _get_ng_buckets bounds get_ngs_fn;
  ng_buckets ← _filter_ng_buckets ng_buckets get_filter_fn;
  if bool_decide (length ng_buckets = 0%nat) then Ok []
  else match last ng_buckets with
       | Some ng_bucket => Ok ng_bucket
       | None => Raise IndexError
       end.

Definition get_ngrams (sequence_analyzer : analyze.SequenceAnalyzer B)
    (bounds : gmap Z (B * B)) : result (list string) :=
  _build_bucket bounds (analyze.get_ngrams sequence_analyzer)
    _get_bucket_filter.

Definition get_ngrams_leading (sequence_analyzer : analyze.SequenceAnalyzer B)
    (bounds_leading : gmap Z (B * B)) : result (list string) :=
  _build_bucket bounds_leading
    (analyze.get_ngrams_leading sequence_analyzer)
    _get_bucket_filter_leading.

Definition get_ngrams_trailing
    (sequence_analyzer : analyze.SequenceAnalyzer B)
    (bounds_trailing : gmap Z (B * B)) : result (list string) :=
  _build_bucket bounds_trailing
    (analyze.get_ngrams_trailing sequence_analyzer)
    _get_bucket_filter_trailing.

End bounds.
End buckets.

(** ** The edge getter of the test suite

    [tests/test_graph.py] drives [GraphPathFinder] with a [DirectedGraph]: two
    [defaultdict(set)]s filled by [add_edge]. *)

Module test_graph.

Record DirectedGraph : Type := {
  start_to_end_dict : gmap Z (gset Z);
  end_to_start_dict : gmap Z (gset Z)
}.

Definition empty : DirectedGraph :=
  {| start_to_end_dict := ∅; end_to_start_dict := ∅ |}.

Definition add_edge (self : DirectedGraph) (start_vertex end_vertex : Z)
    : DirectedGraph :=
  {| start_to_end_dict :=
       <[start_vertex :=
           default ∅ (start_to_end_dict self !! start_vertex)
           ∪ {[end_vertex]}]> (start_to_end_dict self);
     end_to_start_dict :=
       <[end_vertex :=
           default ∅ (end_to_start_dict self !! end_vertex)
           ∪ {[start_vertex]}]> (end_to_start_dict self) |}.

Definition get_start_vertices (self : DirectedGraph) (end_vertex : Z)
    : result (gset Z) :=
  Ok (default ∅ (end_to_start_dict self !! end_vertex)).

Definition get_end_vertices (self : DirectedGraph) (start_vertex : Z)
    : result (gset Z) :=
  Ok (default ∅ (start_to_end_dict self !! start_vertex)).

Definition as_edge_getter (self : DirectedGraph) : graph.edge_getter Z :=
  {| graph.get_end_vertices := get_end_vertices self;
     graph.get_start_vertices := get_start_vertices self |}.

Definition of_edges (edges : list (Z * Z)) : DirectedGraph :=
  foldl (λ g e, add_edge g e.1 e.2) empty edges.

(** The graph with self loops of [setup_class]. *)
Definition dg2 : DirectedGraph :=
  of_edges [(1, 2); (2, 2); (2, 3); (3, 3); (3, 2)].

(** The first graph of [setup_class]. *)
Definition dg1 : DirectedGraph :=
  of_edges [(11, 21); (11, 22); (12, 21); (12, 22); (12, 23); (13, 23);
            (22, 32); (23, 32); (31, 41); (32, 43); (33, 43)].

End test_graph.

Example dedge_ex :
  (d ← dedge.__init__ ["abc"; "xbd"] ["bcd"; "bce"; "xcd"];
   s ← dedge.get_end_vertices d "abc";
   Ok (bool_decide (s = {["bcd"; "bce"]})))  = Ok true.
Proof. vm_compute. reflexivity. Qed.

(** ** Properties of the overlap dictionaries *)

Section dedge_facts.
Import dedge.

Lemma elem_of_setdefault_add d key ng k x :
  x ∈ default ∅ (setdefault_add d key ng !! k) ↔
  x ∈ default ∅ (d !! k) ∨ (x = ng ∧ key = k).
Proof.
  unfold setdefault_add. destruct (decide (key = k)) as [->|Hne].
  - rewrite lookup_insert_eq. simpl. set_solver.
  - rewrite lookup_insert_ne by done. naive_solver.
Qed.

Lemma end_overlap_dict_from_spec end_ngs : ∀ d K le d',
  _get_end_overlap_dict_from d end_ngs K le = Ok d' →
  (∀ ng, ng ∈ end_ngs → len ng = le) ∧
  (∀ k x, x ∈ default ∅ (d' !! k) ↔
          x ∈ default ∅ (d !! k) ∨ (x ∈ end_ngs ∧ slice_to x K = k)).
Proof.
  induction end_ngs as [|ng rest IH]; intros d K le d' Hrun; simpl in Hrun.
  - injection Hrun as <-. split; [set_solver|]. intros k x. set_solver.
  - case_bool_decide as Hlen; [|discriminate].
    apply IH in Hrun as [Hall Hdict]. split.
    + intros ng' [->|Hin]%elem_of_cons; auto.
    + intros k x. rewrite Hdict, elem_of_setdefault_add, elem_of_cons.
      naive_solver.
Qed.

Lemma start_overlap_dict_from_spec start_ngs : ∀ d K ls d',
  _get_start_overlap_dict_from d start_ngs K ls = Ok d' →
  (∀ ng, ng ∈ start_ngs → len ng = ls) ∧
  (∀ k x, x ∈ default ∅ (d' !! k) ↔
          x ∈ default ∅ (d !! k) ∨ (x ∈ start_ngs ∧ slice_from x (- K) = k)).
Proof.
  induction start_ngs as [|ng rest IH]; intros d K ls d' Hrun; simpl in Hrun.
  - injection Hrun as <-. split; [set_solver|]. intros k x. set_solver.
  - case_bool_decide as Hlen; [discriminate|].
    apply IH in Hrun as [Hall Hdict]. split.
    + intros ng' [->|Hin]%elem_of_cons; auto.
    + intros k x. rewrite Hdict, elem_of_setdefault_add, elem_of_cons.
      naive_solver.
Qed.

(** What a successfully built edge getter knows about its two pools. *)
Record built (start_ngs end_ngs : list string) (d : DirectedEdgeGetter)
    : Prop := {
  built_start_len : ∀ s, s ∈ start_ngs → len s = _len_start d;
  built_end_len : ∀ e, e ∈ end_ngs → len e = _len_end d;
  built_overlap : _len_overlap d = Z.min (_len_start d) (_len_end d) - 1;
  built_len_start : 2 ≤ _len_start d;
  built_len_end : 2 ≤ _len_end d;
  built_start_dict : ∀ k x,
    x ∈ default ∅ (_start_overlap_dict d !! k) ↔
    x ∈ start_ngs ∧ slice_from x (- _len_overlap d) = k;
  built_end_dict : ∀ k x,
    x ∈ default ∅ (_end_overlap_dict d !! k) ↔
    x ∈ end_ngs ∧ slice_to x (_len_overlap d) = k
}.

Lemma init_built start_ngs end_ngs d :
  __init__ start_ngs end_ngs = Ok d → built start_ngs end_ngs d.
Proof.
  unfold __init__. destruct start_ngs as [|s0 ss]; [discriminate|].
  destruct end_ngs as [|e0 es]; [discriminate|].
  case_bool_decide as Hlen; [discriminate|].
  unfold _get_start_overlap_dict, _get_end_overlap_dict.
  destruct (_get_start_overlap_dict_from _ _ _ _) as [sd| |] eqn:Hsd;
    [|discriminate..].
  destruct (_get_end_overlap_dict_from _ _ _ _) as [ed| |] eqn:Hed;
    [|discriminate..].
  simpl. intros [= <-].
  apply start_overlap_dict_from_spec in Hsd as [Hsl Hsdict].
  apply end_overlap_dict_from_spec in Hed as [Hel Hedict].
  split; simpl; try done; try lia.
  - intros k x. rewrite Hsdict, lookup_empty. simpl. set_solver.
  - intros k x. rewrite Hedict, lookup_empty. simpl. set_solver.
Qed.

Lemma get_end_vertices_built S E d s :
  built S E d → len s = _len_start d →
  ∃ es, get_end_vertices d s = Ok es ∧
        ∀ e, e ∈ es ↔
             e ∈ E ∧ slice_to e (_len_overlap d)
                     = slice_from s (- _len_overlap d).
Proof.
  intros Hb Hs. unfold get_end_vertices.
  case_bool_decide; [done|]. eexists; split; [done|].
  intros e. apply (built_end_dict _ _ _ Hb).
Qed.

Lemma get_start_vertices_built S E d e :
  built S E d → len e = _len_end d →
  ∃ ss, get_start_vertices d e = Ok ss ∧
        ∀ s, s ∈ ss ↔
             s ∈ S ∧ slice_from s (- _len_overlap d)
                     = slice_to e (_len_overlap d).
Proof.
  intros Hb He. unfold get_start_vertices.
  case_bool_decide; [done|]. eexists; split; [done|].
  intros s. apply (built_start_dict _ _ _ Hb).
Qed.

End dedge_facts.

(** C5 (index symmetry): for an edge getter built from a start pool [S] and
    an end pool [E], and for every [s] in [S] and [e] in [E], both queries
    return a set, and [e] is in [get_end_vertices(s)] exactly when [s] is in
    [get_start_vertices(e)]. *)
Theorem dedge_symmetry (S E : list string) (d : dedge.DirectedEdgeGetter)
    (s e : string) :
  dedge.__init__ S E = Ok d → s ∈ S → e ∈ E →
  ∃ es ss, dedge.get_end_vertices d s = Ok es ∧
           dedge.get_start_vertices d e = Ok ss ∧
           (e ∈ es ↔ s ∈ ss).
Proof.
  intros Hb%init_built Hs He.
  destruct (get_end_vertices_built S E d s Hb) as (es & Hes & Hin_es).
  { by apply (built_start_len _ _ _ Hb). }
  destruct (get_start_vertices_built S E d e Hb) as (ss & Hss & Hin_ss).
  { by apply (built_end_len _ _ _ Hb). }
  exists es, ss. split; [done|]. split; [done|].
  rewrite Hin_es, Hin_ss. naive_solver.
Qed.

Lemma dedge_symmetry_witness :
  ∃ d es ss,
    dedge.__init__ ["abc"; "xbd"] ["bcd"; "bce"; "xcd"] = Ok d ∧
    dedge.get_end_vertices d "abc" = Ok es ∧
    dedge.get_start_vertices d "bcd" = Ok ss ∧
    ("bcd" ∈ es ↔ "abc" ∈ ss).
Proof.
  destruct (dedge.__init__ ["abc"; "xbd"] ["bcd"; "bce"; "xcd"])
    as [d| |] eqn:Hd; [|by vm_compute in Hd..].
  destruct (dedge_symmetry _ _ d "abc" "bcd" Hd) as (es & ss & H1 & H2 & H3).
  - set_solver.
  - set_solver.
  - by exists d, es, ss.
Defined.

(** ** Concatenation *)

(** The rule of the concatenation in the words of its description: after
    the first n-gram, every n-gram [v] contributes its characters from
    index [min(len(prev), len(v)) - 1] on. *)
Fixpoint overlap_tail (prev : string) (rest : list string) : string :=
  match rest with
  | [] => ""
  | v :: rest' =>
      slice_from v (Z.min (len prev) (len v) - 1) +:+ overlap_tail v rest'
  end.

Lemma string_app_assoc (a b c : string) : (a +:+ b) +:+ c = a +:+ (b +:+ c).
Proof.
  induction a as [|x a IH]; [done|].
  change (String x ((a +:+ b) +:+ c) = String x (a +:+ (b +:+ c))).
  by rewrite IH.
Qed.

Lemma string_app_empty_r (a : string) : a +:+ "" = a.
Proof.
  induction a as [|x a IH]; [done|].
  change (String x (a +:+ "") = String x a). by rewrite IH.
Qed.

Lemma concat_loop_spec (rest : list string) : ∀ pre prev res,
  create._concat_loop (pre ++ prev :: rest)%list
    (seq (S (length pre)) (length rest)) res
  = Ok (res +:+ overlap_tail prev rest).
Proof.
  induction rest as [|v rest IH]; intros pre prev res; simpl.
  - by rewrite string_app_empty_r.
  - unfold getitem.
    assert ((pre ++ prev :: v :: rest)%list !! (length pre - 0)%nat
            = Some prev) as ->.
    { rewrite Nat.sub_0_r. by apply list_lookup_middle. }
    assert ((pre ++ prev :: v :: rest)%list !! S (length pre) = Some v) as ->.
    { rewrite (lookup_app_r pre) by lia.
      by replace (S (length pre) - length pre)%nat with 1%nat by lia. }
    simpl.
    specialize (IH (pre ++ [prev])%list v).
    rewrite length_app, <- app_assoc in IH. simpl in IH.
    replace (length pre + 1)%nat with (S (length pre)) in IH by lia.
    rewrite IH. by rewrite string_app_assoc.
Qed.

(** C7: on a non-empty list the concatenation returns the first n-gram
    followed, for each later n-gram [v], by [v] from index
    [min(len(prev), len(v)) - 1] on; the three documented examples hold; and
    n-grams whose overlapping regions differ are concatenated all the same. *)
Theorem concat_ngram_list_rule :
  (∀ first rest,
     create._concat_ngram_list (first :: rest)
     = Ok (first +:+ overlap_tail first rest)) ∧
  create._concat_ngram_list ["ax"; "xx"; "x1"] = Ok "axx1" ∧
  create._concat_ngram_list ["abc"; "bcde"; "ef"] = Ok "abcdef" ∧
  create._concat_ngram_list ["ax"; "xzyzyzyx"; "x1"] = Ok "axzyzyzyx1" ∧
  create._concat_ngram_list ["ab"; "cd"] = Ok "abd".
Proof.
  split; [|by vm_compute].
  intros first rest. unfold create._concat_ngram_list. simpl.
  rewrite Nat.sub_0_r. apply (concat_loop_spec rest []).
Qed.

(** ** The result monad and [mapM] *)

Lemma bind_Ok {A B : Type} (r : result A) (f : A → result B) (b : B) :
  r ≫= f = Ok b ↔ ∃ a, r = Ok a ∧ f a = Ok b.
Proof.
  destruct r as [a| |]; simpl; split; try naive_solver.
Qed.

Lemma mapM_Ok {A B : Type} (f : A → result B) (l : list A) (ys : list B) :
  mapM f l = Ok ys → Forall2 (λ x y, f x = Ok y) l ys.
Proof.
  revert ys. induction l as [|x l IH]; intros ys; simpl.
  - intros [= <-]. constructor.
  - intros (y & Hy & (ys' & Hys & [= <-])%bind_Ok)%bind_Ok.
    constructor; auto.
Qed.

Lemma mapM_total {A B : Type} (f : A → result B) (l : list A) :
  (∀ x, x ∈ l → ∃ y, f x = Ok y) → ∃ ys, mapM f l = Ok ys.
Proof.
  induction l as [|x l IH]; intros Hall; simpl; [by eexists|].
  destruct (Hall x) as [y Hy]; [left|]. rewrite Hy. simpl.
  destruct IH as [ys Hys]; [intros; apply Hall; by right|].
  rewrite Hys. simpl. by eexists.
Qed.

(** ** Reachability through an edge getter *)

Section reach.
Context {V : Type} `{Countable V}.
Implicit Types (dg : graph.edge_getter V) (v w : V) (s : gset V).

(** [w] is listed among the end vertices of [v]. *)
Definition edge dg (v w : V) : Prop :=
  ∃ s, graph.get_end_vertices dg v = Ok s ∧ w ∈ s.

(** [v] is listed among the start vertices of [w]. *)
Definition redge dg (v w : V) : Prop :=
  ∃ s, graph.get_start_vertices dg w = Ok s ∧ v ∈ s.

(** The property the constructor's documentation requires of its edge
    getter, on the vertices [U] the search can meet: both queries answer
    there, with vertices of [U], and every edge is listed in both
    directions. *)
Record lawful dg (U : V → Prop) : Prop := {
  end_total : ∀ v, U v →
    ∃ s, graph.get_end_vertices dg v = Ok s ∧ ∀ w, w ∈ s → U w;
  start_total : ∀ w, U w →
    ∃ s, graph.get_start_vertices dg w = Ok s ∧ ∀ v, v ∈ s → U v;
  both_directions : ∀ v w, U v → U w → edge dg v w ↔ redge dg v w
}.

Lemma expand_spec (l : list V) (f : V → result (gset V)) (T : gset V) :
  graph._expand l f = Ok T →
  ∀ y, y ∈ T ↔ ∃ x s, x ∈ l ∧ f x = Ok s ∧ y ∈ s.
Proof.
  unfold graph._expand. intros (sets & Hsets%mapM_Ok & [= <-])%bind_Ok y.
  rewrite elem_of_union_list. split.
  - intros (s & Hs & Hy).
    apply list_elem_of_lookup in Hs as [i Hi].
    destruct (Forall2_lookup_r _ _ _ _ _ Hsets Hi) as (x & Hx & Hfx).
    exists x, s. split_and!; [|done..]. by eapply list_elem_of_lookup_2.
  - intros (x & s & Hx & Hfx & Hy).
    apply list_elem_of_lookup in Hx as [i Hi].
    destruct (Forall2_lookup_l _ _ _ _ _ Hsets Hi) as (s' & Hs' & Hfx').
    exists s'. split; [by eapply list_elem_of_lookup_2|]. congruence.
Qed.

Lemma expand_total (l : list V) (f : V → result (gset V)) :
  (∀ x, x ∈ l → ∃ s, f x = Ok s) → ∃ T, graph._expand l f = Ok T.
Proof.
  intros [sets Hsets]%mapM_total. unfold graph._expand. rewrite Hsets.
  by eexists.
Qed.

Lemma expand_update_spec (the_set : gset V) (l : list V)
    (f : V → result (gset V)) (T : gset V) :
  graph.expand_update the_set l f = Ok T →
  ∀ y, y ∈ T ↔ y ∈ the_set ∧ ∃ x s, x ∈ l ∧ f x = Ok s ∧ y ∈ s.
Proof.
  unfold graph.expand_update. intros (e & He & [= <-])%bind_Ok y.
  rewrite elem_of_intersection. by rewrite (expand_spec _ _ _ He).
Qed.

Lemma expand_update_total (the_set : gset V) (l : list V)
    (f : V → result (gset V)) :
  (∀ x, x ∈ l → ∃ s, f x = Ok s) →
  ∃ T, graph.expand_update the_set l f = Ok T.
Proof.
  intros [e He]%expand_total. unfold graph.expand_update. rewrite He.
  by eexists.
Qed.

End reach.

Lemma reverse_seq_S (m : nat) :
  reverse (seq 1 (S m)) = S m :: reverse (seq 1 m).
Proof. by rewrite seq_S, reverse_app. Qed.

(** ** The step sets built by [_build_step_sets] *)

Section step_sets.
Context {V : Type} `{Countable V}.
Variable dg : graph.edge_getter V.
Variable U : V → Prop.
Variables start_vertices end_vertices : gset V.
Variable n : nat.
Hypothesis Hlawful : lawful dg U.
Hypothesis Hstart : ∀ v, v ∈ start_vertices → U v.
Hypothesis Hend : ∀ v, v ∈ end_vertices → U v.
Hypothesis Hn : (2 ≤ n)%nat.

(** [fwd i v]: [v] is reached from a start vertex in [i] steps. *)
Inductive fwd : nat → V → Prop :=
| fwd_start v : v ∈ start_vertices → fwd 0 v
| fwd_step i u v : fwd i u → edge dg u v → fwd (S i) v.

(** [bwd k v]: an end vertex is reached from [v] in [k] steps. *)
Inductive bwd : nat → V → Prop :=
| bwd_end v : v ∈ end_vertices → bwd 0 v
| bwd_step k v w : redge dg v w → bwd k w → bwd (S k) v.

(** The vertices that can stand at position [i] of a path. *)
Definition on_path (i : nat) (v : V) : Prop :=
  (i < n)%nat ∧ fwd i v ∧ bwd (n - 1 - i) v.

Lemma fwd_U i v : fwd i v → U v.
Proof.
  induction 1 as [v Hv|i u v _ IH (s & Hs & Hv)]; [by apply Hstart|].
  destruct (end_total _ _ Hlawful u IH) as (s' & Hs' & Hall).
  apply Hall. congruence.
Qed.

Lemma bwd_U k v : bwd k v → U v.
Proof.
  induction 1 as [v Hv|k v w (s & Hs & Hv) _ IH]; [by apply Hend|].
  destruct (start_total _ _ Hlawful w IH) as (s' & Hs' & Hall).
  apply Hall. congruence.
Qed.

Lemma on_path_U i v : on_path i v → U v.
Proof. intros (_ & Hf & _). by eapply fwd_U. Qed.

Lemma on_path_step_back i u v :
  fwd i u → edge dg u v → on_path (S i) v → on_path i u.
Proof.
  intros Hu Huv (Hi & Hfv & Hbv). split_and!; [lia|done|].
  replace (n - 1 - i)%nat with (S (n - 1 - S i)) by lia.
  apply bwd_step with v; [|done].
  apply (both_directions _ _ Hlawful); eauto using fwd_U.
Qed.

Lemma on_path_step_on i v w :
  (S i < n)%nat → redge dg v w → bwd (n - 1 - S i) w → on_path i v →
  on_path (S i) w.
Proof.
  intros Hi Hvw Hbw (_ & Hfv & Hbv). split_and!; [done| |done].
  apply fwd_step with v; [done|].
  apply (both_directions _ _ Hlawful); eauto using fwd_U, bwd_U.
Qed.

Lemma on_path_pred i v :
  on_path (S i) v → ∃ u, on_path i u ∧ edge dg u v ∧ redge dg u v.
Proof.
  intros Hv. pose proof Hv as (Hi & Hf & Hb).
  inversion Hf as [|i' u v' Hu Huv]; subst.
  exists u. split_and!; [by eapply on_path_step_back|done|].
  apply (both_directions _ _ Hlawful); eauto using fwd_U.
Qed.

Lemma on_path_succ i v :
  (S i < n)%nat → on_path i v →
  ∃ w, on_path (S i) w ∧ edge dg v w ∧ redge dg v w.
Proof.
  intros Hi Hv. pose proof Hv as (_ & Hf & Hb).
  replace (n - 1 - i)%nat with (S (n - 1 - S i)) in Hb by lia.
  inversion Hb as [|k v' w Hvw Hw]; subst.
  exists w. split_and!; [by eapply on_path_step_on| |done].
  apply (both_directions _ _ Hlawful); eauto using fwd_U, bwd_U.
Qed.

(** The loop invariant of [_build_step_sets]: steps up to [E] have been
    filled or filtered from the start side, steps from [L] on from the end
    side. *)
Record inv (E L : nat) (steps : list (gset V)) : Prop := {
  inv_length : length steps = n;
  inv_complete : ∀ i s v,
    steps !! i = Some s → (i ≤ E ∨ L ≤ i)%nat → on_path i v → v ∈ s;
  inv_fwd : ∀ i s v, steps !! i = Some s → (i ≤ E)%nat → v ∈ s → fwd i v;
  inv_bwd : ∀ i s v,
    steps !! i = Some s → (L ≤ i)%nat → v ∈ s → bwd (n - 1 - i) v
}.

Lemma inv_end_total E L steps i s :
  inv E L steps → steps !! i = Some s → (i ≤ E)%nat →
  ∀ x, x ∈ elements s → ∃ t, graph.get_end_vertices dg x = Ok t.
Proof.
  intros Hinv Hs Hi x Hx%elem_of_elements.
  destruct (end_total _ _ Hlawful x) as (t & Ht & _); [|by eexists].
  eapply fwd_U, inv_fwd; eauto.
Qed.

Lemma inv_start_total E L steps i s :
  inv E L steps → steps !! i = Some s → (L ≤ i)%nat →
  ∀ x, x ∈ elements s → ∃ t, graph.get_start_vertices dg x = Ok t.
Proof.
  intros Hinv Hs Hi x Hx%elem_of_elements.
  destruct (start_total _ _ Hlawful x) as (t & Ht & _); [|by eexists].
  eapply bwd_U, inv_bwd; eauto.
Qed.

Lemma inv_expand_fwd E L steps sE T :
  inv E L steps → (S E < L)%nat → (L < n)%nat → steps !! E = Some sE →
  graph._expand (elements sE) (graph.get_end_vertices dg) = Ok T →
  inv (S E) L (<[S E := T]> steps).
Proof.
  intros Hinv HEL HL HsE HT. pose proof (expand_spec _ _ _ HT) as HTspec.
  pose proof (inv_length _ _ _ Hinv) as Hlen.
  split.
  - by rewrite length_insert.
  - intros i s v Hi Hfilled Hv. destruct (decide (i = S E)) as [->|Hne].
    + rewrite list_lookup_insert_eq in Hi by lia. injection Hi as <-.
      apply HTspec.
      destruct (on_path_pred _ _ Hv) as (u & Hu & (t & Ht & Hvt) & _).
      exists u, t. split_and!; [|done..]. apply elem_of_elements.
      eapply (inv_complete _ _ _ Hinv); eauto.
    + rewrite list_lookup_insert_ne in Hi by done.
      eapply (inv_complete _ _ _ Hinv); eauto. lia.
  - intros i s v Hi HiE Hv. destruct (decide (i = S E)) as [->|Hne].
    + rewrite list_lookup_insert_eq in Hi by lia. injection Hi as <-.
      apply HTspec in Hv as (x & t & Hx%elem_of_elements & Ht & Hvt).
      apply fwd_step with x; [|by exists t].
      eapply (inv_fwd _ _ _ Hinv); eauto.
    + rewrite list_lookup_insert_ne in Hi by done.
      eapply (inv_fwd _ _ _ Hinv); eauto. lia.
  - intros i s v Hi HiL Hv.
    rewrite list_lookup_insert_ne in Hi by lia.
    eapply (inv_bwd _ _ _ Hinv); eauto.
Qed.

Lemma inv_expand_bwd E L steps sL T :
  inv E L steps → (S E < L)%nat → (L < n)%nat → steps !! L = Some sL →
  graph._expand (elements sL) (graph.get_start_vertices dg) = Ok T →
  inv E (L - 1) (<[(L - 1)%nat := T]> steps).
Proof.
  intros Hinv HEL HL HsL HT. pose proof (expand_spec _ _ _ HT) as HTspec.
  pose proof (inv_length _ _ _ Hinv) as Hlen.
  split.
  - by rewrite length_insert.
  - intros i s v Hi Hfilled Hv.
    destruct (decide (i = (L - 1)%nat)) as [->|Hne].
    + rewrite list_lookup_insert_eq in Hi by lia. injection Hi as <-.
      apply HTspec.
      destruct (on_path_succ (L - 1) v) as (w & Hw & _ & (t & Ht & Hvt));
        [lia|done|].
      replace (S (L - 1)) with L in Hw by lia.
      exists w, t. split_and!; [|done..]. apply elem_of_elements.
      eapply (inv_complete _ _ _ Hinv); eauto.
    + rewrite list_lookup_insert_ne in Hi by done.
      eapply (inv_complete _ _ _ Hinv); eauto. lia.
  - intros i s v Hi HiE Hv.
    rewrite list_lookup_insert_ne in Hi by lia.
    eapply (inv_fwd _ _ _ Hinv); eauto.
  - intros i s v Hi HiL Hv.
    destruct (decide (i = (L - 1)%nat)) as [->|Hne].
    + rewrite list_lookup_insert_eq in Hi by lia. injection Hi as <-.
      apply HTspec in Hv as (x & t & Hx%elem_of_elements & Ht & Hvt).
      replace (n - 1 - (L - 1))%nat with (S (n - 1 - L)) by lia.
      apply bwd_step with x; [by exists t|].
      eapply (inv_bwd _ _ _ Hinv); eauto.
    + rewrite list_lookup_insert_ne in Hi by done.
      eapply (inv_bwd _ _ _ Hinv); eauto. lia.
Qed.

(** What [_build_step_sets] knows when it sets [_is_disconnected]: some
    position of a path cannot be filled. *)
Definition no_path : Prop := ∃ i, (i < n)%nat ∧ ∀ v, ¬ on_path i v.

Lemma empty_step_no_path E L steps i (T : gset V) :
  inv E L (<[i := T]> steps) → (i < n)%nat → (i ≤ E ∨ L ≤ i)%nat →
  size T = 0%nat → no_path.
Proof.
  intros Hinv Hi Hfilled HT%size_empty_inv. exists i. split; [done|].
  intros v Hv. pose proof (inv_length _ _ _ Hinv) as Hlen.
  rewrite length_insert in Hlen.
  assert (v ∈ T) as HvT; [|set_solver].
  eapply (inv_complete _ _ _ Hinv); [|done..].
  apply list_lookup_insert_eq. lia.
Qed.

Lemma build_intermediate_spec fuel : ∀ steps E L,
  inv E L steps → (E < L)%nat → (L < n)%nat → (L - E ≤ fuel)%nat →
  ∃ steps' E' L' flag,
    graph._build_intermediate fuel dg steps E L = Ok (steps', E', L', flag) ∧
    if flag : bool then no_path
    else inv E' L' steps' ∧ L' = S E' ∧ (L' < n)%nat.
Proof.
  induction fuel as [|fuel IH]; intros steps E L Hinv HEL HL Hfuel; [lia|].
  pose proof (inv_length _ _ _ Hinv) as Hlen. simpl.
  case_bool_decide as Hloop.
  - destruct (lookup_lt_is_Some_2 steps E) as [sE HsE]; [lia|].
    destruct (lookup_lt_is_Some_2 steps L) as [sL HsL]; [lia|].
    unfold getitem. rewrite HsE, HsL. simpl.
    rewrite Nat.add_1_r. case_bool_decide as Hsmaller.
    + destruct (expand_total (elements sE) (graph.get_end_vertices dg))
        as [T HT]; [by eapply inv_end_total|].
      rewrite HT. simpl.
      pose proof (inv_expand_fwd _ _ _ _ _ Hinv ltac:(lia) HL HsE HT) as Hinv'.
      case_bool_decide as Hempty.
      * eexists _, _, _, true. split; [done|].
        eapply empty_step_no_path; [done|lia|lia|done].
      * apply IH; [done|lia..].
    + destruct (expand_total (elements sL) (graph.get_start_vertices dg))
        as [T HT]; [by eapply inv_start_total|].
      rewrite HT. simpl.
      pose proof (inv_expand_bwd _ _ _ _ _ Hinv ltac:(lia) HL HsL HT) as Hinv'.
      case_bool_decide as Hempty.
      * eexists _, _, _, true. split; [done|].
        eapply empty_step_no_path; [done|lia|lia|done].
      * apply IH; [done|lia..].
  - eexists _, _, _, false. split; [done|]. split; [done|]. lia.
Qed.

Lemma inv_filter_later j L steps the_set other T :
  inv j L steps → (L ≤ S j)%nat → (S j < n)%nat →
  steps !! S j = Some the_set → steps !! j = Some other →
  graph.expand_update the_set (elements other) (graph.get_end_vertices dg)
  = Ok T →
  inv (S j) L (<[S j := T]> steps).
Proof.
  intros Hinv HL Hj Hthe Hother HT.
  pose proof (expand_update_spec _ _ _ _ HT) as HTspec.
  pose proof (inv_length _ _ _ Hinv) as Hlen.
  split.
  - by rewrite length_insert.
  - intros i s v Hi Hfilled Hv. destruct (decide (i = S j)) as [->|Hne].
    + rewrite list_lookup_insert_eq in Hi by lia. injection Hi as <-.
      apply HTspec. split.
      { eapply (inv_complete _ _ _ Hinv); eauto. }
      destruct (on_path_pred _ _ Hv) as (u & Hu & (t & Ht & Hvt) & _).
      exists u, t. split_and!; [|done..]. apply elem_of_elements.
      eapply (inv_complete _ _ _ Hinv); eauto.
    + rewrite list_lookup_insert_ne in Hi by done.
      eapply (inv_complete _ _ _ Hinv); eauto. lia.
  - intros i s v Hi HiE Hv. destruct (decide (i = S j)) as [->|Hne].
    + rewrite list_lookup_insert_eq in Hi by lia. injection Hi as <-.
      apply HTspec in Hv as (_ & x & t & Hx%elem_of_elements & Ht & Hvt).
      apply fwd_step with x; [|by exists t].
      eapply (inv_fwd _ _ _ Hinv); eauto.
    + rewrite list_lookup_insert_ne in Hi by done.
      eapply (inv_fwd _ _ _ Hinv); eauto. lia.
  - intros i s v Hi HiL Hv. destruct (decide (i = S j)) as [->|Hne].
    + rewrite list_lookup_insert_eq in Hi by lia. injection Hi as <-.
      apply HTspec in Hv as (Hv & _).
      eapply (inv_bwd _ _ _ Hinv); eauto.
    + rewrite list_lookup_insert_ne in Hi by done.
      eapply (inv_bwd _ _ _ Hinv); eauto.
Qed.

Lemma inv_filter_early E m steps the_set other T :
  inv E (S m) steps → (S m ≤ E)%nat → (S m < n)%nat →
  steps !! m = Some the_set → steps !! S m = Some other →
  graph.expand_update the_set (elements other) (graph.get_start_vertices dg)
  = Ok T →
  inv E m (<[m := T]> steps).
Proof.
  intros Hinv HE Hm Hthe Hother HT.
  pose proof (expand_update_spec _ _ _ _ HT) as HTspec.
  pose proof (inv_length _ _ _ Hinv) as Hlen.
  split.
  - by rewrite length_insert.
  - intros i s v Hi Hfilled Hv. destruct (decide (i = m)) as [->|Hne].
    + rewrite list_lookup_insert_eq in Hi by lia. injection Hi as <-.
      apply HTspec. split.
      { eapply (inv_complete _ _ _ Hinv); eauto. lia. }
      destruct (on_path_succ m v) as (w & Hw & _ & (t & Ht & Hvt));
        [lia|done|].
      exists w, t. split_and!; [|done..]. apply elem_of_elements.
      eapply (inv_complete _ _ _ Hinv); eauto.
    + rewrite list_lookup_insert_ne in Hi by done.
      eapply (inv_complete _ _ _ Hinv); eauto. lia.
  - intros i s v Hi HiE Hv. destruct (decide (i = m)) as [->|Hne].
    + rewrite list_lookup_insert_eq in Hi by lia. injection Hi as <-.
      apply HTspec in Hv as (Hv & _).
      eapply (inv_fwd _ _ _ Hinv); eauto.
    + rewrite list_lookup_insert_ne in Hi by done.
      eapply (inv_fwd _ _ _ Hinv); eauto.
  - intros i s v Hi HiL Hv. destruct (decide (i = m)) as [->|Hne].
    + rewrite list_lookup_insert_eq in Hi by lia. injection Hi as <-.
      apply HTspec in Hv as (_ & x & t & Hx%elem_of_elements & Ht & Hvt).
      replace (n - 1 - m)%nat with (S (n - 1 - S m)) by lia.
      apply bwd_step with x; [by exists t|].
      eapply (inv_bwd _ _ _ Hinv); eauto.
    + rewrite list_lookup_insert_ne in Hi by done.
      eapply (inv_bwd _ _ _ Hinv); eauto. lia.
Qed.

Lemma filter_later_spec m : ∀ j L steps,
  inv j L steps → (L ≤ S j)%nat → (j + m = n - 1)%nat →
  ∃ steps' flag,
    graph._filter_later dg (seq j m) steps = Ok (steps', flag) ∧
    if flag : bool then no_path else inv (n - 1) L steps'.
Proof.
  induction m as [|m IH]; intros j L steps Hinv HL Hjm; simpl.
  - eexists _, false. split; [done|]. by replace (n - 1)%nat with j by lia.
  - pose proof (inv_length _ _ _ Hinv) as Hlen.
    destruct (lookup_lt_is_Some_2 steps (S j)) as [the_set Hthe]; [lia|].
    destruct (lookup_lt_is_Some_2 steps j) as [other Hother]; [lia|].
    unfold getitem. rewrite Nat.add_1_r, Hthe, Hother. simpl.
    destruct (expand_update_total the_set (elements other)
                (graph.get_end_vertices dg)) as [T HT];
      [by eapply inv_end_total|].
    rewrite HT. simpl.
    pose proof (inv_filter_later _ _ _ _ _ _ Hinv HL ltac:(lia)
                  Hthe Hother HT) as Hinv'.
    case_bool_decide as Hempty.
    + eexists _, true. split; [done|].
      eapply empty_step_no_path; [done|lia|lia|done].
    + apply IH; [done|lia..].
Qed.

Lemma filter_early_spec m : ∀ steps,
  inv (n - 1) m steps → (m < n)%nat →
  ∃ steps' flag,
    graph._filter_early dg (reverse (seq 1 m)) steps = Ok (steps', flag) ∧
    if flag : bool then no_path
    else inv (n - 1) 0 steps' ∧
         ((0 < m)%nat → ∃ s, steps' !! 0%nat = Some s ∧ s ≠ ∅).
Proof.
  induction m as [|m IH]; intros steps Hinv Hm.
  - eexists _, false. split; [done|]. split; [done|lia].
  - rewrite reverse_seq_S. simpl.
    pose proof (inv_length _ _ _ Hinv) as Hlen.
    destruct (lookup_lt_is_Some_2 steps m) as [the_set Hthe]; [lia|].
    destruct (lookup_lt_is_Some_2 steps (S m)) as [other Hother]; [lia|].
    unfold getitem. rewrite Nat.sub_0_r, Hthe, Hother. simpl.
    destruct (expand_update_total the_set (elements other)
                (graph.get_start_vertices dg)) as [T HT];
      [by eapply inv_start_total|].
    rewrite HT. simpl.
    pose proof (inv_filter_early _ _ _ _ _ _ Hinv ltac:(lia) Hm
                  Hthe Hother HT) as Hinv'.
    case_bool_decide as Hempty.
    + eexists _, true. split; [done|].
      eapply empty_step_no_path; [done|lia|lia|done].
    + destruct (IH _ Hinv' ltac:(lia)) as (steps' & flag & Hrun & Hpost).
      exists steps', flag. split; [done|].
      destruct flag; [done|]. destruct Hpost as [Hfinal Hne].
      split; [done|]. intros _.
      destruct m as [|m]; [|apply Hne; lia].
      simpl in Hrun. injection Hrun as <-.
      exists T. split; [apply list_lookup_insert_eq; lia|].
      intros ->. by rewrite size_empty in Hempty.
Qed.

Lemma inv_initial :
  inv 0 (n - 1)
    (<[(n - 1)%nat := end_vertices]>
       (<[0%nat := start_vertices]> (replicate n (∅ : gset V)))).
Proof.
  split.
  - by rewrite !length_insert, length_replicate.
  - intros i s v Hi [Hi0|Hin] (Hlt & Hf & Hb).
    + assert (i = 0%nat) as -> by lia.
      rewrite list_lookup_insert_ne in Hi by lia.
      rewrite list_lookup_insert_eq in Hi by (rewrite length_replicate; lia).
      injection Hi as <-. by inversion Hf.
    + assert (i = (n - 1)%nat) as -> by lia.
      rewrite list_lookup_insert_eq in Hi
        by (rewrite length_insert, length_replicate; lia).
      injection Hi as <-. rewrite Nat.sub_diag in Hb. by inversion Hb.
  - intros i s v Hi Hi0 Hv. assert (i = 0%nat) as -> by lia.
    rewrite list_lookup_insert_ne in Hi by lia.
    rewrite list_lookup_insert_eq in Hi by (rewrite length_replicate; lia).
    injection Hi as <-. by constructor.
  - intros i s v Hi Hin Hv.
    pose proof (lookup_lt_Some _ _ _ Hi) as Hlt.
    rewrite !length_insert, length_replicate in Hlt.
    assert (i = (n - 1)%nat) as -> by lia.
    rewrite list_lookup_insert_eq in Hi
      by (rewrite length_insert, length_replicate; lia).
    injection Hi as <-. rewrite Nat.sub_diag. by constructor.
Qed.

(** [_build_step_sets] returns; when it reports a connected graph, step
    [i] holds exactly the vertices that can stand at position [i] of a path,
    and step 0 is not empty. *)
Lemma build_step_sets_spec :
  ∃ steps flag,
    graph._build_step_sets start_vertices end_vertices n dg
    = Ok (steps, flag) ∧
    if flag : bool then no_path
    else length steps = n ∧
         (∀ i s, steps !! i = Some s → ∀ v, v ∈ s ↔ on_path i v) ∧
         (∃ s, steps !! 0%nat = Some s ∧ s ≠ ∅).
Proof.
  unfold graph._build_step_sets.
  destruct (build_intermediate_spec n _ 0 (n - 1) inv_initial)
    as (steps1 & E & L & flag1 & Hrun1 & Hpost1); [lia..|].
  rewrite Hrun1. simpl. destruct flag1; [by eexists _, true|].
  destruct Hpost1 as (Hinv1 & -> & HL).
  destruct (filter_later_spec (n - 1 - E) E (S E) steps1 Hinv1)
    as (steps2 & flag2 & Hrun2 & Hpost2); [lia..|].
  rewrite Hrun2. simpl. destruct flag2; [by eexists _, true|].
  destruct (filter_early_spec (S E) steps2 Hpost2 HL)
    as (steps3 & flag3 & Hrun3 & Hpost3).
  exists steps3, flag3. split; [done|]. destruct flag3; [done|].
  destruct Hpost3 as [Hinv3 Hne]. split_and!.
  - by eapply inv_length.
  - intros i s Hi v. split.
    + intros Hv. split_and!.
      * apply lookup_lt_Some in Hi.
        by rewrite (inv_length _ _ _ Hinv3) in Hi.
      * eapply (inv_fwd _ _ _ Hinv3); eauto.
        apply lookup_lt_Some in Hi.
        rewrite (inv_length _ _ _ Hinv3) in Hi. lia.
      * eapply (inv_bwd _ _ _ Hinv3); eauto. lia.
    + intros Hv. eapply (inv_complete _ _ _ Hinv3); eauto. lia.
  - apply Hne. lia.
Qed.

(** *** Paths *)

(** Every consecutive pair of [p] is connected: the later vertex is listed
    among the end vertices of the earlier one. *)
Fixpoint linked (p : list V) : Prop :=
  match p with
  | [] => True
  | v :: rest =>
      match rest with
      | [] => True
      | w :: _ => edge dg v w ∧ linked rest
      end
  end.

(** A valid path: [n] vertices, from a start vertex to an end vertex, every
    consecutive pair connected. *)
Definition valid_path (p : list V) : Prop :=
  length p = n ∧
  (∃ v, head p = Some v ∧ v ∈ start_vertices) ∧
  (∃ v, last p = Some v ∧ v ∈ end_vertices) ∧
  linked p.

Lemma linked_cons v w r : linked (v :: w :: r) ↔ edge dg v w ∧ linked (w :: r).
Proof. done. Qed.

Lemma linked_app q v r :
  linked (q ++ [v]) → linked (v :: r) → linked (q ++ v :: r).
Proof.
  induction q as [|a q IH]; [done|]. intros Hq Hr.
  destruct q as [|b q]; simpl in *.
  - destruct Hq as [Hav _]. by destruct r.
  - destruct Hq as [Hab Hq]. split; [done|]. by apply IH.
Qed.

Lemma linked_lookup p : ∀ i v w,
  linked p → p !! i = Some v → p !! S i = Some w → edge dg v w.
Proof.
  induction p as [|a p IH]; intros i v w Hp Hv Hw; [done|].
  destruct p as [|b p]; [done|]. destruct Hp as [Hab Hp].
  destruct i as [|i]; simpl in *; [congruence|]. by eapply IH.
Qed.

Lemma linked_fwd p : ∀ j v0,
  linked p → head p = Some v0 → fwd j v0 →
  ∀ i v, p !! i = Some v → fwd (j + i) v.
Proof.
  induction p as [|a p IH]; intros j v0 Hp Hhead Hv0 i v Hi; [done|].
  simpl in Hhead. injection Hhead as ->.
  destruct i as [|i]; simpl in Hi.
  - injection Hi as <-. by rewrite Nat.add_0_r.
  - destruct p as [|b p]; [done|]. destruct Hp as [Hab Hp].
    replace (j + S i)%nat with (S j + i)%nat by lia.
    eapply (IH (S j) b); eauto. by eapply fwd_step.
Qed.

Lemma linked_bwd p : ∀ e,
  linked p → (∀ v, v ∈ p → U v) → last p = Some e → e ∈ end_vertices →
  ∀ i v, p !! i = Some v → bwd (length p - 1 - i) v.
Proof.
  induction p as [|a p IH]; intros e Hp HU Hlast He i v Hi; [done|].
  destruct p as [|b p].
  - destruct i; [|done]. simpl in *. injection Hi as <-.
    injection Hlast as <-. by constructor.
  - destruct Hp as [Hab Hp]. rewrite last_cons_cons in Hlast.
    assert (∀ v, v ∈ b :: p → U v) as HU' by (intros; apply HU; by right).
    destruct i as [|i].
    + simpl in Hi. injection Hi as ->.
      replace (length (v :: b :: p) - 1 - 0)%nat
        with (S (length (b :: p) - 1 - 0)) by (simpl; lia).
      apply bwd_step with b.
      * apply (both_directions _ _ Hlawful); [apply HU; by left| |done].
        apply HU'. by left.
      * by eapply (IH e).
    + replace (length (a :: b :: p) - 1 - S i)%nat
        with (length (b :: p) - 1 - i)%nat by (simpl; lia).
      by eapply (IH e).
Qed.

Lemma linked_U p v0 :
  linked p → head p = Some v0 → v0 ∈ start_vertices → ∀ v, v ∈ p → U v.
Proof.
  intros Hp Hhead Hv0 v [i Hi]%list_elem_of_lookup.
  eapply fwd_U. eapply (linked_fwd p 0 v0); eauto. by constructor.
Qed.

Lemma valid_path_on_path p i v :
  valid_path p → p !! i = Some v → on_path i v.
Proof.
  intros (Hlen & (v0 & Hhead & Hv0) & (e & Hlast & He) & Hp) Hi.
  split_and!.
  - apply lookup_lt_Some in Hi. lia.
  - eapply (linked_fwd p 0 v0); eauto. by constructor.
  - rewrite <- Hlen. eapply linked_bwd; eauto. by eapply linked_U.
Qed.

Lemma fwd_prefix i v :
  fwd i v →
  ∃ q, length q = i ∧ linked (q ++ [v]) ∧
       ∃ a, head (q ++ [v]) = Some a ∧ a ∈ start_vertices.
Proof.
  induction 1 as [v Hv|i u v _ (q & Hlen & Hq & a & Ha & Hstart') Huv].
  - exists []. split_and!; [done..|]. by exists v.
  - exists (q ++ [u]). split_and!.
    + rewrite length_app. simpl. lia.
    + rewrite <- app_assoc. by apply linked_app.
    + exists a. split; [|done]. rewrite <- app_assoc.
      destruct q; simpl in *; done.
Qed.

Lemma bwd_suffix k v :
  bwd k v →
  ∃ r, length r = k ∧ linked (v :: r) ∧
       ∃ e, last (v :: r) = Some e ∧ e ∈ end_vertices.
Proof.
  induction 1 as [v Hv|k v w Hvw Hw (r & Hlen & Hr & e & He & Hend')].
  - exists []. split_and!; [done..|]. by exists v.
  - exists (w :: r). split_and!.
    + simpl. lia.
    + split; [|done].
      apply (both_directions _ _ Hlawful); [|by eapply bwd_U|done].
      eapply bwd_U. by eapply bwd_step.
    + exists e. by rewrite last_cons_cons.
Qed.

Lemma on_path_valid_path i v :
  on_path i v → ∃ p, valid_path p ∧ p !! i = Some v.
Proof.
  intros (Hi & (q & Hq & Hlq & a & Ha & Hstart')%fwd_prefix
             & (r & Hr & Hlr & e & He & Hend')%bwd_suffix).
  exists (q ++ v :: r). split; [split_and!|].
  - rewrite length_app. simpl. lia.
  - exists a. split; [|done]. destruct q; simpl in *; done.
  - exists e. split; [|done]. by rewrite last_app_cons.
  - by apply linked_app.
  - subst i. by apply list_lookup_middle.
Qed.

End step_sets.

Lemma NoDup_reverse {A : Type} (l : list A) : NoDup l → NoDup (reverse l).
Proof. by rewrite reverse_Permutation. Qed.

(** The values [ys], then the trace [t]. *)
Definition prepend {A : Type} (ys : list A) (t : trace A) : trace A :=
  ((ys ++ t.1)%list, t.2).

Lemma prepend_nil {A : Type} (t : trace A) : prepend [] t = t.
Proof. by destruct t. Qed.

Lemma prepend_app {A : Type} (ys zs : list A) (t : trace A) :
  prepend ys (prepend zs t) = prepend (ys ++ zs) t.
Proof. unfold prepend. simpl. by rewrite app_assoc. Qed.

Lemma yield_first_prepend {A : Type} (x : A) (t : trace A) :
  yield_first x t = prepend [x] t.
Proof. done. Qed.

(** ** The depth first search of [_get_all_paths_generator] *)

Section search.
Context {V : Type} `{Countable V}.
Variable g : graph.GraphPathFinder V.

(** The step set at position [i]. *)
Definition step_set (i : nat) : gset V :=
  default ∅ (graph._step_sets g !! i).

(** The end vertices of [v], where the edge getter answers. *)
Definition ends_of (v : V) : gset V :=
  match graph.get_end_vertices (graph._dedge g) v with
  | Ok s => s
  | _ => ∅
  end.

(** The order in which a step of the search visits its candidates: [pop]
    takes them from the end. *)
Definition candidates (i : nat) (v : V) : list V :=
  reverse (elements (ends_of v ∩ step_set (S i))).

(** The paths of [k] further vertices from [v] at position [i], in the
    order of the search. *)
Fixpoint suffixes (k i : nat) (v : V) : list (list V) :=
  match k with
  | O => [[v]]
  | S k' => (v ::.) <$> (candidates i v ≫= suffixes k' (S i))
  end.

(** [chain i v r]: [r] continues a path from [v] at position [i] through
    the step sets. *)
Fixpoint chain (i : nat) (v : V) (r : list V) : Prop :=
  match r with
  | [] => True
  | w :: r' => w ∈ ends_of v ∧ w ∈ step_set (S i) ∧ chain (S i) w r'
  end.

Lemma elem_of_candidates i v w :
  w ∈ candidates i v ↔ w ∈ ends_of v ∧ w ∈ step_set (S i).
Proof.
  unfold candidates. rewrite elem_of_reverse, elem_of_elements. set_solver.
Qed.

Lemma NoDup_candidates i v : NoDup (candidates i v).
Proof. apply NoDup_reverse, NoDup_elements. Qed.

Lemma elem_of_suffixes k : ∀ i v p,
  p ∈ suffixes k i v ↔ ∃ r, p = v :: r ∧ length r = k ∧ chain i v r.
Proof.
  induction k as [|k IH]; intros i v p; simpl.
  - rewrite list_elem_of_singleton. split.
    + intros ->. by exists [].
    + intros (r & -> & Hr & _). by destruct r.
  - rewrite list_elem_of_fmap. split.
    + intros (q & -> & (w & Hq & Hw)%list_elem_of_bind).
      apply IH in Hq as (r & -> & Hr & Hchain).
      apply elem_of_candidates in Hw as [Hw1 Hw2].
      exists (w :: r). simpl. split_and!; auto.
    + intros (r & -> & Hr & Hchain). destruct r as [|w r]; [done|].
      destruct Hchain as (Hw1 & Hw2 & Hchain).
      exists (w :: r). split; [done|]. apply list_elem_of_bind.
      exists w. split; [|by apply elem_of_candidates].
      apply IH. exists r. split_and!; auto.
Qed.

Lemma NoDup_suffixes k : ∀ i v, NoDup (suffixes k i v).
Proof.
  induction k as [|k IH]; intros i v; simpl.
  - apply NoDup_singleton.
  - apply (NoDup_fmap_2 _). apply NoDup_bind.
    + intros w1 w2 q _ _ (r1 & -> & _)%elem_of_suffixes
                          (r2 & [= -> _] & _)%elem_of_suffixes. done.
    + intros w _. apply IH.
    + apply NoDup_candidates.
Qed.

(** All the paths of [k] further vertices from the candidates [c] at
    position [i], in the order the search yields them. *)
Definition searched (k i : nat) (c : list V) : list (list V) :=
  reverse c ≫= suffixes k i.

Lemma elem_of_searched k i c p :
  p ∈ searched k i c ↔
  ∃ v r, p = v :: r ∧ v ∈ c ∧ length r = k ∧ chain i v r.
Proof.
  unfold searched. rewrite list_elem_of_bind. split.
  - intros (v & (r & -> & Hr & Hchain)%elem_of_suffixes & Hv).
    rewrite elem_of_reverse in Hv. by exists v, r.
  - intros (v & r & -> & Hv & Hr & Hchain). exists v.
    split; [|by apply elem_of_reverse]. apply elem_of_suffixes. by exists r.
Qed.

Lemma NoDup_searched k i c : NoDup c → NoDup (searched k i c).
Proof.
  intros Hc. apply NoDup_bind.
  - intros w1 w2 q _ _ (r1 & -> & _)%elem_of_suffixes
                        (r2 & [= -> _] & _)%elem_of_suffixes. done.
  - intros w _. apply NoDup_suffixes.
  - by apply NoDup_reverse.
Qed.

Lemma pop_snoc (c : list V) (v : V) : graph.pop (c ++ [v]) = Ok (v, c).
Proof. unfold graph.pop. by rewrite reverse_snoc, reverse_involutive. Qed.

Lemma gen_step_back (st : graph.gen_state V) (i : nat) :
  graph.step_index st = Z.of_nat i →
  graph.steps_vertices st !! i = Some (Some []) →
  graph.gen_step g st
  = Ok (Some (None, {| graph.path := graph.path st;
                       graph.step_index := graph.step_index st - 1;
                       graph.steps_vertices := graph.steps_vertices st |})).
Proof.
  intros Hi Hc. unfold graph.gen_step, getitem.
  rewrite bool_decide_eq_true_2 by lia.
  by rewrite Hi, Nat2Z.id, Hc.
Qed.

Lemma gen_step_leaf (st : graph.gen_state V) (i : nat) (c : list V) (v : V) :
  graph.step_index st = Z.of_nat i →
  graph.steps_vertices st !! i = Some (Some (c ++ [v])) →
  Z.of_nat i = graph._num_vertices g - 1 →
  graph.gen_step g st
  = Ok (Some (Some (<[i := Some v]> (graph.path st)),
              {| graph.path := <[i := Some v]> (graph.path st);
                 graph.step_index := graph.step_index st;
                 graph.steps_vertices :=
                   <[i := Some c]> (graph.steps_vertices st) |})).
Proof.
  intros Hi Hc Hlast. unfold graph.gen_step, getitem.
  rewrite bool_decide_eq_true_2 by lia.
  rewrite Hi, Nat2Z.id, Hc. simpl.
  rewrite bool_decide_eq_false_2
    by (rewrite length_app; simpl; lia).
  rewrite pop_snoc. simpl. by rewrite bool_decide_eq_true_2.
Qed.

Lemma gen_step_down (st : graph.gen_state V) (i : nat) (c : list V) (v : V)
    (t s : gset V) :
  graph.step_index st = Z.of_nat i →
  graph.steps_vertices st !! i = Some (Some (c ++ [v])) →
  Z.of_nat i ≠ graph._num_vertices g - 1 →
  graph.get_end_vertices (graph._dedge g) v = Ok t →
  graph._step_sets g !! S i = Some s →
  graph.gen_step g st
  = Ok (Some (None,
              {| graph.path := <[i := Some v]> (graph.path st);
                 graph.step_index := graph.step_index st + 1;
                 graph.steps_vertices :=
                   <[S i := Some (elements (t ∩ s))]>
                     (<[i := Some c]> (graph.steps_vertices st)) |})).
Proof.
  intros Hi Hc Hlast Ht Hs. unfold graph.gen_step, getitem.
  rewrite bool_decide_eq_true_2 by lia.
  rewrite Hi, Nat2Z.id, Hc. simpl.
  rewrite bool_decide_eq_false_2
    by (rewrite length_app; simpl; lia).
  rewrite pop_snoc. simpl. rewrite bool_decide_eq_false_2 by done.
  rewrite Ht. simpl. by rewrite Nat.add_1_r, Hs.
Qed.

Variable n : nat.
Hypothesis HN : graph._num_vertices g = Z.of_nat n.
Hypothesis Hlen : length (graph._step_sets g) = n.
Hypothesis Htotal : ∀ i v,
  v ∈ step_set i → ∃ t, graph.get_end_vertices (graph._dedge g) v = Ok t.

(** The tuple the search yields for the vertices [suf] below the part of
    [path] before position [i]. *)
Definition below (path : list (option V)) (i : nat) (suf : list V)
    : list (option V) :=
  (take i path ++ (Some <$> suf))%list.

(** The search from position [i]: it yields, in order, every path through
    the candidates left at [i], and then steps back to position [i - 1]
    with the earlier positions untouched. *)
Lemma gen_level k : ∀ i c st,
  (i + k = n - 1)%nat → (1 ≤ n)%nat →
  graph.step_index st = Z.of_nat i →
  length (graph.path st) = n →
  length (graph.steps_vertices st) = n →
  graph.steps_vertices st !! i = Some (Some c) →
  (∀ v, v ∈ c → v ∈ step_set i) →
  ∃ m st',
    (∀ fuel, graph.gen_run g (m + fuel) st
             = prepend (below (graph.path st) i <$> searched k i c)
                 (graph.gen_run g fuel st')) ∧
    graph.step_index st' = Z.of_nat i - 1 ∧
    length (graph.path st') = n ∧
    length (graph.steps_vertices st') = n ∧
    take i (graph.path st') = take i (graph.path st) ∧
    take i (graph.steps_vertices st') = take i (graph.steps_vertices st).
Proof.
  induction k as [|k IHk]; intros i c;
    induction c as [|v c IHc] using rev_ind;
    intros st Hik Hn Hi Hpath Hsv Hc Hin.
  - (* last position, no candidate left *)
    exists 1%nat, {| graph.path := graph.path st;
                     graph.step_index := graph.step_index st - 1;
                     graph.steps_vertices := graph.steps_vertices st |}.
    split_and!; [|simpl; lia|done..].
    intros fuel. simpl. rewrite (gen_step_back st i) by done.
    by rewrite prepend_nil.
  - (* last position: yield *)
    set (st1 := {| graph.path := <[i := Some v]> (graph.path st);
                   graph.step_index := graph.step_index st;
                   graph.steps_vertices :=
                     <[i := Some c]> (graph.steps_vertices st) |}).
    destruct (IHc st1) as (m & st' & Hrun & Hidx & Hp' & Hsv' & Htp & Htsv);
      simpl; rewrite ?length_insert; try done.
    { apply list_lookup_insert_eq. lia. }
    { intros w Hw. apply Hin. set_solver. }
    exists (S m), st'. split_and!; try done.
    + intros fuel. simpl. rewrite (gen_step_leaf st i c v) by (done || lia).
      fold st1. rewrite Hrun, yield_first_prepend, prepend_app. f_equal.
      unfold searched. rewrite reverse_snoc, bind_cons, fmap_app. simpl.
      f_equal.
      * unfold below. simpl.
        rewrite insert_take_drop, drop_ge by lia. done.
      * unfold below. simpl. by rewrite take_insert_ge by lia.
    + rewrite Htp. simpl. by rewrite take_insert_ge by lia.
    + rewrite Htsv. simpl. by rewrite take_insert_ge by lia.
  - (* inner position, no candidate left *)
    exists 1%nat, {| graph.path := graph.path st;
                     graph.step_index := graph.step_index st - 1;
                     graph.steps_vertices := graph.steps_vertices st |}.
    split_and!; [|simpl; lia|done..].
    intros fuel. simpl. rewrite (gen_step_back st i) by done.
    by rewrite prepend_nil.
  - (* inner position: descend, then go on with the candidates left *)
    destruct (Htotal i v) as [t Ht]; [apply Hin; set_solver|].
    destruct (lookup_lt_is_Some_2 (graph._step_sets g) (S i)) as [s Hs];
      [lia|].
    set (st2 := {| graph.path := <[i := Some v]> (graph.path st);
                   graph.step_index := graph.step_index st + 1;
                   graph.steps_vertices :=
                     <[S i := Some (elements (t ∩ s))]>
                       (<[i := Some c]> (graph.steps_vertices st)) |}).
    destruct (IHk (S i) (elements (t ∩ s)) st2)
      as (m2 & st3 & Hrun2 & Hidx2 & Hp2 & Hsv2 & Htp2 & Htsv2);
      simpl; rewrite ?length_insert; try done; try lia.
    { apply list_lookup_insert_eq. rewrite length_insert. lia. }
    { intros w Hw%elem_of_elements. unfold step_set. rewrite Hs. simpl.
      set_solver. }
    destruct (IHc st3) as (m3 & st4 & Hrun3 & Hidx3 & Hp3 & Hsv3 & Htp3 & Htsv3);
      try done; try lia.
    { rewrite <- (lookup_take_lt _ (S i)) by lia. rewrite Htsv2. simpl.
      rewrite lookup_take_lt by lia.
      rewrite list_lookup_insert_ne by lia.
      apply list_lookup_insert_eq. lia. }
    { intros w Hw. apply Hin. set_solver. }
    assert (take i (graph.path st3) = take i (graph.path st)) as Htp23.
    { rewrite <- (Nat.min_l i (S i)), <- take_take, Htp2 by lia. simpl.
      rewrite take_take, Nat.min_l by lia. by rewrite take_insert_ge by lia. }
    exists (S (m2 + m3)), st4. split_and!; try done; try lia.
    + intros fuel. simpl. rewrite (gen_step_down st i c v t s) by (done || lia).
      fold st2. rewrite <- Nat.add_assoc, Hrun2, Hrun3, prepend_app. f_equal.
      unfold searched at 3. rewrite reverse_snoc, bind_cons, fmap_app.
      f_equal.
      * simpl. unfold searched, candidates, ends_of, step_set.
        rewrite Ht, Hs. simpl. rewrite <- list_fmap_compose.
        apply list_fmap_ext. intros _ suf _. unfold below. simpl.
        rewrite (take_S_r _ i (Some v))
          by (apply list_lookup_insert_eq; lia).
        rewrite take_insert_ge by lia. by rewrite <- app_assoc.
      * unfold below. by rewrite Htp23.
    + by rewrite Htp3.
    + rewrite Htsv3.
      rewrite <- (Nat.min_l i (S i)), <- take_take, Htsv2 by lia. simpl.
      rewrite take_take, Nat.min_l by lia.
      rewrite take_insert_ge by lia. by rewrite take_insert_ge by lia.
Qed.

(** The generator ends, after yielding every path through the step sets
    once. *)
Lemma generator_spec :
  (1 ≤ n)%nat →
  ∃ m, ∀ fuel, (m ≤ fuel)%nat →
    graph._get_all_paths_generator g fuel
    = ((λ p : list V, Some <$> p)
         <$> searched (n - 1) 0 (elements (step_set 0)),
       StopIteration).
Proof.
  intros Hn.
  destruct (lookup_lt_is_Some_2 (graph._step_sets g) 0) as [s0 Hs0]; [lia|].
  unfold graph._get_all_paths_generator, graph.gen_init, getitem.
  rewrite Hs0. simpl. rewrite HN, Nat2Z.id.
  set (st0 := {| graph.path := replicate n None;
                 graph.step_index := 0;
                 graph.steps_vertices :=
                   <[0%nat := Some (elements s0)]> (replicate n None) |}).
  destruct (gen_level (n - 1) 0 (elements s0) st0)
    as (m & st' & Hrun & Hidx & _); simpl;
    rewrite ?length_insert, ?length_replicate; try done; try lia.
  { apply list_lookup_insert_eq. rewrite length_replicate. lia. }
  { intros v Hv%elem_of_elements. unfold step_set. by rewrite Hs0. }
  exists (S m). intros fuel Hfuel.
  replace fuel with (m + S (fuel - S m))%nat by lia.
  rewrite Hrun. simpl.
  unfold graph.gen_step. rewrite bool_decide_eq_false_2 by lia.
  unfold prepend. simpl. rewrite app_nil_r. f_equal.
  unfold step_set. rewrite Hs0. simpl.
  apply list_fmap_ext. by intros _ suf _.
Qed.

End search.

(** ** Reasoning about random choices *)

(** [rand_all P t]: whatever the random source draws, [t] returns a value,
    and the value satisfies [P]. *)
Fixpoint rand_all {A : Type} (P : A → Prop) (t : rand A) : Prop :=
  match t with
  | RDone (Ok a) => P a
  | RDone _ => False
  | RBelow n k => n ≠ 0%nat ∧ ∀ i, (i < n)%nat → rand_all P (k i)
  end.

Lemma rand_all_run {A : Type} (P : A → Prop) (t : rand A) :
  rand_all P t → ∀ draws pos, ∃ a, run t draws pos = Ok a ∧ P a.
Proof.
  induction t as [[a| |]|n k IH]; simpl; try done.
  - intros Ha _ _. by exists a.
  - intros [Hn Hk] draws pos. rewrite bool_decide_eq_false_2 by done.
    apply IH, Hk. by apply Nat.mod_upper_bound.
Qed.

Lemma rand_all_mono {A : Type} (P Q : A → Prop) (t : rand A) :
  (∀ a, P a → Q a) → rand_all P t → rand_all Q t.
Proof.
  intros HPQ. induction t as [[a| |]|n k IH]; simpl; try done; [auto|].
  intros [Hn Hk]. split; [done|]. intros i Hi. by apply IH, Hk.
Qed.

Lemma rand_all_bind {A B : Type} (Q : B → Prop) (t : rand A)
    (f : A → rand B) :
  rand_all (λ a, rand_all Q (f a)) t → rand_all Q (t ≫= f).
Proof.
  induction t as [[a| |]|n k IH]; simpl; try done.
  intros [Hn Hk]. split; [done|]. intros i Hi. by apply IH, Hk.
Qed.

Lemma rand_all_lift {A : Type} (P : A → Prop) (r : result A) (a : A) :
  r = Ok a → P a → rand_all P (lift r).
Proof. by intros ->. Qed.

Lemma rand_all_choice {A : Type} (P : A → Prop) (l : list A) :
  l ≠ [] → (∀ x, x ∈ l → P x) → rand_all P (choice l).
Proof.
  intros Hne Hall. destruct l as [|x0 l0] eqn:Hl; [done|].
  rewrite <- Hl in *. unfold choice. rewrite Hl at 1.
  simpl. split; [by rewrite Hl|]. intros i Hi.
  destruct (lookup_lt_is_Some_2 l i) as [x Hx]; [done|].
  unfold getitem. rewrite Hx. simpl. apply Hall.
  by eapply list_elem_of_lookup_2.
Qed.

Lemma rand_all_randint (P : Z → Prop) (a b : Z) :
  a ≤ b → (∀ z, a ≤ z ≤ b → P z) → rand_all P (randint a b).
Proof.
  intros Hab Hall. unfold randint. rewrite bool_decide_eq_false_2 by lia.
  simpl. split; [lia|]. intros i Hi. apply Hall. lia.
Qed.

Lemma run_in_outcomes {A : Type} (t : rand A) (draws : nat → nat) :
  ∀ pos, run t draws pos ∈ outcomes t.
Proof.
  induction t as [r|n k IH]; intros pos; simpl.
  - apply list_elem_of_singleton. done.
  - case_bool_decide as Hn; [by apply list_elem_of_singleton|].
    apply list_elem_of_In, in_flat_map.
    exists (draws pos mod n)%nat. split.
    + apply in_seq. split; [lia|]. simpl. by apply Nat.mod_upper_bound.
    + apply list_elem_of_In, IH.
Qed.

Lemma insert_replicate_end {A : Type} (j : nat) (x y : A) (l : list A) :
  <[j := x]> (replicate (S j) y ++ l) = replicate j y ++ x :: l.
Proof. induction j as [|j IH]; simpl; [done|]. f_equal. apply IH. Qed.

Lemma rand_bind_lift_Ok {A B : Type} (a : A) (f : A → rand B) :
  lift (Ok a) ≫= f = f a.
Proof. done. Qed.

Lemma insert_snoc_path {A : Type} (q : list A) (w : A) (m : nat) :
  (length q < m)%nat →
  <[length q := Some w]>
    (replicate 0 None ++ (Some <$> q) ++ replicate (m - 0 - length q) None)
  = replicate 0 None ++ (Some <$> q ++ [w])
    ++ replicate (m - 0 - length (q ++ [w])) None.
Proof.
  intros Hlt. change (replicate 0 (@None A) ++ ?l) with l.
  rewrite length_app. simpl.
  replace (m - 0 - length q)%nat with (S (m - 0 - (length q + 1))) by lia.
  generalize (m - 0 - (length q + 1))%nat as k. intros k. clear Hlt.
  induction q as [|x q IH]; simpl; [done|]. f_equal. apply IH.
Qed.

(** ** A constructed [GraphPathFinder] *)

Section built.
Context {V : Type} `{Countable V}.
Variable dg : graph.edge_getter V.
Variable U : V → Prop.
Variables start_vertices end_vertices : gset V.
Variable N : Z.
Variable g : graph.GraphPathFinder V.
Hypothesis Hlawful : lawful dg U.
Hypothesis Hstart : ∀ v, v ∈ start_vertices → U v.
Hypothesis Hend : ∀ v, v ∈ end_vertices → U v.
Hypothesis Hinit :
  graph.__init__ start_vertices end_vertices N dg = Ok g.

Local Arguments replicate : simpl never.
Local Notation n := (Z.to_nat N).
Local Notation on_path' := (on_path dg start_vertices end_vertices n).
Local Notation valid_path' := (valid_path dg start_vertices end_vertices n).

Lemma init_fields :
  2 ≤ N ∧ (2 ≤ n)%nat ∧
  graph._num_vertices g = N ∧ graph._dedge g = dg ∧
  graph._build_step_sets start_vertices end_vertices n dg
  = Ok (graph._step_sets g, graph._is_disconnected g).
Proof.
  unfold graph.__init__ in Hinit.
  repeat case_bool_decide; try discriminate.
  destruct (graph._build_step_sets _ _ _ _) as [[steps flag]| |] eqn:Hb;
    simpl in Hinit; try discriminate.
  injection Hinit as <-. simpl. split_and!; try done; lia.
Qed.

Lemma built_disconnected :
  graph.is_disconnected g = true →
  no_path dg start_vertices end_vertices n.
Proof.
  intros Hflag. destruct init_fields as (HN & Hn & _ & _ & Hb).
  destruct (build_step_sets_spec dg U start_vertices end_vertices n
              Hlawful Hstart Hend Hn) as (steps & flag & Hrun & Hpost).
  rewrite Hb in Hrun. injection Hrun as <- <-.
  unfold graph.is_disconnected in Hflag. by rewrite Hflag in Hpost.
Qed.

Lemma built_connected :
  graph.is_disconnected g = false →
  length (graph._step_sets g) = n ∧
  (∀ i v, v ∈ step_set g i ↔ on_path' i v) ∧
  (∃ v, v ∈ step_set g 0).
Proof.
  intros Hflag. destruct init_fields as (HN & Hn & _ & _ & Hb).
  destruct (build_step_sets_spec dg U start_vertices end_vertices n
              Hlawful Hstart Hend Hn) as (steps & flag & Hrun & Hpost).
  rewrite Hb in Hrun. injection Hrun as <- <-.
  unfold graph.is_disconnected in Hflag. rewrite Hflag in Hpost.
  destruct Hpost as (Hlen & Hsets & s0 & Hs0 & Hne). split_and!; [done| |].
  - intros i v. unfold step_set.
    destruct (graph._step_sets g !! i) as [s|] eqn:Hs; simpl.
    + by apply Hsets.
    + split; [set_solver|]. intros (Hi & _).
      apply lookup_ge_None in Hs. lia.
  - apply set_choose_L in Hne as [v Hv]. exists v.
    unfold step_set. by rewrite Hs0.
Qed.

Lemma built_n : (2 ≤ n)%nat.
Proof. by destruct init_fields as (_ & Hn & _). Qed.

Lemma built_valid_on_path p i v :
  valid_path' p → p !! i = Some v → on_path' i v.
Proof.
  exact (valid_path_on_path dg U start_vertices end_vertices n
           Hlawful Hstart Hend built_n p i v).
Qed.

Lemma built_on_path_U i v : on_path' i v → U v.
Proof.
  exact (on_path_U dg U start_vertices end_vertices n
           Hlawful Hstart Hend built_n i v).
Qed.

Lemma built_on_path_pred i v :
  on_path' (S i) v → ∃ u, on_path' i u ∧ edge dg u v ∧ redge dg u v.
Proof.
  exact (on_path_pred dg U start_vertices end_vertices n
           Hlawful Hstart Hend built_n i v).
Qed.

Lemma built_on_path_succ i v :
  (S i < n)%nat → on_path' i v →
  ∃ w, on_path' (S i) w ∧ edge dg v w ∧ redge dg v w.
Proof.
  exact (on_path_succ dg U start_vertices end_vertices n
           Hlawful Hstart Hend built_n i v).
Qed.

Lemma built_on_path_valid_path i v :
  on_path' i v → ∃ p, valid_path' p ∧ p !! i = Some v.
Proof.
  exact (on_path_valid_path dg U start_vertices end_vertices n
           Hlawful Hstart Hend built_n i v).
Qed.

Lemma no_path_no_valid_path :
  no_path dg start_vertices end_vertices n → ¬ ∃ p, valid_path' p.
Proof.
  intros (i & Hi & Hnone) [p Hp].
  destruct (lookup_lt_is_Some_2 p i) as [v Hv].
  { destruct Hp as (-> & _). done. }
  apply (Hnone v). by eapply built_valid_on_path.
Qed.

Lemma ends_of_edge v w : w ∈ ends_of g v ↔ edge dg v w.
Proof.
  destruct init_fields as (_ & _ & _ & Hdg & _).
  unfold ends_of, edge. rewrite Hdg.
  destruct (graph.get_end_vertices dg v) as [s| |]; split;
    try set_solver; try naive_solver.
Qed.

Lemma step_set_U i v :
  graph.is_disconnected g = false → v ∈ step_set g i → U v.
Proof.
  intros Hflag Hv. destruct init_fields as (_ & Hn & _).
  destruct (built_connected Hflag) as (_ & Hsets & _).
  apply Hsets in Hv. by eapply built_on_path_U.
Qed.

Lemma step_total i v :
  graph.is_disconnected g = false → v ∈ step_set g i →
  ∃ t, graph.get_end_vertices (graph._dedge g) v = Ok t.
Proof.
  intros Hflag Hv%step_set_U; [|done].
  destruct init_fields as (_ & _ & _ & -> & _).
  destruct (end_total _ _ Hlawful v Hv) as (t & Ht & _). by exists t.
Qed.

Lemma chain_of_linked r : ∀ i v,
  linked dg (v :: r) →
  (∀ j w, r !! j = Some w → w ∈ step_set g (i + S j)) →
  chain g i v r.
Proof.
  induction r as [|w r IH]; intros i v Hl Hsets; [done|].
  destruct Hl as [Hvw Hl]. simpl. split_and!.
  - by apply ends_of_edge.
  - specialize (Hsets 0%nat w eq_refl).
    by replace (i + 1)%nat with (S i) in Hsets by lia.
  - apply IH; [done|]. intros j x Hx.
    replace (S i + S j)%nat with (i + S (S j))%nat by lia.
    by apply Hsets.
Qed.

Lemma linked_of_chain r : ∀ i v,
  chain g i v r →
  linked dg (v :: r) ∧ ∀ j w, r !! j = Some w → w ∈ step_set g (i + S j).
Proof.
  induction r as [|w r IH]; intros i v Hc; [done|].
  destruct Hc as (Hvw & Hw & Hc). destruct (IH _ _ Hc) as [Hl Hsets].
  split.
  - split; [by apply ends_of_edge|done].
  - intros [|j] x Hx; simpl in Hx.
    + injection Hx as <-. by replace (i + 1)%nat with (S i) by lia.
    + replace (i + S (S j))%nat with (S i + S j)%nat by lia.
      by apply Hsets.
Qed.

(** The paths the search goes through, written with the step sets, are
    the valid paths. *)
Lemma step_path_valid v r :
  graph.is_disconnected g = false →
  (v ∈ step_set g 0 ∧ length r = (n - 1)%nat ∧ chain g 0 v r) ↔
  valid_path' (v :: r).
Proof.
  intros Hflag. destruct init_fields as (_ & Hn & _).
  destruct (built_connected Hflag) as (_ & Hsets & _). split.
  - intros (Hv & Hr & Hc). destruct (linked_of_chain _ _ _ Hc) as [Hl Hin].
    split_and!.
    + simpl. lia.
    + exists v. split; [done|]. apply Hsets in Hv as (_ & Hf & _).
      by inversion Hf.
    + destruct (last_is_Some (v :: r)) as [_ [e He]]; [done|].
      exists e. split; [done|].
      rewrite last_lookup in He. simpl in He. rewrite Hr in He.
      assert (e ∈ step_set g (n - 1)) as He'.
      { destruct (n - 1)%nat as [|k] eqn:Hk; [lia|]. simpl in He.
        by apply (Hin k e). }
      apply Hsets in He' as (_ & _ & Hb).
      rewrite Nat.sub_diag in Hb. by inversion Hb.
    + done.
  - intros Hp. pose proof Hp as (Hlen & _ & _ & Hl). split_and!.
    + apply Hsets. by eapply (built_valid_on_path (v :: r) 0).
    + simpl in Hlen. lia.
    + apply chain_of_linked; [done|]. intros j w Hw. apply Hsets.
      by eapply (built_valid_on_path (v :: r) (S j)).
Qed.

Lemma searched_valid p :
  graph.is_disconnected g = false →
  p ∈ searched g (n - 1) 0 (elements (step_set g 0)) ↔ valid_path' p.
Proof.
  intros Hflag. destruct init_fields as (_ & Hn & _).
  rewrite elem_of_searched. split.
  - intros (v & r & -> & Hv%elem_of_elements & Hr & Hc).
    by apply step_path_valid.
  - intros Hp. destruct p as [|v r].
    { destruct Hp as (Hlen & _). simpl in Hlen. lia. }
    apply step_path_valid in Hp as (Hv & Hr & Hc); [|done].
    exists v, r. split_and!; try done. by apply elem_of_elements.
Qed.

(** Every path of the search, as the tuple the generator yields. *)
Definition all_paths : list (list (option V)) :=
  (λ p : list V, Some <$> p)
    <$> searched g (n - 1) 0 (elements (step_set g 0)).

Lemma all_paths_yielded :
  graph.is_disconnected g = false →
  ∃ m, ∀ fuel, (m ≤ fuel)%nat →
    graph.get_all_paths g fuel = Ok (all_paths, StopIteration).
Proof.
  intros Hflag. destruct init_fields as (HN & Hn & HNg & _).
  destruct (built_connected Hflag) as (Hlen & _).
  destruct (generator_spec g n) as [m Hm]; try done; try lia.
  { intros i v Hv. by eapply step_total. }
  exists m. intros fuel Hfuel. unfold graph.get_all_paths.
  rewrite Hflag. by rewrite Hm.
Qed.

Lemma NoDup_all_paths : NoDup all_paths.
Proof.
  apply (NoDup_fmap_2 _), NoDup_searched, NoDup_elements.
Qed.

(** *** The random walk of [get_random_path] *)

(** [partial j q path]: [path] holds the vertices [q] from position [j]
    on and [None] elsewhere, and [q] goes through the step sets. *)
Definition partial (j : nat) (q : list V) (path : list (option V)) : Prop :=
  path = replicate j None ++ (Some <$> q)
         ++ replicate (n - j - length q) None ∧
  (j + length q ≤ n)%nat ∧
  ∃ v r, q = v :: r ∧ v ∈ step_set g j ∧ chain g j v r.

Lemma step_set_lookup i :
  (i < n)%nat → graph.is_disconnected g = false →
  graph._step_sets g !! i = Some (step_set g i).
Proof.
  intros Hi Hflag. destruct (built_connected Hflag) as (Hlen & _).
  destruct (lookup_lt_is_Some_2 (graph._step_sets g) i) as [s Hs]; [lia|].
  unfold step_set. by rewrite Hs.
Qed.

Lemma chain_snoc r : ∀ i v w e,
  chain g i v r → last (v :: r) = Some e →
  w ∈ ends_of g e → w ∈ step_set g (i + S (length r)) →
  chain g i v (r ++ [w]).
Proof.
  induction r as [|x r IH]; intros i v w e Hc Hlast Hw1 Hw2.
  - simpl in *. injection Hlast as ->.
    replace (i + 1)%nat with (S i) in Hw2 by lia. done.
  - destruct Hc as (Hx1 & Hx2 & Hc). rewrite last_cons_cons in Hlast.
    simpl. split_and!; [done..|]. eapply IH; eauto.
    by replace (S i + S (length r))%nat with (i + S (length (x :: r)))%nat
      by (simpl; lia).
Qed.

Lemma chain_last r : ∀ i v e,
  v ∈ step_set g i → chain g i v r → last (v :: r) = Some e →
  e ∈ step_set g (i + length r).
Proof.
  induction r as [|x r IH]; intros i v e Hv Hc Hlast.
  - simpl in *. injection Hlast as <-. by rewrite Nat.add_0_r.
  - destruct Hc as (Hx1 & Hx2 & Hc). rewrite last_cons_cons in Hlast.
    replace (i + length (x :: r))%nat with (S i + length r)%nat
      by (simpl; lia).
    by eapply IH.
Qed.

Lemma fill_earlier_spec j : ∀ q path,
  graph.is_disconnected g = false → partial j q path →
  rand_all (λ path', ∃ q', partial 0 q' path'
                           ∧ length q' = (j + length q)%nat)
    (graph._fill_earlier g (reverse (seq 1 j)) path).
Proof.
  induction j as [|j IH]; intros q path Hflag Hpart.
  - simpl. by exists q.
  - rewrite reverse_seq_S. simpl.
    destruct Hpart as (-> & Hle & v & r & -> & Hv & Hc).
    pose proof (step_set_U _ _ Hflag Hv) as HUv.
    destruct (built_connected Hflag) as (_ & Hsets & _).
    unfold graph.vertex_at, getitem.
    assert ((replicate (S j) None ++ (Some <$> v :: r)
             ++ replicate (n - S j - length (v :: r)) None) !! S j
            = Some (Some v)) as ->.
    { rewrite lookup_app_r; rewrite length_replicate; [|lia].
      by rewrite Nat.sub_diag. }
    simpl.
    destruct init_fields as (_ & _ & _ & Hdg & _). rewrite Hdg.
    destruct (start_total _ _ Hlawful v HUv) as (t & Ht & HUt).
    rewrite Ht, Nat.sub_0_r.
    rewrite step_set_lookup by (done || simpl in Hle; lia).
    apply (rand_all_bind _ (choice _)), rand_all_choice.
    + destruct (built_on_path_pred j v) as (u & Hu & _ & (t' & Ht' & Hut));
        [by apply Hsets|].
      assert (u ∈ t ∩ step_set g j) as Hin.
      { apply elem_of_intersection. split; [congruence|by apply Hsets]. }
      intros Hnil. apply elem_of_elements in Hin. rewrite Hnil in Hin.
      by apply elem_of_nil in Hin.
    + intros u [Hut Hus]%elem_of_elements%elem_of_intersection.
      eapply rand_all_mono; [|apply (IH (u :: v :: r)); [done|]].
      { intros path' (q' & Hq' & Hlen). exists q'. split; [done|].
        simpl in *. lia. }
      split_and!.
      * etrans; [apply (insert_replicate_end j (Some u) None)|].
        replace (n - j - length (u :: v :: r))%nat
          with (n - S j - S (length r))%nat by (simpl; lia).
        done.
      * simpl in *. lia.
      * exists u, (v :: r). split_and!; [done..|]. simpl. split_and!; try done.
        apply ends_of_edge.
        apply (both_directions _ _ Hlawful); [by eapply step_set_U|done|].
        by exists t.
Qed.

Lemma fill_later_spec m : ∀ v r path,
  graph.is_disconnected g = false → partial 0 (v :: r) path →
  (S (length r) + m = n)%nat →
  rand_all (λ path', ∃ q', partial 0 q' path' ∧ length q' = n)
    (graph._fill_later g (seq (length r) m) path).
Proof.
  induction m as [|m IH]; intros v r path Hflag Hpart Hlen.
  - simpl. exists (v :: r). split; [done|]. simpl. lia.
  - simpl. pose proof Hpart as (-> & Hle & v' & r' & [= <- <-] & Hv & Hc).
    destruct (built_connected Hflag) as (_ & Hsets & _).
    destruct (last_is_Some (v :: r)) as [_ [e He]]; [done|].
    pose proof (chain_last _ _ _ _ Hv Hc He) as Hes. simpl in Hes.
    pose proof (step_set_U _ _ Hflag Hes) as HUe.
    unfold graph.vertex_at, getitem.
    assert ((replicate 0 None ++ (Some <$> v :: r)
             ++ replicate (n - 0 - length (v :: r)) None) !! length r
            = Some (Some e)) as ->.
    { change (replicate 0 None ++ ?l) with l.
      rewrite lookup_app_l by (rewrite length_fmap; simpl; lia).
      rewrite list_lookup_fmap. rewrite last_lookup in He. simpl in He.
      by rewrite He. }
    simpl.
    destruct init_fields as (_ & _ & _ & Hdg & _). rewrite Hdg.
    destruct (end_total _ _ Hlawful e HUe) as (t & Ht & HUt).
    rewrite Ht, Nat.add_1_r.
    rewrite step_set_lookup by (done || lia).
    apply (rand_all_bind _ (choice _)), rand_all_choice.
    + destruct (built_on_path_succ (length r) e) as (w & Hw & (t' & Ht' & Hwt) & _);
        [lia|by apply Hsets|].
      assert (w ∈ t ∩ step_set g (S (length r))) as Hin.
      { apply elem_of_intersection. split; [congruence|by apply Hsets]. }
      intros Hnil. apply elem_of_elements in Hin. rewrite Hnil in Hin.
      by apply elem_of_nil in Hin.
    + intros w [Hwt Hws]%elem_of_elements%elem_of_intersection.
      specialize (IH v (r ++ [w])). rewrite length_app in IH. simpl in IH.
      rewrite Nat.add_1_r in IH. apply IH; [done| |lia].
      split_and!.
      * apply (insert_snoc_path (v :: r) w n). simpl. lia.
      * simpl. rewrite length_app. simpl. lia.
      * exists v, (r ++ [w]). split_and!; [done..|].
        eapply chain_snoc; eauto.
        apply ends_of_edge. by exists t.
Qed.

Lemma step_set_nonempty i :
  graph.is_disconnected g = false → (i < n)%nat → ∃ v, v ∈ step_set g i.
Proof.
  intros Hflag. destruct (built_connected Hflag) as (_ & Hsets & Hne).
  induction i as [|i IH]; intros Hi; [done|].
  destruct IH as [v Hv]; [lia|].
  destruct (built_on_path_succ i v) as (w & Hw & _); [done|by apply Hsets|].
  exists w. by apply Hsets.
Qed.

(** Whatever the random source draws, [get_random_path] returns one of the
    paths of the search. *)
Lemma random_path_spec :
  graph.is_disconnected g = false →
  rand_all (λ t, t ∈ all_paths) (graph.get_random_path g).
Proof.
  intros Hflag. destruct init_fields as (HN & Hn & HNg & _).
  unfold graph.get_random_path. rewrite Hflag, HNg.
  apply (rand_all_bind _ (randint _ _)), rand_all_randint; [lia|].
  intros z Hz. set (k := Z.to_nat z). assert (k < n)%nat as Hk by lia.
  unfold getitem. rewrite step_set_lookup by done.
  rewrite rand_bind_lift_Ok.
  apply (rand_all_bind _ (choice _)), rand_all_choice.
  { destruct (step_set_nonempty k Hflag Hk) as [v Hv].
    intros Hnil. apply elem_of_elements in Hv. rewrite Hnil in Hv.
    by apply elem_of_nil in Hv. }
  intros v Hv%elem_of_elements.
  apply rand_all_bind.
  eapply rand_all_mono; [|apply (fill_earlier_spec k [v]); [done|]].
  - intros path' (q' & Hq' & Hlen). simpl in Hlen.
    pose proof Hq' as (_ & _ & v' & r' & -> & _).
    simpl in Hlen. assert (length r' = k) as <- by lia.
    eapply rand_all_mono; [|by apply (fill_later_spec (n - 1 - length r') v' r')
                                      ; [done..|lia]].
    intros path'' (q'' & (-> & _ & v'' & r'' & -> & Hv'' & Hc'') & Hlen'').
    rewrite Hlen'', Nat.sub_0_r, Nat.sub_diag.
    change (replicate 0 None ++ ?l) with l. rewrite app_nil_r.
    unfold all_paths. apply list_elem_of_fmap_2. apply elem_of_searched.
    exists v'', r''. split_and!; try done.
    + by apply elem_of_elements.
    + simpl in Hlen''. lia.
  - split_and!.
    + replace n with (S k + (n - S k))%nat at 1 by lia.
      rewrite replicate_add, insert_replicate_end.
      replace (n - k - length [v])%nat with (n - S k)%nat by (simpl; lia).
      done.
    + simpl. lia.
    + by exists v, [].
Qed.

(** *** The claims about a constructed path finder *)

Lemma step_set_of_lookup i s :
  graph._step_sets g !! i = Some s → s = step_set g i.
Proof. intros Hs. unfold step_set. by rewrite Hs. Qed.

Lemma step_set_links i v :
  graph.is_disconnected g = false → v ∈ step_set g i →
  ((S i < n)%nat →
   ∃ w, w ∈ step_set g (S i) ∧ edge dg v w ∧ redge dg v w) ∧
  (∀ j, i = S j →
   ∃ u, u ∈ step_set g j ∧ edge dg u v ∧ redge dg u v).
Proof.
  intros Hflag Hv. destruct (built_connected Hflag) as (_ & Hsets & _).
  apply Hsets in Hv. split.
  - intros Hi. destruct (built_on_path_succ i v Hi Hv) as (w & Hw & Hvw).
    exists w. split; [by apply Hsets|done].
  - intros j ->. destruct (built_on_path_pred j v Hv) as (u & Hu & Huv).
    exists u. split; [by apply Hsets|done].
Qed.

Lemma all_paths_position i v :
  graph.is_disconnected g = false →
  v ∈ step_set g i ↔ ∃ t, t ∈ all_paths ∧ t !! i = Some (Some v).
Proof.
  intros Hflag. destruct (built_connected Hflag) as (_ & Hsets & _). split.
  - intros Hv%Hsets. destruct (built_on_path_valid_path i v Hv) as (p & Hp & Hi).
    exists (Some <$> p). split.
    + apply list_elem_of_fmap_2. by apply searched_valid.
    + by rewrite list_lookup_fmap, Hi.
  - intros (t & (p & -> & Hp)%list_elem_of_fmap & Hi).
    apply searched_valid in Hp; [|done]. apply Hsets.
    rewrite list_lookup_fmap in Hi.
    destruct (p !! i) as [v'|] eqn:Hpi; [|done]. injection Hi as ->.
    by eapply built_valid_on_path.
Qed.

(** C1 (disconnection equivalence): for a path finder constructed with an
    edge getter that lists every edge in both directions,
    [is_disconnected()] is false exactly when a valid path exists; then
    [get_all_paths()] yields at least one path; and when it is true, both
    [get_all_paths()] and [get_random_path()] raise [ValueError]. *)
Theorem disconnected_iff_no_valid_path :
  (graph.is_disconnected g = false ↔ ∃ p, valid_path' p) ∧
  (graph.is_disconnected g = false →
   ∃ m ps, ps ≠ [] ∧
     ∀ fuel, (m ≤ fuel)%nat →
       graph.get_all_paths g fuel = Ok (ps, StopIteration)) ∧
  (graph.is_disconnected g = true →
   (∀ fuel, graph.get_all_paths g fuel = Raise ValueError) ∧
   ∀ draws, run (graph.get_random_path g) draws 0 = Raise ValueError).
Proof.
  assert (graph.is_disconnected g = false → ∃ p, valid_path' p) as Hpath.
  { intros Hflag. destruct (built_connected Hflag) as (_ & Hsets & v & Hv).
    apply Hsets in Hv.
    destruct (built_on_path_valid_path 0 v Hv) as (p & Hp & _). by exists p. }
  split_and!.
  - split; [done|]. intros Hp.
    destruct (graph.is_disconnected g) eqn:Hflag; [|done].
    by destruct (no_path_no_valid_path (built_disconnected Hflag)).
  - intros Hflag. destruct (all_paths_yielded Hflag) as [m Hm].
    exists m, all_paths. split; [|done].
    destruct (Hpath Hflag) as [p Hp%searched_valid]; [|done].
    intros Hnil. apply (list_elem_of_fmap_2 (λ p : list V, Some <$> p)) in Hp.
    fold all_paths in Hp. rewrite Hnil in Hp. by apply elem_of_nil in Hp.
  - intros Hflag. unfold graph.get_all_paths, graph.get_random_path.
    by rewrite Hflag.
Qed.

(** C2 (step set invariant): when construction ends with
    [is_disconnected()] false, there is a step set for each of the [N]
    positions, every vertex of step set [i] has a successor in step set
    [i + 1] when [i < N - 1], and a predecessor in step set [i - 1] when
    [0 < i]. *)
Theorem step_sets_mutually_reachable :
  graph.is_disconnected g = false →
  length (graph._step_sets g) = n ∧
  ∀ i s v, graph._step_sets g !! i = Some s → v ∈ s →
    ((i < n - 1)%nat →
     ∃ s' w, graph._step_sets g !! (i + 1)%nat = Some s' ∧ w ∈ s' ∧
             edge dg v w ∧ redge dg v w) ∧
    ((0 < i)%nat →
     ∃ s' u, graph._step_sets g !! (i - 1)%nat = Some s' ∧ u ∈ s' ∧
             edge dg u v ∧ redge dg u v).
Proof.
  intros Hflag. destruct (built_connected Hflag) as (Hlen & _).
  split; [done|]. intros i s v Hs Hv.
  rewrite (step_set_of_lookup _ _ Hs) in Hv.
  destruct (step_set_links i v Hflag Hv) as [Hnext Hprev]. split.
  - intros Hi. destruct Hnext as (w & Hw & Hvw); [lia|].
    exists (step_set g (S i)), w. split; [|done].
    rewrite Nat.add_1_r. apply step_set_lookup; [lia|done].
  - intros Hi. destruct i as [|j]; [lia|].
    destruct (Hprev j eq_refl) as (u & Hu & Huv).
    exists (step_set g j), u. split; [|done].
    simpl. rewrite Nat.sub_0_r. apply lookup_lt_Some in Hs.
    apply step_set_lookup; [lia|done].
Qed.

(** C3 (enumeration): on a connected path finder the generator of
    [get_all_paths()] ends; every tuple it yields has [N] vertices, starts in
    step set 0, ends in step set [N - 1] and has every consecutive pair
    connected; every valid path is yielded; and no tuple is yielded twice. *)
Theorem all_paths_exactly_valid_paths :
  graph.is_disconnected g = false →
  ∃ m ps,
    (∀ fuel, (m ≤ fuel)%nat →
       graph.get_all_paths g fuel = Ok (ps, StopIteration)) ∧
    (∀ t, t ∈ ps →
       ∃ p, t = Some <$> p ∧ length p = n ∧
            (∃ v s, head p = Some v ∧
                    graph._step_sets g !! 0%nat = Some s ∧ v ∈ s) ∧
            (∃ v s, last p = Some v ∧
                    graph._step_sets g !! (n - 1)%nat = Some s ∧ v ∈ s) ∧
            linked dg p) ∧
    (∀ p, valid_path' p → (Some <$> p) ∈ ps) ∧
    NoDup ps.
Proof.
  intros Hflag. destruct (all_paths_yielded Hflag) as [m Hm].
  pose proof built_n as Hn.
  exists m, all_paths. split_and!; [done| | |apply NoDup_all_paths].
  - intros t (p & -> & Hp)%list_elem_of_fmap. exists p. split; [done|].
    apply elem_of_searched in Hp as (v & r & -> & Hv%elem_of_elements & Hr & Hc).
    destruct (linked_of_chain _ _ _ Hc) as [Hl _].
    destruct (last_is_Some (v :: r)) as [_ [e He]]; [done|].
    pose proof (chain_last _ _ _ _ Hv Hc He) as Hes.
    rewrite Hr in Hes. simpl in Hes.
    split_and!; [simpl; lia| | |done].
    + exists v, (step_set g 0). split_and!; [done| |done].
      apply step_set_lookup; [lia|done].
    + exists e, (step_set g (n - 1)). split_and!; [done| |done].
      apply step_set_lookup; [lia|done].
  - intros p Hp. apply list_elem_of_fmap_2. by apply searched_valid.
Qed.

(** C4 (sampling consistency): on a connected path finder, whatever the
    random source draws, [get_random_path()] returns a tuple, and the tuple
    is one of those [get_all_paths()] yields. *)
Theorem random_path_among_all_paths :
  graph.is_disconnected g = false →
  ∃ m ps,
    (∀ fuel, (m ≤ fuel)%nat →
       graph.get_all_paths g fuel = Ok (ps, StopIteration)) ∧
    ∀ draws, ∃ t, run (graph.get_random_path g) draws 0 = Ok t ∧ t ∈ ps.
Proof.
  intros Hflag. destruct (all_paths_yielded Hflag) as [m Hm].
  exists m, all_paths. split; [done|]. intros draws.
  by apply rand_all_run, random_path_spec.
Qed.

(** C9 (step sets and the random walk): on a connected path finder, a
    vertex is in step set [i] exactly when it stands at position [i] of a
    path that [get_all_paths()] yields; hence the candidates of the random
    walk at a vertex of a step set (its start vertices within the step set
    before, its end vertices within the step set after) are never empty,
    and [get_random_path()] returns a tuple whatever the random source
    draws. *)
Theorem step_sets_are_path_vertices :
  graph.is_disconnected g = false →
  ∃ m ps,
    (∀ fuel, (m ≤ fuel)%nat →
       graph.get_all_paths g fuel = Ok (ps, StopIteration)) ∧
    (∀ i s v, graph._step_sets g !! i = Some s →
       (v ∈ s ↔ ∃ t, t ∈ ps ∧ t !! i = Some (Some v))) ∧
    (∀ i s v, graph._step_sets g !! i = Some s → v ∈ s →
       ((0 < i)%nat →
        ∃ starts before,
          graph.get_start_vertices (graph._dedge g) v = Ok starts ∧
          graph._step_sets g !! (i - 1)%nat = Some before ∧
          starts ∩ before ≠ ∅) ∧
       ((i < n - 1)%nat →
        ∃ ends after,
          graph.get_end_vertices (graph._dedge g) v = Ok ends ∧
          graph._step_sets g !! (i + 1)%nat = Some after ∧
          ends ∩ after ≠ ∅)) ∧
    (∀ draws, ∃ t, run (graph.get_random_path g) draws 0 = Ok t).
Proof.
  intros Hflag. destruct (all_paths_yielded Hflag) as [m Hm].
  destruct init_fields as (_ & _ & _ & Hdg & _).
  exists m, all_paths. split_and!; [done| | |].
  - intros i s v Hs. rewrite (step_set_of_lookup _ _ Hs).
    by apply all_paths_position.
  - intros i s v Hs Hv. rewrite (step_set_of_lookup _ _ Hs) in Hv.
    destruct (step_set_links i v Hflag Hv) as [Hnext Hprev].
    apply lookup_lt_Some in Hs.
    destruct (built_connected Hflag) as (Hlen & _). split.
    + intros Hi. destruct i as [|j]; [lia|].
      destruct (Hprev j eq_refl) as (u & Hu & _ & (starts & Hstarts & Hus)).
      exists starts, (step_set g j). rewrite Hdg. split_and!; [done| |].
      * simpl. rewrite Nat.sub_0_r. apply step_set_lookup; [lia|done].
      * set_solver.
    + intros Hi.
      destruct Hnext as (w & Hw & (ends & Hends & Hwe) & _); [lia|].
      exists ends, (step_set g (S i)). rewrite Hdg. split_and!; [done| |].
      * rewrite Nat.add_1_r. apply step_set_lookup; [lia|done].
      * set_solver.
  - intros draws.
    destruct (rand_all_run _ _ (random_path_spec Hflag) draws 0%nat)
      as (t & Ht & _).
    by exists t.
Qed.

End built.

(** ** Edge getters that list every edge in both directions *)

Lemma elem_of_insert_union `{Countable K} `{Countable A}
    (m : gmap K (gset A)) (key k : K) (a x : A) :
  x ∈ default ∅ (<[key := default ∅ (m !! key) ∪ {[a]}]> m !! k) ↔
  x ∈ default ∅ (m !! k) ∨ (x = a ∧ key = k).
Proof.
  destruct (decide (key = k)) as [->|Hne].
  - rewrite lookup_insert_eq. simpl. set_solver.
  - rewrite lookup_insert_ne by done. naive_solver.
Qed.

(** The two dictionaries of a [DirectedGraph] mirror each other. *)
Definition mirrored (dg : test_graph.DirectedGraph) : Prop :=
  ∀ v w, w ∈ default ∅ (test_graph.start_to_end_dict dg !! v) ↔
         v ∈ default ∅ (test_graph.end_to_start_dict dg !! w).

Lemma mirrored_add_edge dg a b :
  mirrored dg → mirrored (test_graph.add_edge dg a b).
Proof.
  intros Hm v w. unfold test_graph.add_edge. simpl.
  rewrite !elem_of_insert_union, (Hm v w). naive_solver.
Qed.

Lemma mirrored_of_edges edges : mirrored (test_graph.of_edges edges).
Proof.
  unfold test_graph.of_edges.
  assert (mirrored test_graph.empty) as Hempty.
  { intros v w. unfold test_graph.empty. simpl. by rewrite !lookup_empty. }
  revert Hempty. generalize test_graph.empty.
  induction edges as [|e edges IH]; intros dg Hdg; simpl; [done|].
  by apply IH, mirrored_add_edge.
Qed.

Lemma test_graph_lawful edges :
  lawful (test_graph.as_edge_getter (test_graph.of_edges edges)) (λ _, True).
Proof.
  split.
  - intros v _. by eexists.
  - intros w _. by eexists.
  - intros v w _ _. unfold edge, redge. simpl.
    unfold test_graph.get_end_vertices, test_graph.get_start_vertices.
    pose proof (mirrored_of_edges edges v w) as Hm. split.
    + intros (s & [= <-] & Hw). eexists. split; [done|]. by apply Hm.
    + intros (s & [= <-] & Hv). eexists. split; [done|]. by apply Hm.
Qed.

(** The edge getter [create.py] builds over the middle n-grams. *)
Lemma dedge_lawful (pool : list string) (d : dedge.DirectedEdgeGetter) :
  dedge.__init__ pool pool = Ok d →
  lawful (as_edge_getter d) (λ v, v ∈ pool).
Proof.
  intros Hb%init_built. split.
  - intros v Hv. simpl.
    destruct (get_end_vertices_built pool pool d v Hb) as (es & Hes & Hin).
    { by apply (built_start_len _ _ _ Hb). }
    exists es. split; [done|]. intros w Hw. by apply Hin in Hw as [Hw _].
  - intros w Hw. simpl.
    destruct (get_start_vertices_built pool pool d w Hb) as (ss & Hss & Hin).
    { by apply (built_end_len _ _ _ Hb). }
    exists ss. split; [done|]. intros v Hv. by apply Hin in Hv as [Hv _].
  - intros v w Hv Hw. unfold edge, redge. simpl.
    destruct (get_end_vertices_built pool pool d v Hb) as (es & Hes & Hin_es).
    { by apply (built_start_len _ _ _ Hb). }
    destruct (get_start_vertices_built pool pool d w Hb) as (ss & Hss & Hin_ss).
    { by apply (built_end_len _ _ _ Hb). }
    rewrite Hes, Hss. split.
    + intros (s & [= <-] & Hws). exists ss. split; [done|].
      apply Hin_ss. apply Hin_es in Hws. naive_solver.
    + intros (s & [= <-] & Hvs). exists es. split; [done|].
      apply Hin_es. apply Hin_ss in Hvs. naive_solver.
Qed.

(** ** The claims at the fixtures of the test suite *)

(** The path finder of [tests/test_graph.py] over the graph with self
    loops. *)
Definition gpf2 : result (graph.GraphPathFinder Z) :=
  graph.__init__ {[1]} {[3]} 5 (test_graph.as_edge_getter test_graph.dg2).

(** The path finder [create.py] builds for the middle n-grams of
    [tests/test_create.py] and a sequence of length 5. *)
Definition middle_pool : list string := ["xx"; "xy"; "yx"; "yy"; "zz"; "xz"].

Definition middle_gpf : result (graph.GraphPathFinder string) :=
  d ← dedge.__init__ middle_pool middle_pool;
  graph.__init__ {["xx"; "xy"; "xz"]} {["xx"; "yx"]} 2 (as_edge_getter d).

Lemma gpf2_built :
  ∃ g, gpf2 = Ok g ∧ graph.is_disconnected g = false.
Proof.
  destruct gpf2 as [g| |] eqn:Hg; [|by vm_compute in Hg..].
  exists g. split; [done|].
  assert (match gpf2 with
          | Ok g' => graph.is_disconnected g'
          | _ => true
          end = false) as Hc by (by vm_compute).
  by rewrite Hg in Hc.
Defined.

Lemma middle_gpf_built :
  ∃ d g, dedge.__init__ middle_pool middle_pool = Ok d ∧
         graph.__init__ {["xx"; "xy"; "xz"]} {["xx"; "yx"]} 2
           (as_edge_getter d) = Ok g ∧
         graph.is_disconnected g = false.
Proof.
  assert (match middle_gpf with
          | Ok g' => graph.is_disconnected g'
          | _ => true
          end = false) as Hc by (by vm_compute).
  unfold middle_gpf in Hc.
  destruct (dedge.__init__ middle_pool middle_pool) as [d| |] eqn:Hd;
    [|done..].
  simpl in Hc.
  destruct (graph.__init__ _ _ 2 (as_edge_getter d)) as [g| |] eqn:Hg;
    [|done..].
  exists d, g. split; [reflexivity|]. split; [exact Hg|exact Hc].
Defined.

Lemma disconnected_iff_no_valid_path_witness :
  ∃ g, gpf2 = Ok g ∧
    (graph.is_disconnected g = false ↔
     ∃ p, valid_path (test_graph.as_edge_getter test_graph.dg2)
            {[1]} {[3]} (Z.to_nat 5) p) ∧
    (graph.is_disconnected g = false →
     ∃ m ps, ps ≠ [] ∧
       ∀ fuel, (m ≤ fuel)%nat →
         graph.get_all_paths g fuel = Ok (ps, StopIteration)) ∧
    (graph.is_disconnected g = true →
     (∀ fuel, graph.get_all_paths g fuel = Raise ValueError) ∧
     ∀ draws, run (graph.get_random_path g) draws 0 = Raise ValueError).
Proof.
  destruct gpf2_built as (g & Hg & _). exists g. split; [done|].
  apply (disconnected_iff_no_valid_path
           (test_graph.as_edge_getter test_graph.dg2) (λ _, True)
           {[1]} {[3]} 5 g (test_graph_lawful _)); done.
Defined.

Lemma step_sets_mutually_reachable_witness :
  ∃ g, gpf2 = Ok g ∧
    length (graph._step_sets g) = Z.to_nat 5 ∧
    ∀ i s v, graph._step_sets g !! i = Some s → v ∈ s →
      ((i < Z.to_nat 5 - 1)%nat →
       ∃ s' w, graph._step_sets g !! (i + 1)%nat = Some s' ∧ w ∈ s' ∧
               edge (test_graph.as_edge_getter test_graph.dg2) v w ∧
               redge (test_graph.as_edge_getter test_graph.dg2) v w) ∧
      ((0 < i)%nat →
       ∃ s' u, graph._step_sets g !! (i - 1)%nat = Some s' ∧ u ∈ s' ∧
               edge (test_graph.as_edge_getter test_graph.dg2) u v ∧
               redge (test_graph.as_edge_getter test_graph.dg2) u v).
Proof.
  destruct gpf2_built as (g & Hg & Hflag). exists g. split; [done|].
  apply (step_sets_mutually_reachable
           (test_graph.as_edge_getter test_graph.dg2) (λ _, True)
           {[1]} {[3]} 5 g (test_graph_lawful _)); done.
Defined.

Lemma all_paths_exactly_valid_paths_witness :
  ∃ d g, dedge.__init__ middle_pool middle_pool = Ok d ∧
    graph.__init__ {["xx"; "xy"; "xz"]} {["xx"; "yx"]} 2 (as_edge_getter d)
    = Ok g ∧
    ∃ m ps,
      (∀ fuel, (m ≤ fuel)%nat →
         graph.get_all_paths g fuel = Ok (ps, StopIteration)) ∧
      (∀ t, t ∈ ps →
         ∃ p, t = Some <$> p ∧ length p = Z.to_nat 2 ∧
              (∃ v s, head p = Some v ∧
                      graph._step_sets g !! 0%nat = Some s ∧ v ∈ s) ∧
              (∃ v s, last p = Some v ∧
                      graph._step_sets g !! (Z.to_nat 2 - 1)%nat = Some s ∧
                      v ∈ s) ∧
              linked (as_edge_getter d) p) ∧
      (∀ p, valid_path (as_edge_getter d) {["xx"; "xy"; "xz"]}
              {["xx"; "yx"]} (Z.to_nat 2) p →
            (Some <$> p) ∈ ps) ∧
      NoDup ps.
Proof.
  destruct middle_gpf_built as (d & g & Hd & Hg & Hflag).
  exists d, g. split; [done|]. split; [done|].
  apply (all_paths_exactly_valid_paths (as_edge_getter d)
           (λ v, v ∈ middle_pool) {["xx"; "xy"; "xz"]} {["xx"; "yx"]} 2 g
           (dedge_lawful _ _ Hd)); [| |exact Hg|exact Hflag].
  - intros v Hv. repeat (apply elem_of_union in Hv as [Hv|Hv]);
      apply elem_of_singleton in Hv; subst v; unfold middle_pool;
      repeat first [apply list_elem_of_here | apply list_elem_of_further].
  - intros v Hv. repeat (apply elem_of_union in Hv as [Hv|Hv]);
      apply elem_of_singleton in Hv; subst v; unfold middle_pool;
      repeat first [apply list_elem_of_here | apply list_elem_of_further].
Defined.

Lemma random_path_among_all_paths_witness :
  ∃ g, gpf2 = Ok g ∧
    ∃ m ps,
      (∀ fuel, (m ≤ fuel)%nat →
         graph.get_all_paths g fuel = Ok (ps, StopIteration)) ∧
      ∀ draws, ∃ t, run (graph.get_random_path g) draws 0 = Ok t ∧ t ∈ ps.
Proof.
  destruct gpf2_built as (g & Hg & Hflag). exists g. split; [done|].
  apply (random_path_among_all_paths
           (test_graph.as_edge_getter test_graph.dg2) (λ _, True)
           {[1]} {[3]} 5 g (test_graph_lawful _)); done.
Defined.

Lemma step_sets_are_path_vertices_witness :
  ∃ g, gpf2 = Ok g ∧
    ∃ m ps,
      (∀ fuel, (m ≤ fuel)%nat →
         graph.get_all_paths g fuel = Ok (ps, StopIteration)) ∧
      (∀ i s v, graph._step_sets g !! i = Some s →
         (v ∈ s ↔ ∃ t, t ∈ ps ∧ t !! i = Some (Some v))) ∧
      (∀ i s v, graph._step_sets g !! i = Some s → v ∈ s →
         ((0 < i)%nat →
          ∃ starts before,
            graph.get_start_vertices (graph._dedge g) v = Ok starts ∧
            graph._step_sets g !! (i - 1)%nat = Some before ∧
            starts ∩ before ≠ ∅) ∧
         ((i < Z.to_nat 5 - 1)%nat →
          ∃ ends after,
            graph.get_end_vertices (graph._dedge g) v = Ok ends ∧
            graph._step_sets g !! (i + 1)%nat = Some after ∧
            ends ∩ after ≠ ∅)) ∧
      (∀ draws, ∃ t, run (graph.get_random_path g) draws 0 = Ok t).
Proof.
  destruct gpf2_built as (g & Hg & Hflag). exists g. split; [done|].
  apply (step_sets_are_path_vertices
           (test_graph.as_edge_getter test_graph.dg2) (λ _, True)
           {[1]} {[3]} 5 g (test_graph_lawful _)); done.
Defined.

(** ** More fuel does not change a finished generator *)

Lemma gen_run_mono {V : Type} `{Countable V} (g : graph.GraphPathFinder V)
    (fuel : nat) : ∀ st ys e k,
  graph.gen_run g fuel st = (ys, e) → e ≠ Unfinished →
  graph.gen_run g (fuel + k) st = (ys, e).
Proof using Type.
  induction fuel as [|fuel IH]; intros st ys e k Hrun He; simpl in *.
  - injection Hrun as <- <-. done.
  - destruct (graph.gen_step g st) as [[[[tuple|] st']|]| |]; try done.
    + destruct (graph.gen_run g fuel st') as [ys' e'] eqn:Hrun'.
      unfold yield_first in Hrun. simpl in Hrun. injection Hrun as <- <-.
      by rewrite (IH st' ys' e' k Hrun' He).
    + by apply IH.
Qed.

Lemma get_all_paths_mono {V : Type} `{Countable V}
    (g : graph.GraphPathFinder V) (fuel fuel' : nat) ps e :
  graph.get_all_paths g fuel = Ok (ps, e) → e ≠ Unfinished →
  (fuel ≤ fuel')%nat →
  graph.get_all_paths g fuel' = Ok (ps, e).
Proof using Type.
  unfold graph.get_all_paths, graph._get_all_paths_generator.
  destruct (graph.is_disconnected g); [done|].
  intros [= Hrun] He Hle. f_equal.
  destruct (graph.gen_init g) as [st| |]; simpl in *; try done.
  replace fuel' with (fuel + (fuel' - fuel))%nat by lia.
  by apply gen_run_mono.
Qed.

(** The path generator a [SequenceCreator] holds is one of two: the list
    of the single middle vertices, or [get_all_paths] of a path finder. *)
Lemma paths_fn_mono L lead mid trail sc fn (fuel fuel' : nat) ps e :
  create.__init__ L lead mid trail = Ok sc →
  create._get_all_paths_fn sc = Some fn →
  fn fuel = Ok (ps, e) → e ≠ Unfinished → (fuel ≤ fuel')%nat →
  fn fuel' = Ok (ps, e).
Proof using Type.
  unfold create.__init__. intros Hinit Hfn Hrun He Hle.
  repeat match type of Hinit with
  | (?r ≫= _) = Ok _ =>
      let H := fresh "H" in
      destruct r eqn:H; simpl in Hinit; try discriminate
  end.
  case_bool_decide; [by injection Hinit as <-|].
  repeat match type of Hinit with
  | (?r ≫= _) = Ok _ =>
      let H := fresh "H" in
      destruct r eqn:H; simpl in Hinit; try discriminate
  end.
  case_bool_decide.
  - injection Hinit as <-. unfold create._single_middle_vertex_init in Hfn.
    case_bool_decide; simpl in Hfn; [done|]. by injection Hfn as <-.
  - unfold create._multi_middle_vertex_init in Hinit.
    repeat match type of Hinit with
    | (?r ≫= _) = Ok _ =>
        let H := fresh "H" in
        destruct r eqn:H; simpl in Hinit; try discriminate
    end.
    injection Hinit as <-. simpl in Hfn. injection Hfn as <-.
    by eapply get_all_paths_mono.
Qed.

Lemma get_all_sequences_mono L lead mid trail sc fn (fuel fuel' : nat) ps e :
  create.__init__ L lead mid trail = Ok sc →
  create._get_all_paths_fn sc = Some fn →
  fn fuel = Ok (ps, e) → e ≠ Unfinished → (fuel ≤ fuel')%nat →
  create.get_all_sequences sc fuel' = create.get_all_sequences sc fuel.
Proof using Type.
  intros Hinit Hfn Hrun He Hle. unfold create.get_all_sequences.
  rewrite Hfn, Hrun.
  by rewrite (paths_fn_mono _ _ _ _ _ _ _ _ _ _ Hinit Hfn Hrun He Hle).
Qed.

(** ** The sequence creator *)

Lemma start_overlap_dict_from_total start_ngs : ∀ d K ls,
  (∀ ng, ng ∈ start_ngs → len ng = ls) →
  ∃ d', dedge._get_start_overlap_dict_from d start_ngs K ls = Ok d'.
Proof using Type.
  induction start_ngs as [|ng rest IH]; intros d K ls Hall; simpl.
  - by eexists.
  - rewrite bool_decide_eq_false_2.
    + apply IH. intros ng' Hng'. apply Hall. by right.
    + intros Hne. apply Hne, Hall. by left.
Qed.

Lemma end_overlap_dict_from_total end_ngs : ∀ d K le,
  (∀ ng, ng ∈ end_ngs → len ng = le) →
  ∃ d', dedge._get_end_overlap_dict_from d end_ngs K le = Ok d'.
Proof using Type.
  induction end_ngs as [|ng rest IH]; intros d K le Hall; simpl.
  - by eexists.
  - rewrite bool_decide_eq_true_2 by (apply Hall; by left).
    apply IH. intros ng' Hng'. apply Hall. by right.
Qed.

(** A pool accepted as an end pool is accepted as both pools of an edge
    getter of its own. *)
Lemma dedge_init_pool S pool d :
  dedge.__init__ S pool = Ok d → ∃ d', dedge.__init__ pool pool = Ok d'.
Proof using Type.
  intros Hinit. pose proof (init_built _ _ _ Hinit) as Hb.
  unfold dedge.__init__ in *.
  destruct S as [|s0 S]; [done|]. destruct pool as [|p0 pool]; [done|].
  assert (len p0 = dedge._len_end d) as Hp0.
  { apply (built_end_len _ _ _ Hb). by left. }
  pose proof (built_len_end _ _ _ Hb) as Hge.
  rewrite bool_decide_eq_false_2 by lia.
  unfold dedge._get_start_overlap_dict, dedge._get_end_overlap_dict.
  destruct (start_overlap_dict_from_total (p0 :: pool) ∅
              (Z.min (len p0) (len p0) - 1) (len p0)) as [sd Hsd].
  { intros ng Hng. rewrite Hp0. by apply (built_end_len _ _ _ Hb). }
  destruct (end_overlap_dict_from_total (p0 :: pool) ∅
              (Z.min (len p0) (len p0) - 1) (len p0)) as [ed Hed].
  { intros ng Hng. rewrite Hp0. by apply (built_end_len _ _ _ Hb). }
  rewrite Hsd. unfold mbind, result_bind at 1. rewrite Hed. by eexists.
Qed.

Lemma middle_start_vertices_total lead mid l2m :
  dedge.__init__ lead mid = Ok l2m →
  ∃ sv, create.middle_start_vertices l2m lead mid = Ok sv.
Proof using Type.
  intros Hb%init_built. apply expand_update_total. intros x Hx.
  destruct (get_end_vertices_built lead mid l2m x Hb) as (es & Hes & _);
    [by apply (built_start_len _ _ _ Hb)|by exists es].
Qed.

Lemma middle_end_vertices_total mid trail m2t :
  dedge.__init__ mid trail = Ok m2t →
  ∃ ev, create.middle_end_vertices m2t mid trail = Ok ev.
Proof using Type.
  intros Hb%init_built. apply expand_update_total. intros x Hx.
  destruct (get_start_vertices_built mid trail m2t x Hb) as (ss & Hss & _);
    [by apply (built_end_len _ _ _ Hb)|by exists ss].
Qed.

(** A sequence creator that can produce nothing: the flag is set, the
    random sequence raises [ValueError] whatever is drawn, and the generator
    of all sequences raises [ValueError] before it yields anything. *)
Definition produces_nothing (sc : create.SequenceCreator) : Prop :=
  create.is_disconnected sc = true ∧
  (∀ draws, run (create.get_random_sequence sc) draws 0 = Raise ValueError) ∧
  (∀ fuel, create.get_all_sequences sc fuel = ([], Raised ValueError)).

Lemma disconnected_produces_nothing sc :
  create.is_disconnected sc = true → produces_nothing sc.
Proof using Type.
  intros Hflag. split; [done|].
  unfold create.get_random_sequence, create.get_all_sequences.
  by rewrite Hflag.
Qed.

(** C8 (no edge at a boundary): when no middle n-gram has an edge from a
    leading n-gram, or none has an edge to a trailing n-gram, construction
    completes with [is_disconnected()] true, [get_random_sequence()] raises
    [ValueError], and [get_all_sequences()] raises [ValueError] when its
    first value is asked for; this is so for leading ["aa"], middle ["xx"],
    trailing ["11"] and length 5. *)
Theorem no_boundary_edges_disconnected :
  (∀ (L : Z) (lead mid trail : list string)
     (l2m m2t : dedge.DirectedEdgeGetter),
     dedge.__init__ lead mid = Ok l2m →
     dedge.__init__ mid trail = Ok m2t →
     create.middle_start_vertices l2m lead mid = Ok ∅ ∨
     create.middle_end_vertices m2t mid trail = Ok ∅ →
     ∃ sc, create.__init__ L lead mid trail = Ok sc ∧ produces_nothing sc) ∧
  (∃ sc, create.__init__ 5 ["aa"] ["xx"] ["11"] = Ok sc ∧
         produces_nothing sc).
Proof using Type.
  split.
  - intros L lead mid trail l2m m2t Hl2m Hm2t Hempty.
    destruct (middle_start_vertices_total _ _ _ Hl2m) as [sv Hsv].
    destruct (middle_end_vertices_total _ _ _ Hm2t) as [ev Hev].
    unfold create.__init__. rewrite Hl2m. simpl. rewrite Hm2t. simpl.
    rewrite Hsv. simpl. rewrite Hev. simpl.
    rewrite bool_decide_eq_true_2.
    + eexists. split; [done|]. by apply disconnected_produces_nothing.
    + destruct Hempty as [Hempty|Hempty]; rewrite Hempty in *.
      * left. injection Hsv as <-. apply size_empty.
      * right. injection Hev as <-. apply size_empty.
  - destruct (create.__init__ 5 ["aa"] ["xx"] ["11"]) as [sc| |] eqn:Hsc;
      [|by vm_compute in Hsc..].
    exists sc. split; [done|]. apply disconnected_produces_nothing.
    assert (match create.__init__ 5 ["aa"] ["xx"] ["11"] with
            | Ok sc' => create.is_disconnected sc'
            | _ => false
            end = true) as Hc by (by vm_compute).
    by rewrite Hsc in Hc.
Qed.

Lemma no_boundary_edges_disconnected_witness :
  ∃ l2m m2t sc,
    dedge.__init__ ["aa"] ["xx"] = Ok l2m ∧
    dedge.__init__ ["xx"] ["11"] = Ok m2t ∧
    create.middle_start_vertices l2m ["aa"] ["xx"] = Ok ∅ ∧
    create.__init__ 5 ["aa"] ["xx"] ["11"] = Ok sc ∧ produces_nothing sc.
Proof using Type.
  destruct (dedge.__init__ ["aa"] ["xx"]) as [l2m| |] eqn:Hl2m;
    [|by vm_compute in Hl2m..].
  destruct (dedge.__init__ ["xx"] ["11"]) as [m2t| |] eqn:Hm2t;
    [|by vm_compute in Hm2t..].
  assert (create.middle_start_vertices l2m ["aa"] ["xx"] = Ok ∅) as Hsv.
  { assert (match dedge.__init__ ["aa"] ["xx"] with
            | Ok d => match create.middle_start_vertices d ["aa"] ["xx"] with
                      | Ok sv => bool_decide (sv = ∅)
                      | _ => false
                      end
            | _ => false
            end = true) as Hc by (by vm_compute).
    rewrite Hl2m in Hc.
    destruct (create.middle_start_vertices l2m ["aa"] ["xx"]) as [sv| |];
      [|done..].
    by apply bool_decide_eq_true_1 in Hc as ->. }
  destruct (proj1 no_boundary_edges_disconnected 5 ["aa"] ["xx"] ["11"]
              l2m m2t Hl2m Hm2t (or_introl Hsv)) as (sc & Hsc & Hnothing).
  by exists l2m, m2t, sc.
Defined.

(** C10 (a length below the shortest sequence): when both sets of boundary
    middle n-grams are non-empty and the requested length asks for fewer
    than one middle vertex, [__init__] raises [ValueError], the one
    [GraphPathFinder] raises for fewer than two vertices; the requested
    length is then below the length of a sequence with a single middle
    vertex. *)
Theorem too_short_length_raises (L : Z) (lead mid trail : list string)
    (l2m m2t : dedge.DirectedEdgeGetter) (sv ev : gset string) :
  dedge.__init__ lead mid = Ok l2m →
  dedge.__init__ mid trail = Ok m2t →
  create.middle_start_vertices l2m lead mid = Ok sv →
  create.middle_end_vertices m2t mid trail = Ok ev →
  sv ≠ ∅ → ev ≠ ∅ →
  create._get_num_middle_vertices L (dedge._len_start l2m)
    (dedge._len_end l2m) (dedge._len_end m2t) < 1 →
  create.__init__ L lead mid trail = Raise ValueError ∧
  L < create.get_len_single_middle_vertex (dedge._len_start l2m)
        (dedge._len_end l2m) (dedge._len_end m2t).
Proof using Type.
  intros Hl2m Hm2t Hsv Hev Hsne Hene Hnum.
  split; [|unfold create._get_num_middle_vertices in Hnum; lia].
  pose proof (init_built _ _ _ Hl2m) as Hb1.
  pose proof (init_built _ _ _ Hm2t) as Hb2.
  destruct (dedge_init_pool _ _ _ Hl2m) as [mm Hmm].
  unfold create.__init__. rewrite Hl2m. simpl. rewrite Hm2t. simpl.
  rewrite Hsv. simpl. rewrite Hev. simpl.
  rewrite bool_decide_eq_false_2.
  2:{ intros [Hz%size_empty_inv|Hz%size_empty_inv];
        apply leibniz_equiv in Hz; done. }
  destruct lead as [|l0 lead]; [done|]. destruct mid as [|m0 mid]; [done|].
  destruct trail as [|t0 trail].
  { unfold dedge.__init__ in Hm2t. done. }
  unfold getitem. simpl.
  rewrite (built_start_len _ _ _ Hb1 l0) by (by left).
  rewrite (built_end_len _ _ _ Hb1 m0) by (by left).
  rewrite (built_end_len _ _ _ Hb2 t0) by (by left).
  rewrite bool_decide_eq_false_2 by lia.
  unfold create._multi_middle_vertex_init. rewrite Hmm.
  unfold mbind, result_bind at 1. unfold graph.__init__.
  assert (size sv ≠ 0%nat) as Hs1.
  { intros Hz%size_empty_inv. by apply leibniz_equiv in Hz. }
  assert (size ev ≠ 0%nat) as Hs2.
  { intros Hz%size_empty_inv. by apply leibniz_equiv in Hz. }
  rewrite !bool_decide_eq_false_2 by lia.
  by rewrite bool_decide_eq_true_2 by lia.
Qed.

Definition leading_pool : list string := ["ax"; "bx"; "aa"].
Definition trailing_pool : list string := ["x1"; "x2"; "11"].

Lemma too_short_length_raises_witness :
  create.__init__ 3 leading_pool middle_pool trailing_pool
  = Raise ValueError.
Proof using Type.
  destruct (dedge.__init__ leading_pool middle_pool) as [l2m| |] eqn:Hl2m;
    [|by vm_compute in Hl2m..].
  destruct (dedge.__init__ middle_pool trailing_pool) as [m2t| |] eqn:Hm2t;
    [|by vm_compute in Hm2t..].
  assert (match dedge.__init__ leading_pool middle_pool,
                dedge.__init__ middle_pool trailing_pool with
          | Ok d1, Ok d2 =>
              match create.middle_start_vertices d1 leading_pool middle_pool,
                    create.middle_end_vertices d2 middle_pool trailing_pool
              with
              | Ok sv, Ok ev =>
                  bool_decide (sv ≠ ∅) && bool_decide (ev ≠ ∅)
                  && bool_decide
                       (create._get_num_middle_vertices 3
                          (dedge._len_start d1) (dedge._len_end d1)
                          (dedge._len_end d2) < 1)
              | _, _ => false
              end
          | _, _ => false
          end = true) as Hc by (by vm_compute).
  rewrite Hl2m, Hm2t in Hc.
  destruct (create.middle_start_vertices l2m leading_pool middle_pool)
    as [sv| |] eqn:Hsv; [|done..].
  destruct (create.middle_end_vertices m2t middle_pool trailing_pool)
    as [ev| |] eqn:Hev; [|done..].
  apply andb_prop in Hc as [[Hs He]%andb_prop Hnum].
  apply bool_decide_eq_true_1 in Hs, He, Hnum.
  exact (proj1 (too_short_length_raises 3 leading_pool middle_pool
                  trailing_pool l2m m2t sv ev Hl2m Hm2t Hsv Hev Hs He Hnum)).
Defined.

(** The eight sequences of the end-to-end scenario. *)
Definition expected_sequences : gset string :=
  {["axxx1"; "bxxx1"; "axyx1"; "bxyx1"; "axxx2"; "bxxx2"; "axyx2"; "bxyx2"]}.

(** What is checked by evaluation on the creator of the scenario. *)
Definition scenario_check (sc : create.SequenceCreator) : bool :=
  negb (create.is_disconnected sc)
  && match create._get_all_paths_fn sc with
     | Some fn =>
         match fn 100%nat with
         | Ok (_, StopIteration) => true
         | _ => false
         end
     | None => false
     end
  && match create.get_all_sequences sc 100 with
     | (seqs, StopIteration) =>
         bool_decide (list_to_set seqs = expected_sequences)
     | _ => false
     end
  && forallb (λ r, match r with
                   | Ok s => bool_decide (s ∈ expected_sequences)
                   | _ => false
                   end)
       (outcomes (create.get_random_sequence sc)).

(** C6 (end-to-end scenario): for length 5 and the n-grams of the test
    suite, the creator is connected, [get_all_sequences()] ends after
    yielding exactly the eight expected strings, and [get_random_sequence()]
    returns one of them whatever the random source draws. *)
Theorem end_to_end_scenario :
  ∃ sc,
    create.__init__ 5 leading_pool middle_pool trailing_pool = Ok sc ∧
    create.is_disconnected sc = false ∧
    (∃ m, ∀ fuel, (m ≤ fuel)%nat →
       ∃ seqs, create.get_all_sequences sc fuel = (seqs, StopIteration) ∧
               list_to_set seqs = expected_sequences) ∧
    (∀ draws, ∃ s, run (create.get_random_sequence sc) draws 0 = Ok s ∧
                   s ∈ expected_sequences).
Proof using Type.
  assert (match create.__init__ 5 leading_pool middle_pool trailing_pool with
          | Ok sc' => scenario_check sc'
          | _ => false
          end = true) as Hc by (vm_compute; reflexivity).
  revert Hc.
  destruct (create.__init__ 5 leading_pool middle_pool trailing_pool)
    as [sc| |] eqn:Hsc; intros Hc; [|discriminate Hc..].
  unfold scenario_check in Hc.
  apply andb_prop in Hc as [[[Hflag Hfn]%andb_prop Hall]%andb_prop Hrand].
  exists sc. split_and!; [done| | |].
  - by destruct (create.is_disconnected sc).
  - exists 100%nat. intros fuel Hfuel.
    destruct (create._get_all_paths_fn sc) as [fn|] eqn:Hfn';
      [|discriminate Hfn].
    destruct (fn 100%nat) as [[ps e]| |] eqn:Hrun; [|discriminate Hfn..].
    destruct e; [|discriminate Hfn..].
    rewrite (get_all_sequences_mono _ _ _ _ _ _ 100 fuel _ _ Hsc Hfn' Hrun)
      by (discriminate || lia).
    destruct (create.get_all_sequences sc 100) as [seqs e].
    destruct e; [|discriminate Hall..].
    exists seqs. split; [reflexivity|]. by apply bool_decide_eq_true_1 in Hall.
  - intros draws.
    pose proof (run_in_outcomes (create.get_random_sequence sc) draws 0) as Hin.
    apply list_elem_of_In in Hin.
    rewrite forallb_forall in Hrand. specialize (Hrand _ Hin).
    destruct (run (create.get_random_sequence sc) draws 0) as [s| |];
      [|done..].
    exists s. split; [done|]. by apply bool_decide_eq_true_1 in Hrand.
Qed.

(** ** Lengths of slices and of concatenations *)

Lemma string_length_app (a b : string) :
  String.length (a +:+ b) = (String.length a + String.length b)%nat.
Proof using Type.
  induction a as [|x a IH]; [done|].
  change (S (String.length (a +:+ b))
          = S (String.length a + String.length b)).
  by rewrite IH.
Qed.

Lemma string_length_substring (s : string) : ∀ n m,
  (n + m ≤ String.length s)%nat →
  String.length (String.substring n m s) = m.
Proof using Type.
  induction s as [|x s IH]; intros n m Hle; simpl in *.
  - destruct n, m; simpl; lia.
  - destruct n as [|n].
    + destruct m as [|m]; [done|]. simpl. rewrite IH; lia.
    + apply IH. lia.
Qed.

Lemma len_app (a b : string) : len (a +:+ b) = len a + len b.
Proof using Type. unfold len. rewrite string_length_app. lia. Qed.

Lemma len_nonneg (s : string) : 0 ≤ len s.
Proof using Type. unfold len. lia. Qed.

Lemma len_slice_from (s : string) (i : Z) :
  0 ≤ i ≤ len s → len (slice_from s i) = len s - i.
Proof using Type.
  intros Hi. unfold slice_from, slice_bound.
  destruct (Z.ltb_spec i 0) as [?|_]; [lia|].
  rewrite Z.min_l by lia. unfold len at 1.
  rewrite string_length_substring; unfold len in *; lia.
Qed.

Lemma len_slice_to (s : string) (j : Z) :
  0 ≤ j ≤ len s → len (slice_to s j) = j.
Proof using Type.
  intros Hj. unfold slice_to, slice_bound.
  destruct (Z.ltb_spec j 0) as [?|_]; [lia|].
  rewrite Z.min_l by lia. unfold len at 1.
  rewrite string_length_substring; unfold len in *; lia.
Qed.

(** What the middle and trailing n-grams add after a middle n-gram. *)
Lemma len_overlap_tail_middle (mids : list string) : ∀ x trail m t,
  1 ≤ m → 1 ≤ t → len x = m → (∀ y, y ∈ mids → len y = m) → len trail = t →
  len (overlap_tail x (mids ++ [trail]))
  = Z.of_nat (length mids) + (t - Z.min m t + 1).
Proof using Type.
  induction mids as [|y mids IH]; intros x trail m t Hm Ht Hx Hall Htrail.
  - simpl. rewrite len_app, len_slice_from, Hx, Htrail by lia.
    change (len "") with 0. lia.
  - change ((y :: mids) ++ [trail]) with (y :: (mids ++ [trail])).
    assert (len y = m) as Hy by (apply Hall; by left).
    simpl overlap_tail. rewrite len_app, len_slice_from, Hx, Hy by lia.
    rewrite (IH y trail m t) by (try done; intros; apply Hall; by right).
    rewrite Z.min_id. simpl length. lia.
Qed.

(** The length of a sequence assembled from one leading n-gram, at least
    one middle n-gram and one trailing n-gram. *)
Theorem concat_sequence_length (lead trail : string) (mids : list string)
    (l m t : Z) :
  1 ≤ l → 1 ≤ m → 1 ≤ t → mids ≠ [] →
  len lead = l → (∀ y, y ∈ mids → len y = m) → len trail = t →
  ∃ s, create._concat_ngram_list ([lead] ++ mids ++ [trail]) = Ok s ∧
       len s = create.get_len_single_middle_vertex l m t
               + Z.of_nat (length mids) - 1 ∧
       ∀ L, create._get_num_middle_vertices L l m t
            = Z.of_nat (length mids) → len s = L.
Proof using Type.
  intros Hl Hm Ht Hne Hlead Hall Htrail.
  destruct mids as [|x mids]; [done|].
  exists (lead +:+ overlap_tail lead ((x :: mids) ++ [trail])).
  assert (len (lead +:+ overlap_tail lead ((x :: mids) ++ [trail]))
          = create.get_len_single_middle_vertex l m t
            + Z.of_nat (length (x :: mids)) - 1) as Hlen.
  { assert (len x = m) as Hx by (apply Hall; by left).
    change ((x :: mids) ++ [trail]) with (x :: (mids ++ [trail])).
    simpl overlap_tail. rewrite !len_app, len_slice_from, Hlead, Hx by lia.
    rewrite (len_overlap_tail_middle mids x trail m t)
      by (try done; intros; apply Hall; by right).
    unfold create.get_len_single_middle_vertex. simpl length. lia. }
  split_and!.
  - exact (concat_loop_spec ((x :: mids) ++ [trail]) [] lead lead).
  - done.
  - intros L HL. rewrite Hlen, <- HL.
    unfold create._get_num_middle_vertices. lia.
Qed.

Lemma concat_sequence_length_witness :
  ∃ s, create._concat_ngram_list (["Icter"] ++ ["teri"; "eris"] ++ ["rise"])
       = Ok s ∧
       len s = create.get_len_single_middle_vertex 5 4 4 + Z.of_nat 2 - 1 ∧
       ∀ L, create._get_num_middle_vertices L 5 4 4 = Z.of_nat 2 →
            len s = L.
Proof using Type.
  apply (concat_sequence_length "Icter" "rise" ["teri"; "eris"] 5 4 4);
    try lia; try done.
  intros y Hy. apply elem_of_cons in Hy as [->|Hy]; [done|].
  apply elem_of_cons in Hy as [->|Hy]; [done|]. by apply elem_of_nil in Hy.
Defined.

(** ** The outcomes of building and querying an edge getter *)

(** All n-grams of [pool] have length [k]. *)
Definition uniform (pool : list string) (k : Z) : Prop :=
  ∀ x, x ∈ pool → len x = k.

Lemma start_overlap_dict_from_outcome start_ngs : ∀ d K ls,
  match dedge._get_start_overlap_dict_from d start_ngs K ls with
  | Ok _ => uniform start_ngs ls
  | Raise ValueError => ¬ uniform start_ngs ls
  | _ => False
  end.
Proof using Type.
  induction start_ngs as [|ng rest IH]; intros d K ls; simpl.
  - intros x Hx. by apply elem_of_nil in Hx.
  - case_bool_decide as Hlen.
    + intros Hu. apply Hlen, Hu. by left.
    + specialize (IH (dedge.setdefault_add d (slice_from ng (- K)) ng) K ls).
      destruct (dedge._get_start_overlap_dict_from _ rest K ls) as [d'|[]|];
        try done.
      * intros x [->|Hx]%elem_of_cons; [|by apply IH].
        by destruct (decide (len ng = ls)).
      * intros Hu. apply IH. intros x Hx. apply Hu. by right.
Qed.

Lemma end_overlap_dict_from_outcome end_ngs : ∀ d K le,
  match dedge._get_end_overlap_dict_from d end_ngs K le with
  | Ok _ => uniform end_ngs le
  | Raise AssertionError => ¬ uniform end_ngs le
  | _ => False
  end.
Proof using Type.
  induction end_ngs as [|ng rest IH]; intros d K le; simpl.
  - intros x Hx. by apply elem_of_nil in Hx.
  - case_bool_decide as Hlen.
    + specialize (IH (dedge.setdefault_add d (slice_to ng K) ng) K le).
      destruct (dedge._get_end_overlap_dict_from _ rest K le) as [d'|[]|];
        try done.
      * intros x [->|Hx]%elem_of_cons; [done|by apply IH].
      * intros Hu. apply IH. intros x Hx. apply Hu. by right.
    + intros Hu. apply Hlen, Hu. by left.
Qed.

(** [DirectedEdgeGetter.__init__] succeeds exactly on two non-empty pools
    of n-grams of one length each, both lengths at least 2; a bad start
    pool, an empty pool or a short n-gram give [ValueError]; an end pool of
    mixed lengths, met after everything else passed, stops at the [assert]
    in [_get_end_overlap_dict]. *)
Theorem dedge_init_outcome (start_ngs end_ngs : list string) :
  match dedge.__init__ start_ngs end_ngs with
  | Ok d =>
      ∃ s0 e0, head start_ngs = Some s0 ∧ head end_ngs = Some e0 ∧
        2 ≤ len s0 ∧ 2 ≤ len e0 ∧
        uniform start_ngs (len s0) ∧ uniform end_ngs (len e0) ∧
        dedge._len_start d = len s0 ∧ dedge._len_end d = len e0 ∧
        dedge._len_overlap d = Z.min (len s0) (len e0) - 1
  | Raise ValueError =>
      start_ngs = [] ∨ end_ngs = [] ∨
      ∃ s0 e0, head start_ngs = Some s0 ∧ head end_ngs = Some e0 ∧
        (len s0 < 2 ∨ len e0 < 2 ∨ ¬ uniform start_ngs (len s0))
  | Raise AssertionError =>
      ∃ s0 e0, head start_ngs = Some s0 ∧ head end_ngs = Some e0 ∧
        2 ≤ len s0 ∧ 2 ≤ len e0 ∧
        uniform start_ngs (len s0) ∧ ¬ uniform end_ngs (len e0)
  | _ => False
  end.
Proof using Type.
  unfold dedge.__init__.
  destruct start_ngs as [|s0 S]; [by left|].
  destruct end_ngs as [|e0 E]; [right; by left|].
  case_bool_decide as Hlen.
  { right; right. exists s0, e0. split_and!; [done..|]. lia. }
  unfold dedge._get_start_overlap_dict, dedge._get_end_overlap_dict.
  pose proof (start_overlap_dict_from_outcome (s0 :: S) ∅
                (Z.min (len s0) (len e0) - 1) (len s0)) as Hs.
  destruct (dedge._get_start_overlap_dict_from ∅ (s0 :: S) _ _)
    as [sd|[]|]; try done.
  2:{ right; right. exists s0, e0. split_and!; [done..|]. by right; right. }
  unfold mbind, result_bind at 1.
  pose proof (end_overlap_dict_from_outcome (e0 :: E) ∅
                (Z.min (len s0) (len e0) - 1) (len e0)) as He.
  destruct (dedge._get_end_overlap_dict_from ∅ (e0 :: E) _ _)
    as [ed|[]|]; try done.
  - exists s0, e0. simpl. split_and!; try done; lia.
  - exists s0, e0. split_and!; try done; lia.
Qed.

(** The two queries of a built edge getter: an n-gram of another length
    than the pool's gives [ValueError]; any n-gram of the pool's length, in
    the pool or not, gets the n-grams of the other pool that overlap it. *)
Theorem dedge_queries (start_ngs end_ngs : list string)
    (d : dedge.DirectedEdgeGetter) (q : string) :
  dedge.__init__ start_ngs end_ngs = Ok d →
  (if bool_decide (len q = dedge._len_start d)
   then ∃ es, dedge.get_end_vertices d q = Ok es ∧
          ∀ e, e ∈ es ↔
               e ∈ end_ngs ∧
               slice_to e (dedge._len_overlap d)
               = slice_from q (- dedge._len_overlap d)
   else dedge.get_end_vertices d q = Raise ValueError) ∧
  (if bool_decide (len q = dedge._len_end d)
   then ∃ ss, dedge.get_start_vertices d q = Ok ss ∧
          ∀ s, s ∈ ss ↔
               s ∈ start_ngs ∧
               slice_from s (- dedge._len_overlap d)
               = slice_to q (dedge._len_overlap d)
   else dedge.get_start_vertices d q = Raise ValueError).
Proof using Type.
  intros Hb%init_built. split; case_bool_decide as Hlen.
  - by apply (get_end_vertices_built start_ngs end_ngs).
  - unfold dedge.get_end_vertices. by rewrite bool_decide_eq_true_2.
  - by apply (get_start_vertices_built start_ngs end_ngs).
  - unfold dedge.get_start_vertices. by rewrite bool_decide_eq_true_2.
Qed.

Lemma dedge_queries_witness :
  ∃ d, dedge.__init__ ["abc"; "xbd"] ["bcd"; "bce"; "xcd"] = Ok d ∧
    (if bool_decide (len "zbc" = dedge._len_start d)
     then ∃ es, dedge.get_end_vertices d "zbc" = Ok es ∧
            ∀ e, e ∈ es ↔
                 e ∈ ["bcd"; "bce"; "xcd"] ∧
                 slice_to e (dedge._len_overlap d)
                 = slice_from "zbc" (- dedge._len_overlap d)
     else dedge.get_end_vertices d "zbc" = Raise ValueError) ∧
    (if bool_decide (len "zbc" = dedge._len_end d)
     then ∃ ss, dedge.get_start_vertices d "zbc" = Ok ss ∧
            ∀ s, s ∈ ss ↔
                 s ∈ ["abc"; "xbd"] ∧
                 slice_from s (- dedge._len_overlap d)
                 = slice_to "zbc" (dedge._len_overlap d)
     else dedge.get_start_vertices d "zbc" = Raise ValueError).
Proof using Type.
  destruct (dedge.__init__ ["abc"; "xbd"] ["bcd"; "bce"; "xcd"])
    as [d| |] eqn:Hd; [|by vm_compute in Hd..].
  exists d. split; [reflexivity|].
  exact (dedge_queries _ _ d "zbc" Hd).
Defined.

(** ** An edge is an overlap the concatenation keeps *)

Lemma substring_split (s : string) : ∀ k,
  (k ≤ String.length s)%nat →
  String.substring 0 k s +:+ String.substring k (String.length s - k) s = s.
Proof using Type.
  induction s as [|x s IH]; intros k Hk; simpl in *.
  - by destruct k.
  - destruct k as [|k]; simpl.
    + change (String x (String.substring 0 (String.length s) s) = String x s).
      f_equal. specialize (IH 0%nat ltac:(lia)).
      rewrite Nat.sub_0_r in IH.
      destruct s; simpl in *; [done|]. exact IH.
    + change (String x (String.substring 0 k s
                        +:+ String.substring k (String.length s - k) s)
              = String x s).
      f_equal. apply IH. lia.
Qed.

Lemma substring_all (s : string) :
  String.substring 0 (String.length s) s = s.
Proof using Type.
  induction s as [|x s IH]; simpl; [done|]. by rewrite IH.
Qed.

Lemma substring_app_l (a b : string) :
  String.substring 0 (String.length a) (a +:+ b) = a.
Proof using Type.
  induction a as [|x a IH]; simpl.
  - by destruct b.
  - change (String x (String.substring 0 (String.length a) (a +:+ b))
            = String x a).
    by rewrite IH.
Qed.

Lemma substring_app_r (a b : string) :
  String.substring (String.length a) (String.length b) (a +:+ b) = b.
Proof using Type.
  induction a as [|x a IH]; simpl.
  - apply substring_all.
  - exact IH.
Qed.

(** When the last [K] characters of [s] are the first [K] of [e], adding
    [e] from index [K] on to [s] is adding [e] whole to [s] without its last
    [K] characters. *)
Lemma overlap_concat (s e : string) (K : nat) :
  (K ≤ String.length s)%nat → (K ≤ String.length e)%nat →
  String.substring (String.length s - K) K s = String.substring 0 K e →
  s +:+ String.substring K (String.length e - K) e
  = String.substring 0 (String.length s - K) s +:+ e.
Proof using Type.
  intros Hs He Ho.
  rewrite <- (substring_split s (String.length s - K)) at 1 by lia.
  replace (String.length s - (String.length s - K))%nat with K by lia.
  rewrite Ho, string_app_assoc. by rewrite substring_split.
Qed.

(** An edge and the concatenation: when [e] is among the end vertices of
    [s], concatenating the two gives a string that starts with [s], ends
    with [e], and is one character longer than the longer of the two. *)
Theorem edge_concat_keeps_both (start_ngs end_ngs : list string)
    (d : dedge.DirectedEdgeGetter) (s e : string) (es : gset string) :
  dedge.__init__ start_ngs end_ngs = Ok d →
  s ∈ start_ngs → dedge.get_end_vertices d s = Ok es → e ∈ es →
  ∃ c, create._concat_ngram_list [s; e] = Ok c ∧
       slice_to c (len s) = s ∧
       slice_from c (len c - len e) = e ∧
       len c = Z.max (len s) (len e) + 1.
Proof using Type.
  intros Hb%init_built Hs Hes He.
  pose proof (built_start_len _ _ _ Hb s Hs) as Hls.
  destruct (get_end_vertices_built _ _ _ s Hb Hls) as (es' & Hes' & Hin).
  rewrite Hes in Hes'. injection Hes' as <-.
  apply Hin in He as [He Ho].
  pose proof (built_end_len _ _ _ Hb e He) as Hle.
  pose proof (built_overlap _ _ _ Hb) as HK.
  pose proof (built_len_start _ _ _ Hb) as H2s.
  pose proof (built_len_end _ _ _ Hb) as H2e.
  set (K := Z.to_nat (dedge._len_overlap d)).
  assert (Z.of_nat K = dedge._len_overlap d) as HKz by lia.
  assert (K ≤ String.length s)%nat as HKs by (unfold len in *; lia).
  assert (K ≤ String.length e)%nat as HKe by (unfold len in *; lia).
  assert (slice_from e (Z.min (len s) (len e) - 1)
          = String.substring K (String.length e - K) e) as Hslice.
  { unfold slice_from, slice_bound.
    destruct (Z.ltb_spec (Z.min (len s) (len e) - 1) 0) as [?|_]; [lia|].
    rewrite Z.min_l by lia. f_equal; unfold len in *; lia. }
  assert (String.substring (String.length s - K) K s
          = String.substring 0 K e) as Ho'.
  { unfold slice_to, slice_from, slice_bound in Ho.
    destruct (Z.ltb_spec (dedge._len_overlap d) 0) as [?|_]; [lia|].
    destruct (Z.ltb_spec (- dedge._len_overlap d) 0) as [_|?]; [|lia].
    rewrite Z.min_l, Z.max_l in Ho by lia.
    transitivity
      (String.substring (Z.to_nat (- dedge._len_overlap d + len s))
         (Z.to_nat (len s - (- dedge._len_overlap d + len s))) s);
      [f_equal; unfold len; lia|].
    rewrite <- Ho. f_equal; lia. }
  exists (s +:+ String.substring K (String.length e - K) e).
  split_and!.
  - transitivity (Ok (s +:+ overlap_tail s [e]));
      [exact (concat_loop_spec [e] [] s s)|].
    simpl overlap_tail. by rewrite string_app_empty_r, Hslice.
  - unfold slice_to, slice_bound.
    destruct (Z.ltb_spec (len s) 0) as [?|_]; [unfold len in *; lia|].
    rewrite Z.min_l by (rewrite len_app; pose proof (len_nonneg
      (String.substring K (String.length e - K) e)); lia).
    unfold len. rewrite Nat2Z.id. apply substring_app_l.
  - rewrite (overlap_concat s e K HKs HKe Ho').
    unfold slice_from, slice_bound. rewrite len_app.
    set (a := String.substring 0 (String.length s - K) s).
    assert (String.length a = (String.length s - K)%nat) as Ha
      by (apply string_length_substring; lia).
    destruct (Z.ltb_spec (len a + len e - len e) 0) as [?|_];
      [unfold len in *; lia|].
    rewrite Z.min_l by (unfold len in *; lia).
    replace (Z.to_nat (len a + len e - len e)) with (String.length a)
      by (unfold len; lia).
    replace (Z.to_nat (len a + len e - (len a + len e - len e)))
      with (String.length e) by (unfold len; lia).
    apply substring_app_r.
  - rewrite len_app. unfold len at 2.
    rewrite string_length_substring by lia. unfold len in *. lia.
Qed.

Lemma edge_concat_keeps_both_witness :
  ∃ c, create._concat_ngram_list ["abc"; "bcd"] = Ok c ∧
       slice_to c (len "abc") = "abc" ∧
       slice_from c (len c - len "bcd") = "bcd" ∧
       len c = Z.max (len "abc") (len "bcd") + 1.
Proof using Type.
  assert (match dedge.__init__ ["abc"; "xbd"] ["bcd"; "bce"; "xcd"] with
          | Ok d => match dedge.get_end_vertices d "abc" with
                    | Ok es => bool_decide ("bcd" ∈ es)
                    | _ => false
                    end
          | _ => false
          end = true) as Hc by (vm_compute; reflexivity).
  revert Hc.
  destruct (dedge.__init__ ["abc"; "xbd"] ["bcd"; "bce"; "xcd"])
    as [d| |] eqn:Hd; intros Hc; [|discriminate Hc..].
  destruct (dedge.get_end_vertices d "abc") as [es| |] eqn:Hes;
    [|discriminate Hc..].
  apply bool_decide_eq_true_1 in Hc.
  apply (edge_concat_keeps_both ["abc"; "xbd"] ["bcd"; "bce"; "xcd"]
           d "abc" "bcd" es Hd); [apply list_elem_of_here|exact Hes|exact Hc].
Defined.

(** ** More about a path finder *)



(** The tuples of a connected path finder are the valid paths, as the
    docstrings of [get_all_paths] and [get_random_path] say: a tuple is
    yielded exactly when it is a valid path from the start set to the end
    set, and the random path is one. *)
Theorem paths_are_valid_paths {V : Type} `{Countable V}
    (dg : graph.edge_getter V) (U : V → Prop)
    (start_vertices end_vertices : gset V) (N : Z)
    (g : graph.GraphPathFinder V) :
  lawful dg U →
  (∀ v, v ∈ start_vertices → U v) → (∀ v, v ∈ end_vertices → U v) →
  graph.__init__ start_vertices end_vertices N dg = Ok g →
  graph.is_disconnected g = false →
  (∃ m ps,
     (∀ fuel, (m ≤ fuel)%nat →
        graph.get_all_paths g fuel = Ok (ps, StopIteration)) ∧
     ∀ t, t ∈ ps ↔
          ∃ p, t = Some <$> p ∧
               valid_path dg start_vertices end_vertices (Z.to_nat N) p) ∧
  (∀ draws, ∃ p,
     run (graph.get_random_path g) draws 0 = Ok (Some <$> p) ∧
     valid_path dg start_vertices end_vertices (Z.to_nat N) p).
Proof using Type.
  intros Hlawful Hstart Hend Hinit Hflag.
  pose proof (searched_valid dg U start_vertices end_vertices N g
                Hlawful Hstart Hend Hinit) as Hvalid.
  split.
  - destruct (all_paths_yielded dg U start_vertices end_vertices N g
                Hlawful Hstart Hend Hinit Hflag) as [m Hm].
    exists m, (all_paths N g). split; [done|]. intros t.
    unfold all_paths. rewrite list_elem_of_fmap. split.
    + intros (p & -> & Hp). exists p. split; [done|]. by apply Hvalid.
    + intros (p & -> & Hp). exists p. split; [done|]. by apply Hvalid.
  - intros draws.
    destruct (rand_all_run _ _
                (random_path_spec dg U start_vertices end_vertices N g
                   Hlawful Hstart Hend Hinit Hflag) draws 0%nat)
      as (t & Ht & (p & -> & Hp)%list_elem_of_fmap).
    exists p. split; [done|]. by apply Hvalid.
Qed.

Lemma paths_are_valid_paths_witness :
  ∃ g, gpf2 = Ok g ∧
    (∃ m ps,
       (∀ fuel, (m ≤ fuel)%nat →
          graph.get_all_paths g fuel = Ok (ps, StopIteration)) ∧
       ∀ t, t ∈ ps ↔
            ∃ p, t = Some <$> p ∧
                 valid_path (test_graph.as_edge_getter test_graph.dg2)
                   {[1]} {[3]} (Z.to_nat 5) p) ∧
    (∀ draws, ∃ p,
       run (graph.get_random_path g) draws 0 = Ok (Some <$> p) ∧
       valid_path (test_graph.as_edge_getter test_graph.dg2)
         {[1]} {[3]} (Z.to_nat 5) p).
Proof using Type.
  destruct gpf2_built as (g & Hg & Hflag). exists g. split; [exact Hg|].
  apply (paths_are_valid_paths
           (test_graph.as_edge_getter test_graph.dg2) (λ _, True)
           {[1]} {[3]} 5 g (test_graph_lawful _)); done.
Defined.

(** A graph without edges is disconnected: when the edge getter lists no
    vertex for any query, every path finder built on it has the flag set,
    whatever the start set, the end set and the number of vertices. *)
Theorem no_edges_disconnected {V : Type} `{Countable V}
    (dg : graph.edge_getter V) (start_vertices end_vertices : gset V)
    (N : Z) (g : graph.GraphPathFinder V) :
  (∀ v, graph.get_end_vertices dg v = Ok ∅) →
  (∀ v, graph.get_start_vertices dg v = Ok ∅) →
  graph.__init__ start_vertices end_vertices N dg = Ok g →
  graph.is_disconnected g = true.
Proof using Type.
  intros Hno_end Hno_start Hinit.
  assert (lawful dg (λ _, True)) as Hlawful.
  { split.
    - intros v _. exists ∅. by split; [|set_solver].
    - intros v _. exists ∅. by split; [|set_solver].
    - intros v w _ _. unfold edge, redge. split.
      + intros (s & Hs & Hw). rewrite Hno_end in Hs. set_solver.
      + intros (s & Hs & Hw). rewrite Hno_start in Hs. set_solver. }
  destruct (graph.is_disconnected g) eqn:Hflag; [done|]. exfalso.
  destruct (built_connected dg (λ _, True) start_vertices end_vertices N g
              Hlawful ltac:(done) ltac:(done) Hinit Hflag)
    as (_ & Hsets & v & Hv).
  pose proof (built_n dg (λ _, True) start_vertices end_vertices N g
                Hlawful ltac:(done) ltac:(done) Hinit) as Hn.
  destruct (built_on_path_succ dg (λ _, True) start_vertices end_vertices
              N g Hlawful ltac:(done) ltac:(done) Hinit 0 v)
    as (w & _ & (s & Hs & Hw) & _); [lia|by apply Hsets|].
  rewrite Hno_end in Hs. set_solver.
Qed.

Lemma no_edges_disconnected_witness :
  ∃ g, graph.__init__ {[1]} {[2]} 5
         (test_graph.as_edge_getter test_graph.empty) = Ok g ∧
       graph.is_disconnected g = true.
Proof using Type.
  destruct (graph.__init__ ({[1]} : gset Z) {[2]} 5
              (test_graph.as_edge_getter test_graph.empty))
    as [g| |] eqn:Hg; [|by vm_compute in Hg..].
  exists g. split; [reflexivity|].
  apply (no_edges_disconnected (test_graph.as_edge_getter test_graph.empty)
           {[1]} {[2]} 5 g); [done|done|exact Hg].
Defined.

(** ** A constructed sequence creator *)

Lemma result_bind_Ok {A B : Type} (a : A) (f : A → result B) :
  Ok a ≫= f = f a.
Proof using Type. done. Qed.

Lemma graph_init_ok {V : Type} `{Countable V}
    (dg : graph.edge_getter V) (U : V → Prop)
    (start_vertices end_vertices : gset V) (N : Z) :
  lawful dg U →
  (∀ v, v ∈ start_vertices → U v) → (∀ v, v ∈ end_vertices → U v) →
  start_vertices ≠ ∅ → end_vertices ≠ ∅ → 2 ≤ N →
  ∃ g, graph.__init__ start_vertices end_vertices N dg = Ok g.
Proof using Type.
  intros Hlawful Hstart Hend Hs He HN. unfold graph.__init__.
  assert (size start_vertices ≠ 0%nat) as Hs'.
  { intros Hz%size_empty_inv%leibniz_equiv. done. }
  assert (size end_vertices ≠ 0%nat) as He'.
  { intros Hz%size_empty_inv%leibniz_equiv. done. }
  rewrite !bool_decide_eq_false_2 by lia.
  destruct (build_step_sets_spec dg U start_vertices end_vertices
              (Z.to_nat N) Hlawful Hstart Hend ltac:(lia))
    as (steps & flag & Hrun & _).
  rewrite Hrun. simpl. by eexists.
Qed.

(** The middle n-grams with an edge from a leading n-gram, and those with
    an edge to a trailing n-gram. *)
Lemma middle_start_vertices_spec lead mid l2m sv :
  dedge.__init__ lead mid = Ok l2m →
  create.middle_start_vertices l2m lead mid = Ok sv →
  ∀ x, x ∈ sv ↔
       x ∈ mid ∧ ∃ a ss, a ∈ lead ∧
                         dedge.get_start_vertices l2m x = Ok ss ∧ a ∈ ss.
Proof using Type.
  intros Hb%init_built Hsv x. unfold create.middle_start_vertices in Hsv.
  rewrite (expand_update_spec _ _ _ _ Hsv), elem_of_list_to_set. split.
  - intros (Hx & a & es & Ha & Hes & Hxes). split; [done|].
    destruct (get_end_vertices_built lead mid l2m a Hb) as (es' & Hes' & Hin);
      [by apply (built_start_len _ _ _ Hb)|].
    destruct (get_start_vertices_built lead mid l2m x Hb) as (ss & Hss & Hin');
      [by apply (built_end_len _ _ _ Hb)|].
    exists a, ss. split_and!; [done..|]. apply Hin'.
    assert (x ∈ es') as Hx' by congruence. apply Hin in Hx'. naive_solver.
  - intros (Hx & a & ss & Ha & Hss & Hass). split; [done|].
    destruct (get_end_vertices_built lead mid l2m a Hb) as (es & Hes & Hin);
      [by apply (built_start_len _ _ _ Hb)|].
    destruct (get_start_vertices_built lead mid l2m x Hb) as (ss' & Hss' & Hin');
      [by apply (built_end_len _ _ _ Hb)|].
    exists a, es. split_and!; [done..|]. apply Hin.
    assert (a ∈ ss') as Ha' by congruence. apply Hin' in Ha'. naive_solver.
Qed.

Lemma middle_end_vertices_spec mid trail m2t ev :
  dedge.__init__ mid trail = Ok m2t →
  create.middle_end_vertices m2t mid trail = Ok ev →
  ∀ x, x ∈ ev ↔
       x ∈ mid ∧ ∃ b es, b ∈ trail ∧
                         dedge.get_end_vertices m2t x = Ok es ∧ b ∈ es.
Proof using Type.
  intros Hb%init_built Hev x. unfold create.middle_end_vertices in Hev.
  rewrite (expand_update_spec _ _ _ _ Hev), elem_of_list_to_set. split.
  - intros (Hx & b & ss & Hbt & Hss & Hxss). split; [done|].
    destruct (get_start_vertices_built mid trail m2t b Hb) as (ss' & Hss' & Hin);
      [by apply (built_end_len _ _ _ Hb)|].
    destruct (get_end_vertices_built mid trail m2t x Hb) as (es & Hes & Hin');
      [by apply (built_start_len _ _ _ Hb)|].
    exists b, es. split_and!; [done..|]. apply Hin'.
    assert (x ∈ ss') as Hx' by congruence. apply Hin in Hx'. naive_solver.
  - intros (Hx & b & es & Hbt & Hes & Hbes). split; [done|].
    destruct (get_start_vertices_built mid trail m2t b Hb) as (ss & Hss & Hin);
      [by apply (built_end_len _ _ _ Hb)|].
    destruct (get_end_vertices_built mid trail m2t x Hb) as (es' & Hes' & Hin');
      [by apply (built_start_len _ _ _ Hb)|].
    exists b, ss. split_and!; [done..|]. apply Hin.
    assert (b ∈ es') as Hb' by congruence. apply Hin' in Hb'. naive_solver.
Qed.

(** What a connected creator was built from. *)
Record created (L : Z) (lead mid trail : list string)
    (sc : create.SequenceCreator) (sv ev : gset string) (num : Z)
    : Prop := {
  created_l2m :
    dedge.__init__ lead mid = Ok (create._leading_to_middle_dedge sc);
  created_m2t :
    dedge.__init__ mid trail = Ok (create._middle_to_trailing_dedge sc);
  created_sv :
    create.middle_start_vertices (create._leading_to_middle_dedge sc)
      lead mid = Ok sv;
  created_ev :
    create.middle_end_vertices (create._middle_to_trailing_dedge sc)
      mid trail = Ok ev;
  created_num :
    num = create._get_num_middle_vertices L
            (dedge._len_start (create._leading_to_middle_dedge sc))
            (dedge._len_end (create._leading_to_middle_dedge sc))
            (dedge._len_end (create._middle_to_trailing_dedge sc));
  created_paths :
    (num = 1 ∧ sv ∩ ev ≠ ∅ ∧
     create._get_random_path_fn sc
     = Some (v ← choice (elements (sv ∩ ev)); mret [Some v]) ∧
     create._get_all_paths_fn sc
     = Some (λ _, Ok ((λ x, [Some x]) <$> elements (sv ∩ ev),
                      StopIteration))) ∨
    (num ≠ 1 ∧
     ∃ mm gpf,
       dedge.__init__ mid mid = Ok mm ∧
       graph.__init__ sv ev num (as_edge_getter mm) = Ok gpf ∧
       graph.is_disconnected gpf = false ∧
       create._get_random_path_fn sc = Some (graph.get_random_path gpf) ∧
       create._get_all_paths_fn sc = Some (graph.get_all_paths gpf))
}.

Lemma create_init_inv L lead mid trail sc :
  create.__init__ L lead mid trail = Ok sc →
  create.is_disconnected sc = false →
  ∃ sv ev num, created L lead mid trail sc sv ev num.
Proof using Type.
  unfold create.__init__. intros Hinit Hflag.
  destruct (dedge.__init__ lead mid) as [l2m| |] eqn:Hl2m; [|done..].
  destruct (dedge.__init__ mid trail) as [m2t| |] eqn:Hm2t; [|done..].
  rewrite !result_bind_Ok in Hinit.
  destruct (create.middle_start_vertices l2m lead mid) as [sv| |] eqn:Hsv;
    [|done..].
  destruct (create.middle_end_vertices m2t mid trail) as [ev| |] eqn:Hev;
    [|done..].
  rewrite !result_bind_Ok in Hinit.
  case_bool_decide as Hempty.
  { injection Hinit as <-. done. }
  pose proof (init_built _ _ _ Hl2m) as Hb1.
  pose proof (init_built _ _ _ Hm2t) as Hb2.
  destruct lead as [|l0 lead]; [done|]. destruct mid as [|m0 mid]; [done|].
  destruct trail as [|t0 trail]; [done|].
  unfold getitem in Hinit. simpl in Hinit.
  rewrite (built_start_len _ _ _ Hb1 l0) in Hinit by (by left).
  rewrite (built_end_len _ _ _ Hb1 m0) in Hinit by (by left).
  rewrite (built_end_len _ _ _ Hb2 t0) in Hinit by (by left).
  exists sv, ev,
    (create._get_num_middle_vertices L (dedge._len_start l2m)
       (dedge._len_end l2m) (dedge._len_end m2t)).
  case_bool_decide as Hnum.
  - injection Hinit as <-. unfold create._single_middle_vertex_init in *.
    case_bool_decide as Hmid; [done|]. simpl in *.
    split; simpl; try done. left. split_and!; try done.
    intros Hz. apply Hmid. rewrite Hz. apply size_empty.
  - unfold create._multi_middle_vertex_init in Hinit.
    destruct (dedge.__init__ (m0 :: mid) (m0 :: mid)) as [mm| |] eqn:Hmm;
      [|done..].
    rewrite !result_bind_Ok in Hinit.
    destruct (graph.__init__ sv ev _ (as_edge_getter mm)) as [gpf| |] eqn:Hgpf;
      [|done..].
    simpl in Hinit. injection Hinit as <-. simpl in *.
    split; simpl; try done. right. split; [done|]. by exists mm, gpf.
Qed.

Lemma for_each_all_stop {A B : Type} (xs : list A) (body : A → trace B)
    (after : ending) :
  (∀ x, x ∈ xs → (body x).2 = StopIteration) →
  for_each xs body after = (xs ≫= (λ x, (body x).1), after).
Proof using Type.
  induction xs as [|x xs IH]; intros Hstop; [done|].
  simpl. specialize (Hstop x ltac:(by left)) as Hx.
  destruct (body x) as [ys e] eqn:Hbody. simpl in Hx. subst e.
  rewrite IH by (intros; apply Hstop; by right).
  done.
Qed.

Lemma path_vertices_fmap (p : list string) :
  create.path_vertices (Some <$> p) = Ok p.
Proof using Type.
  unfold create.path_vertices.
  induction p as [|x p IH]; [done|]. csimpl. by rewrite IH.
Qed.

Lemma last_vertex_fmap (p : list string) (e : string) :
  last p = Some e → create.last_vertex (Some <$> p) = Ok e.
Proof using Type.
  intros Hlast. unfold create.last_vertex.
  apply last_Some in Hlast as [p' ->].
  rewrite fmap_app. change (Some <$> [e]) with [Some e].
  by rewrite last_snoc.
Qed.

(** The string assembled from a leading n-gram, a path and a trailing
    n-gram. *)
Definition assemble (a : string) (p : list string) (b : string) : string :=
  a +:+ overlap_tail a (p ++ [b]).

Lemma concat_assemble a p b :
  create._concat_ngram_list ([a] ++ p ++ [b]) = Ok (assemble a p b).
Proof using Type.
  unfold create._concat_ngram_list, assemble. simpl.
  rewrite Nat.sub_0_r. exact (concat_loop_spec (p ++ [b]) [] a a).
Qed.

Lemma concat_assemble_cons a p b :
  create._concat_ngram_list (a :: p ++ [b]) = Ok (assemble a p b).
Proof using Type. exact (concat_assemble a p b). Qed.

Lemma len_assemble a p b l m t :
  1 ≤ l → 1 ≤ m → 1 ≤ t → p ≠ [] →
  len a = l → (∀ y, y ∈ p → len y = m) → len b = t →
  len (assemble a p b)
  = create.get_len_single_middle_vertex l m t + Z.of_nat (length p) - 1.
Proof using Type.
  intros Hl Hm Ht Hne Ha Hall Hb. destruct p as [|x p]; [done|].
  assert (len x = m) as Hx by (apply Hall; by left).
  unfold assemble. change ((x :: p) ++ [b]) with (x :: (p ++ [b])).
  simpl overlap_tail. rewrite !len_app, len_slice_from, Ha, Hx by lia.
  rewrite (len_overlap_tail_middle p x b m t)
    by (try done; intros; apply Hall; by right).
  unfold create.get_len_single_middle_vertex. simpl length. lia.
Qed.

Lemma elements_nonempty (X : gset string) : X ≠ ∅ → elements X ≠ [].
Proof using Type. intros HX Hnil. by apply elements_empty_inv, leibniz_equiv in Hnil. Qed.

Section creator.
Variables (L : Z) (lead mid trail : list string).
Variable sc : create.SequenceCreator.
Variables (sv ev : gset string) (num : Z).
Hypothesis Hcreated : created L lead mid trail sc sv ev num.

Local Notation l2m := (create._leading_to_middle_dedge sc).
Local Notation m2t := (create._middle_to_trailing_dedge sc).

(** A path of middle n-grams as the creator uses it. *)
Definition good_path (p : list string) : Prop :=
  (∀ x, x ∈ p → x ∈ mid) ∧ Z.of_nat (length p) = num ∧
  (∃ f, head p = Some f ∧ f ∈ sv) ∧ (∃ e, last p = Some e ∧ e ∈ ev).

(** The sequences one path gives, in the order of the two loops. *)
Definition path_sequences (p : list string) : list string :=
  match head p, last p with
  | Some f, Some e =>
      match dedge.get_start_vertices l2m f, dedge.get_end_vertices m2t e with
      | Ok leads, Ok trails =>
          a ← elements leads; b ← elements trails; [assemble a p b]
      | _, _ => []
      end
  | _, _ => []
  end.

Lemma sv_mid x : x ∈ sv → x ∈ mid.
Proof.
  intros Hx.
  by apply (middle_start_vertices_spec _ _ _ _ (created_l2m _ _ _ _ _ _ _ _ Hcreated)
              (created_sv _ _ _ _ _ _ _ _ Hcreated)) in Hx as [Hx _].
Qed.

Lemma ev_mid x : x ∈ ev → x ∈ mid.
Proof.
  intros Hx.
  by apply (middle_end_vertices_spec _ _ _ _ (created_m2t _ _ _ _ _ _ _ _ Hcreated)
              (created_ev _ _ _ _ _ _ _ _ Hcreated)) in Hx as [Hx _].
Qed.

Lemma good_path_sequences p :
  good_path p →
  ∃ f e leads trails,
    head p = Some f ∧ last p = Some e ∧
    dedge.get_start_vertices l2m f = Ok leads ∧
    dedge.get_end_vertices m2t e = Ok trails ∧
    leads ≠ ∅ ∧ trails ≠ ∅ ∧
    create.sequences_of_path sc (Some <$> p)
    = (path_sequences p, StopIteration) ∧
    ∀ s, s ∈ path_sequences p → len s = L.
Proof.
  intros (Hmid & Hlen & (f & Hf & Hfsv) & (e & He & Heev)).
  pose proof (created_l2m _ _ _ _ _ _ _ _ Hcreated) as Hl2m.
  pose proof (created_m2t _ _ _ _ _ _ _ _ Hcreated) as Hm2t.
  pose proof (init_built _ _ _ Hl2m) as Hb1.
  pose proof (init_built _ _ _ Hm2t) as Hb2.
  apply (middle_start_vertices_spec _ _ _ _ Hl2m
           (created_sv _ _ _ _ _ _ _ _ Hcreated)) in Hfsv
    as (Hfmid & a0 & leads & Ha0 & Hleads & Ha0in).
  apply (middle_end_vertices_spec _ _ _ _ Hm2t
           (created_ev _ _ _ _ _ _ _ _ Hcreated)) in Heev
    as (Hemid & b0 & trails & Hb0 & Htrails & Hb0in).
  exists f, e, leads, trails.
  assert (p ≠ []) as Hne by (intros ->; done).
  assert (∀ a, a ∈ leads → a ∈ lead) as Hleads_in.
  { intros a Ha.
    destruct (get_start_vertices_built lead mid l2m f Hb1) as (ss & Hss & Hin);
      [by apply (built_end_len _ _ _ Hb1)|].
    assert (a ∈ ss) as Ha' by congruence. by apply Hin in Ha' as [Ha' _]. }
  assert (∀ b, b ∈ trails → b ∈ trail) as Htrails_in.
  { intros b Hb.
    destruct (get_end_vertices_built mid trail m2t e Hb2) as (es & Hes & Hin);
      [by apply (built_start_len _ _ _ Hb2)|].
    assert (b ∈ es) as Hb' by congruence. by apply Hin in Hb' as [Hb' _]. }
  split_and!; try done; try set_solver.
  - unfold create.sequences_of_path, path_sequences.
    unfold graph.vertex_at, getitem. rewrite list_lookup_fmap.
    rewrite <- head_lookup, Hf, He. simpl. rewrite Hleads. simpl.
    rewrite (last_vertex_fmap p e He). simpl. rewrite Htrails. simpl.
    rewrite path_vertices_fmap. simpl.
    rewrite for_each_all_stop.
    + f_equal. apply list_bind_ext; [|done]. intros a.
      rewrite for_each_all_stop.
      * simpl. apply list_bind_ext; [|done]. intros b.
        by rewrite (concat_assemble_cons a p b).
      * intros b _. by rewrite (concat_assemble_cons a p b).
    + intros a _. rewrite for_each_all_stop; [done|].
      intros b _. by rewrite (concat_assemble_cons a p b).
  - intros s. unfold path_sequences. rewrite Hf, He, Hleads, Htrails.
    intros (a & (b & Hs%list_elem_of_singleton & Hb%elem_of_elements)
                   %list_elem_of_bind & Ha%elem_of_elements)%list_elem_of_bind.
    subst s.
    rewrite (len_assemble a p b (dedge._len_start l2m) (dedge._len_end l2m)
               (dedge._len_end m2t)).
    + rewrite Hlen, (created_num _ _ _ _ _ _ _ _ Hcreated).
      unfold create._get_num_middle_vertices. lia.
    + pose proof (built_len_start _ _ _ Hb1). lia.
    + pose proof (built_len_end _ _ _ Hb1). lia.
    + pose proof (built_len_end _ _ _ Hb2). lia.
    + done.
    + by apply (built_start_len _ _ _ Hb1), Hleads_in.
    + intros y Hy. by apply (built_end_len _ _ _ Hb1), Hmid.
    + by apply (built_end_len _ _ _ Hb2), Htrails_in.
Qed.

(** The paths of the creator: the generator it holds ends with a list of
    good paths, not empty, and its random path is one of them. *)
Lemma creator_paths :
  ∃ m ps fn rfn,
    create._get_all_paths_fn sc = Some fn ∧
    create._get_random_path_fn sc = Some rfn ∧
    (∀ fuel, (m ≤ fuel)%nat →
       fn fuel = Ok ((λ p : list string, Some <$> p) <$> ps, StopIteration)) ∧
    ps ≠ [] ∧ (∀ p, p ∈ ps → good_path p) ∧
    rand_all (λ t, ∃ p, t = Some <$> p ∧ p ∈ ps) rfn.
Proof.
  destruct (created_paths _ _ _ _ _ _ _ _ Hcreated)
    as [(Hnum & Hmid & Hrfn & Hfn)
       |(Hnum & mm & gpf & Hmm & Hgpf & Hflag & Hrfn & Hfn)].
  - exists 0%nat, ((λ x, [x]) <$> elements (sv ∩ ev)). eexists _, _.
    split_and!; [exact Hfn|exact Hrfn| | | |].
    + intros fuel _. by rewrite <- list_fmap_compose.
    + intros Hnil%fmap_nil_inv. by apply elements_nonempty in Hnil.
    + intros p (x & -> & [Hxs Hxe]%elem_of_elements%elem_of_intersection)
               %list_elem_of_fmap.
      split_and!.
      * intros y ->%list_elem_of_singleton. by apply sv_mid.
      * simpl. lia.
      * by exists x.
      * by exists x.
    + apply (rand_all_bind _ (choice _)), rand_all_choice;
        [by apply elements_nonempty|].
      intros x Hx. simpl. exists [x]. split; [done|].
      by apply (list_elem_of_fmap_2 (λ x, [x])).
  - pose proof (dedge_lawful mid mm Hmm) as Hlawful.
    pose proof (built_n _ _ sv ev num gpf Hlawful sv_mid ev_mid Hgpf) as Hn.
    destruct (all_paths_yielded _ _ sv ev num gpf Hlawful sv_mid ev_mid
                Hgpf Hflag) as [m Hm].
    pose proof (searched_valid _ _ sv ev num gpf Hlawful sv_mid ev_mid Hgpf)
      as Hvalid.
    exists m, (searched gpf (Z.to_nat num - 1) 0 (elements (step_set gpf 0))).
    eexists _, _. split_and!; [exact Hfn|exact Hrfn|exact Hm| | |].
    + destruct (built_connected _ _ sv ev num gpf Hlawful sv_mid ev_mid
                  Hgpf Hflag) as (_ & Hsets & v & Hv).
      apply Hsets in Hv.
      destruct (built_on_path_valid_path _ _ sv ev num gpf Hlawful sv_mid
                  ev_mid Hgpf 0 v Hv) as (p & Hp & _).
      apply Hvalid in Hp; [|done]. intros Hnil. rewrite Hnil in Hp.
      by apply elem_of_nil in Hp.
    + intros p Hp%Hvalid; [|done].
      destruct Hp as (Hlen & (f & Hf & Hfs) & (e & He & Hee) & Hlinked).
      split_and!.
      * by apply (linked_U _ _ sv ev (Z.to_nat num) Hlawful sv_mid ev_mid
                    Hn p f).
      * lia.
      * by exists f.
      * by exists e.
    + eapply rand_all_mono;
        [|exact (random_path_spec _ _ sv ev num gpf Hlawful sv_mid ev_mid
                   Hgpf Hflag)].
      intros t (p & -> & Hp)%list_elem_of_fmap. by exists p.
Qed.

End creator.

Lemma creator_delivers (L : Z) (lead mid trail : list string)
    (sc : create.SequenceCreator) :
  create.__init__ L lead mid trail = Ok sc →
  create.is_disconnected sc = false →
  ∃ m seqs,
    (∀ fuel, (m ≤ fuel)%nat →
       create.get_all_sequences sc fuel = (seqs, StopIteration)) ∧
    seqs ≠ [] ∧
    (∀ s, s ∈ seqs → len s = L) ∧
    (∀ draws, ∃ s, run (create.get_random_sequence sc) draws 0 = Ok s ∧
                   s ∈ seqs).
Proof using Type.
  intros Hinit Hflag.
  destruct (create_init_inv _ _ _ _ _ Hinit Hflag) as (sv & ev & num & Hc).
  destruct (creator_paths _ _ _ _ _ _ _ _ Hc)
    as (m & ps & fn & rfn & Hfn & Hrfn & Hrun & Hne & Hgood & Hrand).
  pose proof (good_path_sequences _ _ _ _ _ _ _ _ Hc) as Hseqs.
  set (paths := (λ p : list string, Some <$> p) <$> ps).
  exists m, (paths ≫= (λ x, (create.sequences_of_path sc x).1)).
  assert (∀ s, s ∈ paths ≫= (λ x, (create.sequences_of_path sc x).1) ↔
               ∃ p, p ∈ ps ∧ s ∈ path_sequences sc p) as Hmem.
  { intros s. rewrite list_elem_of_bind. split.
    - intros (t & Hs & (p & -> & Hp)%list_elem_of_fmap). exists p.
      split; [done|].
      destruct (Hseqs p (Hgood p Hp)) as (f & e & leads & trails & Hf & He & Hleads & Htrails & Hl & Ht
          & Heq & Hlen).
      by rewrite Heq in Hs.
    - intros (p & Hp & Hs). exists (Some <$> p).
      split; [|by apply list_elem_of_fmap_2].
      destruct (Hseqs p (Hgood p Hp)) as (f & e & leads & trails & Hf & He & Hleads & Htrails & Hl & Ht
          & Heq & Hlen).
      by rewrite Heq. }
  split_and!.
  - intros fuel Hfuel. unfold create.get_all_sequences.
    rewrite Hflag, Hfn, (Hrun fuel Hfuel). simpl. fold paths.
    apply for_each_all_stop.
    intros t (p & -> & Hp)%list_elem_of_fmap.
    destruct (Hseqs p (Hgood p Hp)) as (f & e & leads & trails & Hf & He & Hleads & Htrails & Hl & Ht
          & Heq & Hlen).
    by rewrite Heq.
  - destruct ps as [|p ps']; [done|].
    destruct (Hseqs p (Hgood p ltac:(by left)))
      as (f & e & leads & trails & Hf & He & Hleads & Htrails & Hl & Ht & _).
    apply set_choose_L in Hl as [a Ha]. apply set_choose_L in Ht as [b Hb].
    assert (assemble a p b ∈ path_sequences sc p) as Hin.
    { unfold path_sequences. rewrite Hf, He, Hleads, Htrails.
      apply list_elem_of_bind. exists a. split; [|by apply elem_of_elements].
      apply list_elem_of_bind. exists b. split; [|by apply elem_of_elements].
      by apply list_elem_of_singleton. }
    intros Hnil.
    assert (assemble a p b ∈ paths ≫= (λ x, (create.sequences_of_path sc x).1))
      as Hin' by (apply Hmem; exists p; split; [by left|done]).
    rewrite Hnil in Hin'. by apply elem_of_nil in Hin'.
  - intros s (p & Hp & Hs)%Hmem.
    destruct (Hseqs p (Hgood p Hp)) as (f & e & leads & trails & Hf & He & Hleads & Htrails & Hl & Ht
          & Heq & Hlen).
    by apply Hlen.
  - intros draws. apply rand_all_run.
    unfold create.get_random_sequence. rewrite Hflag, Hrfn.
    apply rand_all_bind. eapply rand_all_mono; [|exact Hrand].
    intros t (p & -> & Hp).
    destruct (Hseqs p (Hgood p Hp))
      as (f & e & leads & trails & Hf & He & Hleads & Htrails & Hl & Ht & _).
    unfold graph.vertex_at, getitem. rewrite list_lookup_fmap.
    rewrite <- head_lookup, Hf. simpl. rewrite Hleads. simpl.
    apply (rand_all_bind _ (choice _)), rand_all_choice;
      [by apply elements_nonempty|].
    intros a Ha. rewrite (last_vertex_fmap p e He). simpl.
    rewrite Htrails. simpl.
    apply (rand_all_bind _ (choice _)), rand_all_choice;
      [by apply elements_nonempty|].
    intros b Hb. rewrite path_vertices_fmap. simpl.
    rewrite (concat_assemble_cons a p b). simpl.
    apply Hmem. exists p. split; [done|].
    unfold path_sequences. rewrite Hf, He, Hleads, Htrails.
    apply list_elem_of_bind. exists a. split; [|done].
    apply list_elem_of_bind. exists b. split; [|done].
    by apply list_elem_of_singleton.
Qed.

(** A connected sequence creator delivers: the generator of
    [get_all_sequences()] ends without an exception after yielding at least
    one sequence, every sequence it yields has the requested length, and
    [get_random_sequence()] returns one of them whatever the random source
    draws. *)
Theorem connected_creator_sequences (L : Z) (lead mid trail : list string)
    (sc : create.SequenceCreator) :
  create.__init__ L lead mid trail = Ok sc →
  create.is_disconnected sc = false →
  ∃ m seqs,
    (∀ fuel, (m ≤ fuel)%nat →
       create.get_all_sequences sc fuel = (seqs, StopIteration)) ∧
    seqs ≠ [] ∧
    (∀ s, s ∈ seqs → len s = L) ∧
    (∀ draws, ∃ s, run (create.get_random_sequence sc) draws 0 = Ok s ∧
                   s ∈ seqs).
Proof using Type. exact (creator_delivers L lead mid trail sc). Qed.

Lemma connected_creator_sequences_witness :
  ∃ sc, create.__init__ 5 leading_pool middle_pool trailing_pool = Ok sc ∧
    ∃ m seqs,
      (∀ fuel, (m ≤ fuel)%nat →
         create.get_all_sequences sc fuel = (seqs, StopIteration)) ∧
      seqs ≠ [] ∧
      (∀ s, s ∈ seqs → len s = 5) ∧
      (∀ draws, ∃ s, run (create.get_random_sequence sc) draws 0 = Ok s ∧
                     s ∈ seqs).
Proof using Type.
  assert (match create.__init__ 5 leading_pool middle_pool trailing_pool with
          | Ok sc' => negb (create.is_disconnected sc')
          | _ => false
          end = true) as Hc by (vm_compute; reflexivity).
  revert Hc.
  destruct (create.__init__ 5 leading_pool middle_pool trailing_pool)
    as [sc| |] eqn:Hsc; intros Hc; [|discriminate Hc..].
  exists sc. split; [reflexivity|].
  apply (connected_creator_sequences 5 leading_pool middle_pool trailing_pool
           sc Hsc).
  by destruct (create.is_disconnected sc).
Defined.

Lemma create_init_ok (L : Z) (lead mid trail : list string)
    (l2m m2t : dedge.DirectedEdgeGetter) :
  dedge.__init__ lead mid = Ok l2m →
  dedge.__init__ mid trail = Ok m2t →
  create.get_len_single_middle_vertex (dedge._len_start l2m)
    (dedge._len_end l2m) (dedge._len_end m2t) ≤ L →
  ∃ sc, create.__init__ L lead mid trail = Ok sc.
Proof using Type.
  intros Hl2m Hm2t HL.
  pose proof (init_built _ _ _ Hl2m) as Hb1.
  pose proof (init_built _ _ _ Hm2t) as Hb2.
  destruct (middle_start_vertices_total _ _ _ Hl2m) as [sv Hsv].
  destruct (middle_end_vertices_total _ _ _ Hm2t) as [ev Hev].
  destruct (dedge_init_pool _ _ _ Hl2m) as [mm Hmm].
  unfold create.__init__.
  rewrite Hl2m, result_bind_Ok, Hm2t, result_bind_Ok, Hsv, result_bind_Ok,
    Hev, result_bind_Ok.
  case_bool_decide as Hempty; [by eexists|].
  destruct lead as [|l0 lead]; [done|]. destruct mid as [|m0 mid]; [done|].
  destruct trail as [|t0 trail].
  { unfold dedge.__init__ in Hm2t. done. }
  unfold getitem. simpl.
  rewrite (built_start_len _ _ _ Hb1 l0) by (by left).
  rewrite (built_end_len _ _ _ Hb1 m0) by (by left).
  rewrite (built_end_len _ _ _ Hb2 t0) by (by left).
  case_bool_decide as Hnum; [by eexists|].
  unfold create._multi_middle_vertex_init. rewrite Hmm, result_bind_Ok.
  destruct (graph_init_ok (as_edge_getter mm) (λ v, v ∈ m0 :: mid) sv ev
              (create._get_num_middle_vertices L (dedge._len_start l2m)
                 (dedge._len_end l2m) (dedge._len_end m2t)))
    as [gpf Hgpf].
  - by apply dedge_lawful.
  - intros v Hv.
    by apply (middle_start_vertices_spec _ _ _ _ Hl2m Hsv) in Hv as [Hv _].
  - intros v Hv.
    by apply (middle_end_vertices_spec _ _ _ _ Hm2t Hev) in Hv as [Hv _].
  - intros ->. apply Hempty. left. apply size_empty.
  - intros ->. apply Hempty. right. apply size_empty.
  - unfold create._get_num_middle_vertices in *. lia.
  - rewrite Hgpf, result_bind_Ok. by eexists.
Qed.

(** [__init__] accepts every length from the shortest sequence on: when
    both boundary edge getters can be built and the requested length is at
    least the length of a sequence with one middle vertex, the creator is
    constructed. This is the filter [TextGenerator] applies before it builds
    a creator. *)
Theorem create_init_succeeds (L : Z) (lead mid trail : list string)
    (l2m m2t : dedge.DirectedEdgeGetter) :
  dedge.__init__ lead mid = Ok l2m →
  dedge.__init__ mid trail = Ok m2t →
  create.get_len_single_middle_vertex (dedge._len_start l2m)
    (dedge._len_end l2m) (dedge._len_end m2t) ≤ L →
  ∃ sc, create.__init__ L lead mid trail = Ok sc.
Proof using Type. exact (create_init_ok L lead mid trail l2m m2t). Qed.

Lemma create_init_succeeds_witness :
  ∃ sc, create.__init__ 6 leading_pool middle_pool trailing_pool = Ok sc.
Proof using Type.
  assert (match dedge.__init__ leading_pool middle_pool,
                dedge.__init__ middle_pool trailing_pool with
          | Ok d1, Ok d2 =>
              bool_decide
                (create.get_len_single_middle_vertex (dedge._len_start d1)
                   (dedge._len_end d1) (dedge._len_end d2) ≤ 6)
          | _, _ => false
          end = true) as Hc by (vm_compute; reflexivity).
  revert Hc.
  destruct (dedge.__init__ leading_pool middle_pool) as [l2m| |] eqn:Hl2m;
    intros Hc; [|discriminate Hc..].
  destruct (dedge.__init__ middle_pool trailing_pool) as [m2t| |] eqn:Hm2t;
    [|discriminate Hc..].
  apply bool_decide_eq_true_1 in Hc.
  exact (create_init_succeeds 6 leading_pool middle_pool trailing_pool
           l2m m2t Hl2m Hm2t Hc).
Defined.

(** ** An edge getter that lists an edge in one direction only *)

(** One edge, from 1 to 2, known to [get_end_vertices] alone. *)
Definition one_way : graph.edge_getter Z :=
  {| graph.get_end_vertices :=
       λ v, Ok (if bool_decide (v = 1) then {[2]} else ∅);
     graph.get_start_vertices := λ _, Ok ∅ |}.

(** The documented requirement on the edge getter is needed: with an edge
    listed by [get_end_vertices] but not by [get_start_vertices], a path
    finder reports a disconnected graph although the tuple (1, 2) goes from
    the start set to the end set along an edge of [get_end_vertices]. *)
Theorem one_way_edge_is_lost :
  ∃ g, graph.__init__ {[1]} {[2]} 2 one_way = Ok g ∧
       graph.is_disconnected g = true ∧
       valid_path one_way {[1]} {[2]} 2 [1; 2].
Proof using Type.
  destruct (graph.__init__ ({[1]} : gset Z) {[2]} 2 one_way)
    as [g| |] eqn:Hg; [|by vm_compute in Hg..].
  exists g. split_and!; [reflexivity| |].
  - assert (match graph.__init__ ({[1]} : gset Z) {[2]} 2 one_way with
            | Ok g' => graph.is_disconnected g'
            | _ => false
            end = true) as Hc by (vm_compute; reflexivity).
    by rewrite Hg in Hc.
  - split_and!; [done| | |].
    + exists 1. split; [done|]. by apply elem_of_singleton.
    + exists 2. split; [done|]. by apply elem_of_singleton.
    + simpl. split; [|done]. exists {[2]}. split; [done|].
      by apply elem_of_singleton.
Qed.

(** ** The text generator *)

(** What [_build_sequence_dicts] asks of a length before it stores the
    creator. *)
Definition kept (min_len : Z) (lead mid trail : list string) (L : Z)
    (sc : create.SequenceCreator) : Prop :=
  min_len ≤ L ∧ create.__init__ L lead mid trail = Ok sc ∧
  create.is_disconnected sc = false.

Lemma build_sequence_dicts_inv {F : Type} (min_len : Z)
    (lead mid trail : list string) (items : list (Z * F))
    (cd cd' : gmap Z create.SequenceCreator) (fd fd' : gmap Z F) :
  text._build_sequence_dicts min_len lead mid trail items cd fd
  = Ok (cd', fd') →
  (∀ L sc, cd !! L = Some sc → kept min_len lead mid trail L sc) →
  dom fd = dom cd →
  dom fd' = dom cd' ∧
  ∀ L sc, cd' !! L = Some sc ↔
          cd !! L = Some sc ∨
          (L ∈ items.*1 ∧ kept min_len lead mid trail L sc).
Proof using Type.
  revert cd fd. induction items as [|[L0 f0] items IH]; intros cd fd.
  - simpl. intros [= <- <-] Hinv Hdom. split; [done|]. intros L sc. split.
    + by left.
    + intros [Hl|[Hin _]]; [done|]. by apply elem_of_nil in Hin.
  - simpl. case_bool_decide as Hshort.
    { intros Hrun Hinv Hdom.
      destruct (IH cd fd Hrun Hinv Hdom) as [Hdom' Hiff].
      split; [done|]. intros L sc. rewrite Hiff. split.
      - intros [Hl|[Hin Hk]]; [by left|]. right. split; [|done].
        by apply list_elem_of_further.
      - intros [Hl|[Hin Hk]]; [by left|].
        apply elem_of_cons in Hin as [->|Hin].
        + destruct Hk as [Hmin _]. lia.
        + right. by split. }
    destruct (create.__init__ L0 lead mid trail) as [sc0| |] eqn:Hsc0;
      [|done..].
    rewrite result_bind_Ok.
    destruct (create.is_disconnected sc0) eqn:Hflag.
    { intros Hrun Hinv Hdom.
      destruct (IH cd fd Hrun Hinv Hdom) as [Hdom' Hiff].
      split; [done|]. intros L sc. rewrite Hiff. split.
      - intros [Hl|[Hin Hk]]; [by left|]. right. split; [|done].
        by apply list_elem_of_further.
      - intros [Hl|[Hin Hk]]; [by left|].
        apply elem_of_cons in Hin as [->|Hin].
        + destruct Hk as (_ & Hsc & Hc). rewrite Hsc0 in Hsc.
          injection Hsc as <-. congruence.
        + right. by split. }
    intros Hrun Hinv Hdom.
    assert (kept min_len lead mid trail L0 sc0) as Hk0.
    { split_and!; [lia|done..]. }
    destruct (IH (<[L0 := sc0]> cd) (<[L0 := f0]> fd) Hrun)
      as [Hdom' Hiff].
    { intros L sc [[<- <-]|[_ Hl]]%lookup_insert_Some; [done|].
      by apply Hinv. }
    { by rewrite !dom_insert_L, Hdom. }
    split; [done|]. intros L sc. rewrite Hiff. split.
    + intros [[[<- <-]|[_ Hl]]%lookup_insert_Some|[Hin Hk]].
      * right. split; [by apply list_elem_of_here|done].
      * by left.
      * right. split; [by apply list_elem_of_further|done].
    + assert (∀ sc', kept min_len lead mid trail L0 sc' → sc' = sc0) as Huniq.
      { intros sc' (_ & Hsc' & _). rewrite Hsc0 in Hsc'. by injection Hsc'. }
      intros [Hl|[Hin Hk]].
      * left. destruct (decide (L = L0)) as [->|Hne].
        -- rewrite (Huniq sc (Hinv _ _ Hl)). by rewrite lookup_insert_eq.
        -- by rewrite lookup_insert_ne.
      * apply elem_of_cons in Hin as [->|Hin].
        -- left. rewrite (Huniq sc Hk). by rewrite lookup_insert_eq.
        -- right. by split.
Qed.

Lemma build_sequence_dicts_total {F : Type}
    (lead mid trail : list string) (l2m m2t : dedge.DirectedEdgeGetter)
    (items : list (Z * F))
    (cd : gmap Z create.SequenceCreator) (fd : gmap Z F) :
  dedge.__init__ lead mid = Ok l2m →
  dedge.__init__ mid trail = Ok m2t →
  ∃ cd' fd',
    text._build_sequence_dicts
      (create.get_len_single_middle_vertex (dedge._len_start l2m)
         (dedge._len_end l2m) (dedge._len_end m2t))
      lead mid trail items cd fd = Ok (cd', fd').
Proof using Type.
  intros Hl2m Hm2t. revert cd fd.
  induction items as [|[L0 f0] items IH]; intros cd fd.
  - by eexists _, _.
  - simpl. case_bool_decide as Hshort; [apply IH|].
    destruct (create_init_ok L0 lead mid trail l2m m2t Hl2m Hm2t)
      as [sc0 Hsc0]; [lia|].
    rewrite Hsc0, result_bind_Ok.
    destruct (create.is_disconnected sc0); apply IH.
Qed.

Lemma text_init_inv {F : Type} (mid lead trail sequences : list string)
    (items : list (Z * F)) (post : option (string → result string))
    (tg : text.TextGenerator F) :
  text.__init__ mid lead trail sequences items post = Ok tg →
  text._sequences tg = sequences ∧
  text._post_processing_fun tg = post ∧
  dom (text._seq_freq_dict tg) = dom (text._seq_creator_dict tg) ∧
  ∀ L sc, text._seq_creator_dict tg !! L = Some sc ↔
          L ∈ items.*1 ∧ kept (text._min_len tg) lead mid trail L sc.
Proof using Type.
  unfold text.__init__. intros Hinit.
  destruct (getitem lead 0) as [l0| |]; [|done..].
  destruct (getitem mid 0) as [m0| |]; [|done..].
  destruct (getitem trail 0) as [t0| |]; [|done..].
  rewrite !result_bind_Ok in Hinit.
  destruct (text._build_sequence_dicts _ lead mid trail items ∅ ∅)
    as [[cd fd]| |] eqn:Hrun; [|done..].
  rewrite result_bind_Ok in Hinit. injection Hinit as <-. simpl.
  destruct (build_sequence_dicts_inv _ _ _ _ _ _ _ _ _ Hrun) as [Hdom Hiff].
  { intros L sc Hl. by rewrite lookup_empty in Hl. }
  { by rewrite !dom_empty_L. }
  split_and!; [done..|]. intros L sc. rewrite Hiff. split.
  - intros [Hl|Hk]; [|done]. by rewrite lookup_empty in Hl.
  - by right.
Qed.

(** The dictionaries after [TextGenerator.__init__]: a length is a key of
    the creator dictionary exactly when it is one of the training data's
    lengths, is at least the minimum length and has a connected creator,
    and that creator is the value; the frequency dictionary has the same
    keys; [is_empty] says that there is no such length. *)
Theorem text_generator_creators {F : Type}
    (mid lead trail sequences : list string) (items : list (Z * F))
    (post : option (string → result string)) (tg : text.TextGenerator F) :
  text.__init__ mid lead trail sequences items post = Ok tg →
  dom (text._seq_freq_dict tg) = dom (text._seq_creator_dict tg) ∧
  (∀ L sc, text._seq_creator_dict tg !! L = Some sc ↔
           L ∈ items.*1 ∧ text._min_len tg ≤ L ∧
           create.__init__ L lead mid trail = Ok sc ∧
           create.is_disconnected sc = false) ∧
  (text.is_empty tg = true ↔
   ∀ L sc, L ∈ items.*1 → text._min_len tg ≤ L →
           create.__init__ L lead mid trail = Ok sc →
           create.is_disconnected sc = true).
Proof using Type.
  intros (_ & _ & Hdom & Hiff)%text_init_inv.
  split_and!; [done|exact Hiff|].
  unfold text.is_empty. rewrite bool_decide_eq_true, map_size_empty_iff.
  split.
  - intros Hempty L sc Hin Hmin Hsc.
    destruct (create.is_disconnected sc) eqn:Hflag; [done|].
    assert (text._seq_creator_dict tg !! L = Some sc) as Hl.
    { apply Hiff. by split_and!. }
    by rewrite Hempty, lookup_empty in Hl.
  - intros Hnone. apply map_empty. intros L.
    destruct (text._seq_creator_dict tg !! L) as [sc|] eqn:Hl; [|done].
    apply Hiff in Hl as (Hin & Hmin & Hsc & Hflag).
    by rewrite (Hnone L sc Hin Hmin Hsc) in Hflag.
Qed.

(** [TextGenerator.__init__] cannot fail on a length: when both boundary
    edge getters can be built from the pools, the generator is constructed
    for every dictionary of lengths, because lengths below the minimum are
    skipped before a creator is asked for. *)
Theorem text_init_succeeds {F : Type}
    (mid lead trail sequences : list string) (items : list (Z * F))
    (post : option (string → result string))
    (l2m m2t : dedge.DirectedEdgeGetter) :
  dedge.__init__ lead mid = Ok l2m →
  dedge.__init__ mid trail = Ok m2t →
  ∃ tg, text.__init__ mid lead trail sequences items post = Ok tg ∧
        text._min_len tg
        = create.get_len_single_middle_vertex (dedge._len_start l2m)
            (dedge._len_end l2m) (dedge._len_end m2t).
Proof using Type.
  intros Hl2m Hm2t.
  pose proof (init_built _ _ _ Hl2m) as Hb1.
  pose proof (init_built _ _ _ Hm2t) as Hb2.
  destruct lead as [|l0 lead]; [done|]. destruct mid as [|m0 mid]; [done|].
  destruct trail as [|t0 trail].
  { unfold dedge.__init__ in Hm2t. done. }
  unfold text.__init__, getitem. simpl.
  rewrite (built_start_len _ _ _ Hb1 l0) by (by left).
  rewrite (built_end_len _ _ _ Hb1 m0) by (by left).
  rewrite (built_end_len _ _ _ Hb2 t0) by (by left).
  destruct (build_sequence_dicts_total (l0 :: lead) (m0 :: mid)
              (t0 :: trail) l2m m2t items ∅ ∅ Hl2m Hm2t)
    as (cd & fd & Hrun).
  rewrite Hrun, result_bind_Ok. by eexists.
Qed.

(** An empty pool is not reported by [is_empty]: when one of the three
    n-gram pools is empty, [TextGenerator.__init__] raises [IndexError]
    while it computes the minimum length, before any dictionary is
    built. *)
Theorem text_init_empty_pool {F : Type}
    (mid lead trail sequences : list string) (items : list (Z * F))
    (post : option (string → result string)) :
  lead = [] ∨ mid = [] ∨ trail = [] →
  text.__init__ mid lead trail sequences items post = Raise IndexError.
Proof using Type.
  unfold text.__init__, getitem.
  intros [->|[->| ->]]; [done| |].
  - by destruct lead.
  - by destruct lead, mid.
Qed.

Lemma StronglySorted_constant (L : Z) (l : list Z) :
  (∀ x, x ∈ l → x = L) → StronglySorted Z.le l.
Proof using Type.
  induction l as [|x l IH]; intros Hall; [constructor|].
  apply StronglySorted_cons. split.
  - apply Forall_forall. intros y Hy.
    rewrite (Hall x) by (by left). rewrite (Hall y) by (by right). lia.
  - apply IH. intros y Hy. apply Hall. by right.
Qed.

(** The texts of one stored length. *)
Lemma texts_of_length_spec {F : Type} (tg : text.TextGenerator F)
    (lead mid trail : list string) (L : Z) (sc : create.SequenceCreator)
    (unique : bool) :
  text._seq_creator_dict tg !! L = Some sc →
  create.__init__ L lead mid trail = Ok sc →
  create.is_disconnected sc = false →
  text._post_processing_fun tg = None →
  ∃ m texts,
    (∀ fuel, (m ≤ fuel)%nat →
       text._get_all_texts_of_length tg L unique fuel
       = (texts, StopIteration)) ∧
    (∀ t, t ∈ texts →
          len t = L ∧ (unique = true → t ∉ text._sequences tg)) ∧
    (unique = false → texts ≠ []).
Proof using Type.
  intros Hl Hsc Hflag Hpost.
  destruct (creator_delivers L lead mid trail sc Hsc Hflag)
    as (m & seqs & Hrun & Hne & Hlen & _).
  set (filter_set := (if unique then list_to_set (text._sequences tg)
                      else ∅) : gset string).
  set (body := λ text : string,
         if bool_decide (text ∈ filter_set)
         then (([], StopIteration) : trace string)
         else ([text], StopIteration)).
  exists m, (seqs ≫= (λ x, (body x).1)). split_and!.
  - intros fuel Hfuel. unfold text._get_all_texts_of_length.
    rewrite Hl, (Hrun fuel Hfuel). unfold text._post_process_text.
    rewrite Hpost. simpl.
    apply (for_each_all_stop seqs body StopIteration).
    intros x _. unfold body. by case_bool_decide.
  - intros t (x & Ht & Hx)%list_elem_of_bind. unfold body in Ht.
    case_bool_decide as Hin; simpl in Ht.
    + by apply elem_of_nil in Ht.
    + apply list_elem_of_singleton in Ht as ->. split; [by apply Hlen|].
      intros ->. intros Hseq. apply Hin. unfold filter_set.
      by apply elem_of_list_to_set.
  - intros ->. destruct seqs as [|s seqs]; [done|].
    unfold body, filter_set. simpl.
    rewrite bool_decide_eq_false_2 by (apply not_elem_of_empty). done.
Qed.

(** The loop of [get_all_texts] over a list of stored lengths. *)
Lemma texts_of_keys_spec {F : Type} (tg : text.TextGenerator F)
    (lead mid trail : list string) (unique : bool) (keys : list Z) :
  text._post_processing_fun tg = None →
  (∀ L, L ∈ keys →
        ∃ sc, text._seq_creator_dict tg !! L = Some sc ∧
              create.__init__ L lead mid trail = Ok sc ∧
              create.is_disconnected sc = false) →
  ∃ m texts,
    (∀ fuel, (m ≤ fuel)%nat →
       for_each keys
         (λ len_seq, text._get_all_texts_of_length tg len_seq unique fuel)
         StopIteration
       = (texts, StopIteration)) ∧
    (∀ t, t ∈ texts →
          len t ∈ keys ∧ (unique = true → t ∉ text._sequences tg)) ∧
    (unique = false → keys ≠ [] → texts ≠ []) ∧
    (StronglySorted Z.le keys → StronglySorted Z.le (len <$> texts)).
Proof using Type.
  intros Hpost. induction keys as [|L keys IH]; intros Hkeys.
  - exists 0%nat, []. split_and!; try done;
      first [by intros _; constructor
            |intros t Ht; by apply elem_of_nil in Ht].
  - destruct IH as (m2 & texts2 & Hrun2 & Hin2 & _ & Hsorted2).
    { intros L' HL'. apply Hkeys. by right. }
    destruct (Hkeys L ltac:(by left)) as (sc & Hl & Hsc & Hflag).
    destruct (texts_of_length_spec tg lead mid trail L sc unique
                Hl Hsc Hflag Hpost)
      as (m1 & texts1 & Hrun1 & Hin1 & Hne1).
    exists (m1 `max` m2)%nat, (texts1 ++ texts2). split_and!.
    + intros fuel Hfuel. simpl.
      rewrite (Hrun1 fuel) by lia. by rewrite (Hrun2 fuel) by lia.
    + intros t [Ht|Ht]%elem_of_app.
      * destruct (Hin1 t Ht) as [<- Hu]. split; [by left|done].
      * destruct (Hin2 t Ht) as [Hk Hu]. split; [by right|done].
    + intros Hu _ Happ. apply app_eq_nil in Happ as [Hnil _].
      by apply (Hne1 Hu).
    + intros [Hall Hrest]%StronglySorted_cons. rewrite fmap_app.
      apply StronglySorted_app_2.
      * intros x1 x2 (t1 & -> & Ht1)%list_elem_of_fmap
          (t2 & -> & Ht2)%list_elem_of_fmap.
        destruct (Hin1 t1 Ht1) as [-> _]. destruct (Hin2 t2 Ht2) as [Hk _].
        rewrite Forall_forall in Hall. by apply Hall.
      * apply (StronglySorted_constant L).
        intros x (t1 & -> & Ht1)%list_elem_of_fmap. by apply Hin1.
      * by apply Hsorted2.
Qed.

(** Only lengths of the training data are generated: without a post
    processing function, [get_all_texts] ends without an exception; every
    text it yields has a length that is one of the training data's lengths
    and at least the minimum length, and with [unique] set is not one of the
    training sequences; the texts come in ascending order of length; and,
    [unique] not set, a generator that is not empty yields at least one
    text. *)
Theorem all_texts_of_seen_lengths {F : Type}
    (mid lead trail sequences : list string) (items : list (Z * F))
    (tg : text.TextGenerator F) (unique : bool) :
  text.__init__ mid lead trail sequences items None = Ok tg →
  ∃ m texts,
    (∀ fuel, (m ≤ fuel)%nat →
       text.get_all_texts tg unique fuel = (texts, StopIteration)) ∧
    (∀ t, t ∈ texts →
          len t ∈ items.*1 ∧ text._min_len tg ≤ len t ∧
          (unique = true → t ∉ sequences)) ∧
    (unique = false → text.is_empty tg = false → texts ≠ []) ∧
    StronglySorted Z.le (len <$> texts).
Proof using Type.
  intros (Hseqs & Hpost & Hdom & Hiff)%text_init_inv.
  assert (∀ L, L ∈ text.sorted_keys tg →
               ∃ sc, text._seq_creator_dict tg !! L = Some sc ∧
                     L ∈ items.*1 ∧
                     kept (text._min_len tg) lead mid trail L sc) as Hkeys.
  { intros L HL. unfold text.sorted_keys in HL.
    rewrite merge_sort_Permutation in HL.
    apply elem_of_elements, elem_of_dom in HL as [sc Hl].
    exists sc. split; [done|]. by apply Hiff. }
  destruct (texts_of_keys_spec tg lead mid trail unique
              (text.sorted_keys tg) Hpost)
    as (m & texts & Hrun & Hin & Hne & Hsorted).
  { intros L HL. destruct (Hkeys L HL) as (sc & Hl & _ & _ & Hsc & Hflag).
    by exists sc. }
  exists m, texts. split_and!.
  - exact Hrun.
  - intros t Ht. destruct (Hin t Ht) as [Hk Hu].
    destruct (Hkeys _ Hk) as (sc & _ & Hitem & Hmin & _ & _).
    split_and!; [done..|]. by rewrite <- Hseqs.
  - intros Hu Hempty. apply (Hne Hu). intros Hnil.
    unfold text.is_empty in Hempty.
    apply bool_decide_eq_false in Hempty. apply Hempty.
    apply map_size_empty_iff, map_empty. intros L.
    destruct (text._seq_creator_dict tg !! L) as [sc|] eqn:Hl; [|done].
    assert (L ∈ text.sorted_keys tg) as HL.
    { unfold text.sorted_keys. rewrite merge_sort_Permutation.
      apply elem_of_elements, elem_of_dom. by exists sc. }
    rewrite Hnil in HL. by apply elem_of_nil in HL.
  - apply Hsorted. apply StronglySorted_merge_sort; apply _.
Qed.

(** Lengths 2, 5 and 6 with their frequencies, and two training
    sequences. *)
Definition length_items : list (Z * Z) := [(2, 1); (5, 3); (6, 2)].
Definition training : list string := ["axxx1"; "bxxx2"].

Lemma text_generator_creators_witness :
  ∃ tg, text.__init__ middle_pool leading_pool trailing_pool training
          length_items None = Ok tg ∧
    dom (text._seq_freq_dict tg) = dom (text._seq_creator_dict tg) ∧
    (∀ L sc, text._seq_creator_dict tg !! L = Some sc ↔
             L ∈ length_items.*1 ∧ text._min_len tg ≤ L ∧
             create.__init__ L leading_pool middle_pool trailing_pool
             = Ok sc ∧
             create.is_disconnected sc = false) ∧
    (text.is_empty tg = true ↔
     ∀ L sc, L ∈ length_items.*1 → text._min_len tg ≤ L →
             create.__init__ L leading_pool middle_pool trailing_pool
             = Ok sc →
             create.is_disconnected sc = true).
Proof using Type.
  assert (match text.__init__ middle_pool leading_pool trailing_pool
                  training length_items None with
          | Ok _ => true
          | _ => false
          end = true) as Hc by (vm_compute; reflexivity).
  revert Hc.
  destruct (text.__init__ middle_pool leading_pool trailing_pool training
              length_items None) as [tg| |] eqn:Htg;
    intros Hc; [|discriminate Hc..].
  exists tg. split; [reflexivity|].
  exact (text_generator_creators middle_pool leading_pool trailing_pool
           training length_items None tg Htg).
Defined.

Lemma text_init_succeeds_witness :
  ∃ l2m m2t tg,
    dedge.__init__ leading_pool middle_pool = Ok l2m ∧
    dedge.__init__ middle_pool trailing_pool = Ok m2t ∧
    text.__init__ middle_pool leading_pool trailing_pool training
      length_items None = Ok tg ∧
    text._min_len tg
    = create.get_len_single_middle_vertex (dedge._len_start l2m)
        (dedge._len_end l2m) (dedge._len_end m2t).
Proof using Type.
  destruct (dedge.__init__ leading_pool middle_pool) as [l2m| |] eqn:Hl2m;
    [|by vm_compute in Hl2m..].
  destruct (dedge.__init__ middle_pool trailing_pool) as [m2t| |] eqn:Hm2t;
    [|by vm_compute in Hm2t..].
  destruct (text_init_succeeds middle_pool leading_pool trailing_pool
              training length_items None l2m m2t Hl2m Hm2t)
    as (tg & Htg & Hmin).
  exists l2m, m2t, tg. split_and!; [reflexivity|reflexivity|exact Htg|exact Hmin].
Defined.

Lemma text_init_empty_pool_witness :
  text.__init__ middle_pool [] trailing_pool training length_items None
  = Raise IndexError.
Proof using Type.
  apply (text_init_empty_pool middle_pool [] trailing_pool training
           length_items None).
  left. reflexivity.
Defined.

Lemma all_texts_of_seen_lengths_witness :
  ∃ tg, text.__init__ middle_pool leading_pool trailing_pool training
          length_items None = Ok tg ∧
    ∃ m texts,
      (∀ fuel, (m ≤ fuel)%nat →
         text.get_all_texts tg true fuel = (texts, StopIteration)) ∧
      (∀ t, t ∈ texts →
            len t ∈ length_items.*1 ∧ text._min_len tg ≤ len t ∧
            (true = true → t ∉ training)) ∧
      (true = false → text.is_empty tg = false → texts ≠ []) ∧
      StronglySorted Z.le (len <$> texts).
Proof using Type.
  assert (match text.__init__ middle_pool leading_pool trailing_pool
                  training length_items None with
          | Ok _ => true
          | _ => false
          end = true) as Hc by (vm_compute; reflexivity).
  revert Hc.
  destruct (text.__init__ middle_pool leading_pool trailing_pool training
              length_items None) as [tg| |] eqn:Htg;
    intros Hc; [|discriminate Hc..].
  exists tg. split; [reflexivity|].
  exact (all_texts_of_seen_lengths middle_pool leading_pool trailing_pool
           training length_items tg true Htg).
Defined.
